(** * Bosun: search index and silence engine

    A shallow embedding of [search/search.go] (the metric/tag index, the
    restricted-glob matcher, the last-two-points cache) and of
    [sched/silence.go] (silence rules), together with the properties the
    specification states about them.

    Conventions.
    - A Go [string] is a Rocq [string], read as a sequence of bytes.
    - A Go [map] is a stdpp [gmap]; a [map[string]struct{}] is a [gset].
      The maps are values, except in module [heap], which keeps the
      tables of the index as references into a store, for what depends
      on two tables sharing a map.
    - [int] and [int64] are [Z] with the two's-complement wrap-around
      written out ([wrap64]); [float64] is the primitive binary64 [float].
    - A run-time panic (index out of range) is [None] in the [option]
      monad; a returned Go [error] is a value of type [error]. *)

From Stdlib Require Import ZArith String Ascii Floats Bool.
From stdpp Require Import base option list gmap strings sorting.

(** ** Errors *)

(** Codes of [regexp/syntax.Error] that the modelled syntax can raise. *)
Inductive ErrorCode :=
  | ErrMissingRepeatArgument
  | ErrInvalidRepeatOp
  | ErrTrailingBackslash
  | ErrOutsideModel.

(** A Go [error]: the message of an [fmt.Errorf], a [*syntax.Error] of
    the regexp package, or the error of the alert-key parser (whose text
    the sources do not give) on the input it rejected. *)
Inductive error :=
  | errorString (msg : string)
  | syntaxError (code : ErrorCode)
  | alertKeyError (input : string).

Inductive result (A : Type) :=
  | Ok (a : A)
  | Fail (e : error).
Arguments Ok {A} a.
Arguments Fail {A} e.

(** ** Package [strings] (the functions the sources call) *)

Module GoStr.

(** [strings.Replace(s, old, new, -1)]: every non-overlapping occurrence
    of [old], scanning from the left.  [skip] counts the bytes of the
    occurrence just replaced that are still to be dropped. *)
Fixpoint replace_from (old new s : string) (skip : nat) : string :=
  match s with
  | EmptyString => EmptyString
  | String c s' =>
      match skip with
      | S k => replace_from old new s' k
      | O =>
          if String.prefix old s
          then new +:+ replace_from old new s' (String.length old - 1)
          else String c (replace_from old new s' 0)
      end
  end.

(** With an empty [old], Go inserts [new] before every character and
    at the end. *)
Fixpoint replace_empty (new s : string) : string :=
  match s with
  | EmptyString => new
  | String c s' => new +:+ String c (replace_empty new s')
  end.

Definition Replace (s old new : string) : string :=
  match old with
  | EmptyString => replace_empty new s
  | _ => replace_from old new s 0
  end.

(** [strings.Split(s, sep)] for a non-empty [sep]; the head of the
    result is the field being read. *)
Fixpoint split_from (sep s : string) (skip : nat) : list string :=
  match s with
  | EmptyString => [EmptyString]
  | String c s' =>
      match skip with
      | S k => split_from sep s' k
      | O =>
          if String.prefix sep s
          then EmptyString :: split_from sep s' (String.length sep - 1)
          else match split_from sep s' 0 with
               | f :: fs => String c f :: fs
               | [] => [String c EmptyString]
               end
      end
  end.

Definition Split (s sep : string) : list string := split_from sep s 0.

(** [strings.Contains(s, substr)]. *)
Fixpoint Contains (s substr : string) : bool :=
  String.prefix substr s ||
  match s with
  | EmptyString => false
  | String _ s' => Contains s' substr
  end.

(** [unicode.IsSpace] on the runes of one byte: tab, line feed,
    vertical tab, form feed, carriage return and space. *)
Definition isSpace (c : ascii) : bool :=
  let n := N_of_ascii c in
  ((9 <=? n) && (n <=? 13) || (n =? 32))%N.

(** [unicode.IsSpace] on the runes of two bytes, by their UTF-8
    encoding: U+0085 and U+00A0. *)
Definition isSpace2 (c d : ascii) : bool :=
  let a := N_of_ascii c in
  let b := N_of_ascii d in
  ((a =? 194) && ((b =? 133) || (b =? 160)))%N.

(** [unicode.IsSpace] on the runes of three bytes, by their UTF-8
    encoding: U+1680, U+2000 to U+200A, U+2028, U+2029, U+202F, U+205F
    and U+3000, the rest of the White_Space property of Unicode. *)
Definition isSpace3 (c d e : ascii) : bool :=
  let a := N_of_ascii c in
  let b := N_of_ascii d in
  let n := N_of_ascii e in
  ((a =? 225) && (b =? 154) && (n =? 128)
   || (a =? 226) && (b =? 128)
      && ((128 <=? n) && (n <=? 138) || (n =? 168) || (n =? 169) || (n =? 175))
   || (a =? 226) && (b =? 129) && (n =? 159)
   || (a =? 227) && (b =? 128) && (n =? 128))%N.

(** [strings.TrimLeftFunc(s, unicode.IsSpace)]: the white-space runes
    at the front are dropped; the first byte that starts no such rune
    ends the scan. *)
Fixpoint trimLeft (s : string) : string :=
  match s with
  | EmptyString => EmptyString
  | String c s1 =>
      if isSpace c then trimLeft s1
      else
        match s1 with
        | EmptyString => s
        | String d s2 =>
            if isSpace2 c d then trimLeft s2
            else
              match s2 with
              | EmptyString => s
              | String e s3 => if isSpace3 c d e then trimLeft s3 else s
              end
        end
  end.

(** The same scan on the text read backwards, where the bytes of a
    rune come last byte first. *)
Fixpoint trimLeft_rev (s : string) : string :=
  match s with
  | EmptyString => EmptyString
  | String c s1 =>
      if isSpace c then trimLeft_rev s1
      else
        match s1 with
        | EmptyString => s
        | String d s2 =>
            if isSpace2 d c then trimLeft_rev s2
            else
              match s2 with
              | EmptyString => s
              | String e s3 => if isSpace3 e d c then trimLeft_rev s3 else s
              end
        end
  end.

(** [strings.TrimRightFunc(s, unicode.IsSpace)]: the white-space runes
    at the end are dropped. *)
Definition trimRight (s : string) : string :=
  String.rev (trimLeft_rev (String.rev s)).

(** [strings.TrimSpace(s)]: white space in the sense of Unicode is
    dropped at both ends. *)
Definition TrimSpace (s : string) : string := trimRight (trimLeft s).

(** [strings.Join(elems, sep)]. *)
Definition Join (elems : list string) (sep : string) : string :=
  String.concat sep elems.

(** [sort.Strings(l)], as the sorted list it leaves in place;
    [String.le] is the byte-wise lexicographic order, the order of
    Go's [<] on strings. *)
Definition sort_Strings (l : list string) : list string :=
  merge_sort String.le l.

End GoStr.

(** ** Package [regexp], restricted

    The syntax covered: literal characters, [.], [^], [$], a backslash
    before a punctuation character, and the postfix operators [*], [+],
    [?] (each optionally followed by the non-greedy mark [?]).  Groups,
    alternation, classes, counted repetition, letter escapes and
    characters outside ASCII are reported as [ErrOutsideModel]; nothing
    is said about what Go does with them.  The text is matched byte by
    byte: [.] takes one byte other than a line feed, which is what Go
    does on ASCII text and, for [.*], on any text.

    The model is used where a statement is about patterns inside it
    (the plain patterns of [Match], whose only [.] stands under a [*])
    and for the concrete runs.  What holds of [Match] and [Expand] for
    every pattern is proved over an arbitrary regexp library instead
    (section [Library] of [search]). *)

Module GoRegexp.

Inductive atom :=
  | ALit (c : ascii)
  | AAnyNotNL
  | ABeginText
  | AEndText.

Inductive rep := One | Star | Plus | Quest.

Definition item : Type := atom * rep.

(** A compiled expression: the items in sequence. *)
Definition Regexp : Type := list item.

(** What the previous token was: no repetition operator; an operator
    that may still take its [?]; an operator with its [?] taken. *)
Inductive last := LNone | LRepeat | LRepeatLazy.

Definition isalnum (c : ascii) : bool :=
  let n := N_of_ascii c in
  ((48 <=? n) && (n <=? 57) || (65 <=? n) && (n <=? 90)
   || (97 <=? n) && (n <=? 122))%N.

Definition isASCII (c : ascii) : bool := (N_of_ascii c <? 128)%N.

Definition rep_of (c : ascii) : option rep :=
  if Ascii.eqb c "*" then Some Star
  else if Ascii.eqb c "+" then Some Plus
  else if Ascii.eqb c "?" then Some Quest
  else None.

(** Characters that open syntax the model leaves out. *)
Definition unmodelled (c : ascii) : bool :=
  Ascii.eqb c "(" || Ascii.eqb c ")" || Ascii.eqb c "|"
  || Ascii.eqb c "[" || Ascii.eqb c "{" || negb (isASCII c).

(** The parser's loop over the remaining text.  [stack] holds the
    items read so far, latest first. *)
Fixpoint parse (t : string) (stack : list item) (l : last)
  : ErrorCode + Regexp :=
  match t with
  | EmptyString => inr (rev stack)
  | String c t' =>
      match rep_of c with
      | Some op =>
          match l, op with
          | LRepeat, Quest => parse t' stack LRepeatLazy
          | LNone, _ =>
              match stack with
              | [] => inl ErrMissingRepeatArgument
              | (a, _) :: stack' => parse t' ((a, op) :: stack') LRepeat
              end
          | _, _ => inl ErrInvalidRepeatOp
          end
      | None =>
          if Ascii.eqb c "\" then
            match t' with
            | EmptyString => inl ErrTrailingBackslash
            | String d t'' =>
                if isASCII d && negb (isalnum d)
                then parse t'' ((ALit d, One) :: stack) LNone
                else inl ErrOutsideModel
            end
          else if Ascii.eqb c "." then parse t' ((AAnyNotNL, One) :: stack) LNone
          else if Ascii.eqb c "^" then parse t' ((ABeginText, One) :: stack) LNone
          else if Ascii.eqb c "$" then parse t' ((AEndText, One) :: stack) LNone
          else if unmodelled c then inl ErrOutsideModel
          else parse t' ((ALit c, One) :: stack) LNone
      end
  end.

(** [regexp.Compile(expr)]. *)
Definition Compile (expr : string) : result Regexp :=
  match parse expr [] LNone with
  | inl code => Fail (syntaxError code)
  | inr re => Ok re
  end.

(** Whether a character atom accepts [c]; [None] for the empty-width
    atoms. *)
Definition accepts (a : atom) : option (ascii -> bool) :=
  match a with
  | ALit c => Some (Ascii.eqb c)
  | AAnyNotNL => Some (fun d => negb (Ascii.eqb d "010"))
  | ABeginText | AEndText => None
  end.

Definition is_empty (s : string) : bool :=
  match s with EmptyString => true | _ => false end.

(** Zero or more characters accepted by [p], then the continuation. *)
Fixpoint star (k : bool -> string -> bool) (p : ascii -> bool)
    (bot : bool) (s : string) : bool :=
  k bot s ||
  match s with
  | EmptyString => false
  | String c s' => p c && star k p false s'
  end.

(** [match_here re bot s]: some prefix of [s] matches [re]; [bot] says
    that [s] starts at the beginning of the text. *)
Fixpoint match_here (re : Regexp) (bot : bool) (s : string) : bool :=
  match re with
  | [] => true
  | (a, r) :: re' =>
      match accepts a with
      | Some p =>
          match r with
          | One =>
              match s with
              | EmptyString => false
              | String c s' => p c && match_here re' false s'
              end
          | Quest =>
              match_here re' bot s ||
              match s with
              | EmptyString => false
              | String c s' => p c && match_here re' false s'
              end
          | Star => star (match_here re') p bot s
          | Plus =>
              match s with
              | EmptyString => false
              | String c s' => p c && star (match_here re') p false s'
              end
          end
      | None =>
          let holds :=
            match a with
            | ABeginText => bot
            | _ => is_empty s
            end in
          match r with
          | One | Plus => holds && match_here re' bot s
          | Star | Quest => match_here re' bot s
          end
      end
  end.

Fixpoint search_from (re : Regexp) (bot : bool) (s : string) : bool :=
  match_here re bot s ||
  match s with
  | EmptyString => false
  | String _ s' => search_from re false s'
  end.

(** [re.MatchString(s)]: [s] contains a match of [re]. *)
Definition MatchString (re : Regexp) (s : string) : bool :=
  search_from re true s.

End GoRegexp.

Local Open Scope string_scope.
Local Open Scope list_scope.

(** ** Machine integers and floats *)

(** Two's-complement wrap-around of a 64-bit signed integer. *)
Definition wrap64 (z : Z) : Z := ((z + 2 ^ 63) mod 2 ^ 64 - 2 ^ 63)%Z.

(** The conversion [float64(x)] of an [int64], rounding to nearest even. *)
Definition float64_of_int64 (z : Z) : float :=
  SF2Prim (binary_normalize prec emax z 0 false).

(** ** Package [opentsdb] (the types the index consumes) *)

Module opentsdb.

(** [type TagSet map[string]string]. *)
Abbreviation TagSet := (gmap string string).

(** The dynamic value of a data point, an [interface{}]: the nil
    interface of the zero DataPoint, a [float64], or something else. *)
Inductive dynamic :=
  | VNil
  | VFloat64 (f : float)
  | VInt64 (z : Z)
  | VString (s : string).

Record DataPoint := {
  Metric : string;
  Timestamp : Z;
  Value : dynamic;
  Tags : TagSet;
}.

(** The zero value of [DataPoint], what a fresh array slot holds. *)
Definition zeroDataPoint : DataPoint :=
  {| Metric := ""; Timestamp := 0; Value := VNil; Tags := ∅ |}.

(** The part of [opentsdb.Query] that [Expand] reads and writes. *)
Record Query := {
  qMetric : string;
  qTags : TagSet;
}.

Definition key_le (a b : string * string) : Prop := String.le a.1 b.1.

Global Instance key_le_dec a b : Decision (key_le a b).
Proof. unfold key_le. apply _. Defined.

(** The pairs of a tag set in increasing order of their keys. *)
Definition sorted_pairs (t : TagSet) : list (string * string) :=
  merge_sort key_le (map_to_list t).

(** Modelled from the spec: one [key=val] of [TagSet.String]. *)
Definition render_pair (kv : string * string) : string :=
  kv.1 +:+ "=" +:+ kv.2.

(** Modelled from the spec: the form [{key=val,key2=val2}] of
    [TagSet.String]. *)
Definition render (l : list (string * string)) : string :=
  "{" +:+ GoStr.Join (render_pair <$> l) "," +:+ "}".

(** Modelled from the spec: [TagSet.String] lives in the vendored
    opentsdb package, which is not among the sources.  The spec calls
    it the canonical string form of the tag set, and the comment on
    [GetLast] gives that form as [{key=val,key2=val2}]; canonical is
    taken to mean ordered by key. *)
Definition TagSet_String (t : TagSet) : string := render (sorted_pairs t).

End opentsdb.

(** ** Package [search] *)

Module search.
Import opentsdb.

(** [type present map[string]struct{}]. *)
Abbreviation present := (gset string).

(** [type duple struct{ A, B string }]. *)
Abbreviation duple := (string * string)%type.

Record MetricTagSet := {
  mtsMetric : string;
  mtsTags : TagSet;
}.

(** [func (mts *MetricTagSet) key() string]. *)
Definition key (mts : MetricTagSet) : string :=
  mtsMetric mts +:+ TagSet_String (mtsTags mts).

(** [type pair struct { points [2]DataPoint; index int }]. *)
Record pair := {
  points : DataPoint * DataPoint;
  index : Z;
}.

(** [new(pair)]. *)
Definition newPair : pair :=
  {| points := (zeroDataPoint, zeroDataPoint); index := 0 |}.

(** [p.points[i]]; an index outside the array panics. *)
Definition points_get (p : pair) (i : Z) : option DataPoint :=
  if (i =? 0)%Z then Some (points p).1
  else if (i =? 1)%Z then Some (points p).2
  else None.

(** [p.points[i] = dp]. *)
Definition points_set (p : pair) (i : Z) (dp : DataPoint) : option pair :=
  if (i =? 0)%Z then Some {| points := (dp, (points p).2); index := index p |}
  else if (i =? 1)%Z then Some {| points := ((points p).1, dp); index := index p |}
  else None.

(** The four tables that [Copy] publishes; the zero value (nil maps)
    reads as empty. *)
Record Replica := {
  rMetric : gmap duple present;
  rTagk : gmap string present;
  rTagv : gmap duple present;
  rMetricTags : gmap string MetricTagSet;
}.

Record Search := {
  Metric : gmap duple present;       (* tagk + tagv -> metrics *)
  Tagk : gmap string present;        (* metric -> tag keys *)
  Tagv : gmap duple present;         (* metric + tagk -> tag values *)
  MetricTags : gmap string MetricTagSet;
  Last : gmap string pair;
  read : Replica;
  copy : bool;
}.

Definition live (s : Search) : Replica :=
  {| rMetric := Metric s; rTagk := Tagk s; rTagv := Tagv s;
     rMetricTags := MetricTags s |}.

Definition NewSearch : Search :=
  {| Metric := ∅; Tagk := ∅; Tagv := ∅; MetricTags := ∅; Last := ∅;
     read := {| rMetric := ∅; rTagk := ∅; rTagv := ∅; rMetricTags := ∅ |};
     copy := false |}.

(** [func (s *Search) Copy()]: the maps are values here, so the deep
    copy is the identity on them. *)
Definition Copy (s : Search) : Search :=
  {| Metric := Metric s; Tagk := Tagk s; Tagv := Tagv s;
     MetricTags := MetricTags s; Last := Last s;
     read := live s; copy := copy s |}.

(** [s.copy = b]. *)
Definition set_copy (s : Search) (b : bool) : Search :=
  {| Metric := Metric s; Tagk := Tagk s; Tagv := Tagv s;
     MetricTags := MetricTags s; Last := Last s;
     read := read s; copy := b |}.

(** The body of the goroutine that [Index] starts, once its sleep is
    over: publish, then clear the guard. *)
Definition publish (s : Search) : Search := set_copy (Copy s) false.

(** [if _, ok := m[q]; !ok { m[q] = make(present) }; m[q][x] = struct{}{}]. *)
Definition present_add `{Countable K} (m : gmap K present) (q : K)
    (x : string) : gmap K present :=
  let m := match m !! q with
           | Some _ => m
           | None => <[q := ∅]> m
           end in
  <[q := {[x]} ∪ default ∅ (m !! q)]> m.

(** A Go [range] over a map, in the order [map_to_list] happens to give. *)
Definition range_map {V S : Type} (f : S -> string -> V -> S) (s : S)
    (m : gmap string V) : S :=
  foldl (fun s kv => f s kv.1 kv.2) s (map_to_list m).

(** The [mts] that [Index] builds for a point:
    [mts.Metric = dp.Metric; mts.Tags = dp.Tags]. *)
Definition series (dp : DataPoint) : MetricTagSet :=
  {| mtsMetric := opentsdb.Metric dp; mtsTags := Tags dp |}.

(** One turn of the loop over [dp.Tags]. *)
Definition index_tag (metric : string) (t : Replica) (k v : string) : Replica :=
  {| rMetric := present_add (rMetric t) (k, v) metric;
     rTagk := present_add (rTagk t) metric k;
     rTagv := present_add (rTagv t) (metric, k) v;
     rMetricTags := rMetricTags t |}.

(** The registry and table updates for one point. *)
Definition index_tables (t : Replica) (dp : DataPoint) : Replica :=
  let mts := series dp in
  let t := {| rMetric := rMetric t; rTagk := rTagk t; rTagv := rTagv t;
              rMetricTags := <[key mts := mts]> (rMetricTags t) |} in
  range_map (index_tag (opentsdb.Metric dp)) t (Tags dp).

(** The update of the last-two-points pair for one point. *)
Definition index_last (l : gmap string pair) (dp : DataPoint)
  : option (gmap string pair) :=
  let k := key (series dp) in
  let p := match l !! k with
           | Some p => p
           | None => newPair
           end in
  cur ← points_get p (Z.rem (index p) 2);
  if (Timestamp cur <? Timestamp dp)%Z then
    p' ← points_set p (Z.rem (index p) 2) dp;
    Some (<[k := {| points := points p'; index := wrap64 (index p + 1) |}]> l)
  else Some (<[k := p]> l).

(** The body of the loop of [Index] over the batch. *)
Definition Index_point (s : Search) (dp : DataPoint) : option Search :=
  let t := index_tables (live s) dp in
  l ← index_last (Last s) dp;
  Some {| Metric := rMetric t; Tagk := rTagk t; Tagv := rTagv t;
          MetricTags := rMetricTags t; Last := l;
          read := read s; copy := copy s |}.

(** [func (s *Search) Index(mdp opentsdb.MultiDataPoint)].  Where the
    code finds [copy] unset it sets it and starts the goroutine that
    runs [publish] a minute later; the pending publish is the set flag. *)
Definition Index (s : Search) (mdp : list DataPoint) : option Search :=
  let s := if negb (copy s) then set_copy s true else s in
  foldl (fun os dp => s ← os; Index_point s dp) (Some s) mdp.

(** [func Match(search string, values []string) ([]string, error)]. *)
Definition Match (search : string) (values : list string)
  : result (list string) :=
  let v := GoStr.Replace search "." "\." in
  let v := GoStr.Replace v "*" ".*" in
  let v := "^" +:+ v +:+ "$" in
  match GoRegexp.Compile v with
  | Fail err => Fail err
  | Ok re =>
      Ok (foldl (fun nvs nv =>
                   if GoRegexp.MatchString re nv then nvs ++ [nv] else nvs)
                [] values)
  end.

Definition errNotFloat : error := errorString "last: expected float64".
Definition errNeedTwo : error := errorString "last: need two data points".

(** [v, ok = e.Value.(float64)]. *)
Definition as_float64 (v : dynamic) : float * bool :=
  match v with
  | VFloat64 f => (f, true)
  | _ => (PrimFloat.zero, false)
  end.

(** [func (s *Search) GetLast(metric, tags string, diff bool)
    (v float64, err error)]; [None] in [err] is the nil error. *)
Definition GetLast (s : Search) (metric tags : string) (diff : bool)
  : option (float * option error) :=
  match Last s !! (metric +:+ tags) with
  | None => Some (PrimFloat.zero, None)
  | Some p =>
      e ← points_get p (Z.rem (wrap64 (index p + 1)) 2);
      let '(v, ok) := as_float64 (Value e) in
      let err := if ok then None else Some errNotFloat in
      if diff then
        o ← points_get p (Z.rem (index p) 2);
        let '(ov, ok) := as_float64 (Value o) in
        let err := if ok then err else Some errNotFloat in
        let err := if (Timestamp o =? 0)%Z || (Timestamp e =? 0)%Z
                   then Some errNeedTwo else err in
        Some (PrimFloat.div (PrimFloat.sub v ov)
                (float64_of_int64 (wrap64 (Timestamp e - Timestamp o))),
              err)
      else Some (v, err)
  end.

(** [func (s *Search) tagValuesByMetricTagKey(Metric, Tagk string)]. *)
Definition TagValuesByMetricTagKey (s : Search) (metric tagk : string)
  : list string :=
  GoStr.sort_Strings (elements (default ∅ (rTagv (read s) !! (metric, tagk)))).

(** *** The matcher and the query expansion over the libraries

    [regexp.Compile], [Regexp.MatchString] and [strings.TrimSpace]
    are left open in this section: what is proved of its functions
    holds whatever the three library functions compute.  [GoRegexp]
    and [GoStr.TrimSpace] are the instance of the concrete runs. *)

Section Library.
Context {Regexp : Type}.
Variable Compile : string -> result Regexp.
Variable MatchString : Regexp -> string -> bool.
Variable TrimSpace : string -> string.

(** [func Match(search string, values []string) ([]string, error)],
    as above, with the regexp library left open. *)
Definition Match_with (search : string) (values : list string)
  : result (list string) :=
  let v := GoStr.Replace search "." "\." in
  let v := GoStr.Replace v "*" ".*" in
  let v := "^" +:+ v +:+ "$" in
  match Compile v with
  | Fail err => Fail err
  | Ok re =>
      Ok (foldl (fun nvs nv =>
                   if MatchString re nv then nvs ++ [nv] else nvs)
                [] values)
  end.

(** The body of the loop of [Expand] over the alternatives of one
    tag value. *)
Definition expand_alt (s : Search) (metric k : string)
    (nvs : list string) (v : string) : result (list string) :=
  let v := TrimSpace v in
  if String.eqb v "*" || negb (GoStr.Contains v "*") then Ok (nvs ++ [v])
  else
    let vs := TagValuesByMetricTagKey s metric k in
    match Match_with v vs with
    | Fail err => Fail err
    | Ok ns => Ok (nvs ++ ns)
    end.

Definition expand_alts (s : Search) (metric k : string)
    (alts : list string) : result (list string) :=
  foldl (fun r v => match r with
                    | Fail err => Fail err
                    | Ok nvs => expand_alt s metric k nvs v
                    end) (Ok []) alts.

(** One turn of the loop of [Expand] over [q.Tags]: the new value of
    the tag, or the error that ends the call. *)
Definition expand_tag (s : Search) (metric k ov : string) : result string :=
  match expand_alts s metric k (GoStr.Split ov "|") with
  | Fail err => Fail err
  | Ok nvs =>
      if (length nvs =? 0)%nat
      then Fail (errorString ("expr: no tags matching " +:+ k +:+ "=" +:+ ov))
      else Ok (GoStr.Join nvs "|")
  end.

(** [func (s *Search) Expand(q *opentsdb.Query) error]: the query as
    the call leaves it, and the error returned ([None] is nil). *)
Definition Expand (s : Search) (q : Query) : Query * option error :=
  foldl (fun st kv =>
           match st with
           | (q, Some err) => (q, Some err)
           | (q, None) =>
               match expand_tag s (qMetric q) kv.1 kv.2 with
               | Fail err => (q, Some err)
               | Ok nv => ({| qMetric := qMetric q;
                              qTags := <[kv.1 := nv]> (qTags q) |}, None)
               end
           end) (q, None) (map_to_list (qTags q)).

End Library.

(** The loop of [UniqueMetrics] that stores the keys of the published
    table: [metrics[i] = k; i++], panicking past the end. *)
Definition fill (ks : list string) (metrics : list string)
  : option (list string) :=
  fst <$> foldl (fun st k =>
                   '(metrics, i) ← st;
                   if (i <? length metrics)%nat
                   then Some (<[i := k]> metrics, S i)
                   else None) (Some (metrics, 0%nat)) ks.

(** [func (s *Search) UniqueMetrics() []string]. *)
Definition UniqueMetrics (s : Search) : option (list string) :=
  let metrics := replicate (size (Tagk s)) "" in
  metrics ← fill (elements (dom (rTagk (read s)))) metrics;
  Some (GoStr.sort_Strings metrics).

(** [func (p present) Copy() present]. *)
Definition present_Copy (p : present) : present :=
  foldl (fun (m : present) k => {[k]} ∪ m) ∅ (elements p).

(** [func (q qmap) Copy() qmap]. *)
Definition qmap_Copy (q : gmap duple present) : gmap duple present :=
  foldl (fun (m : gmap duple present) kv => <[kv.1 := present_Copy kv.2]> m)
        ∅ (map_to_list q).

(** [func (s smap) Copy() smap]. *)
Definition smap_Copy (s : gmap string present) : gmap string present :=
  range_map (fun (m : gmap string present) k v => <[k := present_Copy v]> m) ∅ s.

(** [func (t mtsmap) Copy() mtsmap]. *)
Definition mtsmap_Copy (t : gmap string MetricTagSet) : gmap string MetricTagSet :=
  range_map (fun (m : gmap string MetricTagSet) k v => <[k := v]> m) ∅ t.

(** The replica [r] that [Copy] builds with the four [Copy] methods,
    before it stores it in [s.read]. *)
Definition copied (s : Search) : Replica :=
  {| rMetric := qmap_Copy (Metric s); rTagk := smap_Copy (Tagk s);
     rTagv := qmap_Copy (Tagv s); rMetricTags := mtsmap_Copy (MetricTags s) |}.

(** [func (s *Search) MetricsByTagPair(Tagk, Tagv string) []string]. *)
Definition MetricsByTagPair (s : Search) (tagk tagv : string) : list string :=
  GoStr.sort_Strings (elements (default ∅ (rMetric (read s) !! (tagk, tagv)))).

(** [func (s *Search) TagKeysByMetric(Metric string) []string]. *)
Definition TagKeysByMetric (s : Search) (metric : string) : list string :=
  GoStr.sort_Strings (elements (default ∅ (rTagk (read s) !! metric))).

(** The end of [TagValuesByTagKey] and of
    [FilteredTagValuesByMetricTagKey]: the keys of [tagvset] stored by
    index in a slice of its length, then sorted. *)
Definition sorted_keys (tagvset : gmap string bool) : option (list string) :=
  tagvs ← fill (elements (dom tagvset)) (replicate (size tagvset) "");
  Some (GoStr.sort_Strings tagvs).

(** [func (s *Search) TagValuesByTagKey(Tagk string) []string]. *)
Definition TagValuesByTagKey (s : Search) (tagk : string) : option (list string) :=
  um ← UniqueMetrics s;
  let tagvset :=
    foldl (fun (set : gmap string bool) metric =>
             foldl (fun (set : gmap string bool) tagv => <[tagv := true]> set)
                   set (TagValuesByMetricTagKey s metric tagk))
          ∅ um in
  sorted_keys tagvset.

(** The loop of [FilteredTagValuesByMetricTagKey] over the filter [tsf],
    for one series: the final value of [match]. *)
Definition filter_match (mts : MetricTagSet) (tsf : gmap string string) : bool :=
  range_map (fun (ok : bool) tpk tpv =>
               match mtsTags mts !! tpk with
               | Some v => if negb (String.eqb v tpv) then false else ok
               | None => false
               end) true tsf.

(** [func (s *Search) FilteredTagValuesByMetricTagKey(Metric, Tagk string,
    tsf map[string]string) []string]. *)
Definition FilteredTagValuesByMetricTagKey (s : Search) (metric tagk : string)
    (tsf : gmap string string) : option (list string) :=
  let tagvset :=
    range_map (fun (set : gmap string bool) (_ : string) mts =>
                 if String.eqb metric (mtsMetric mts) then
                   match mtsTags mts !! tagk with
                   | Some tagv =>
                       if filter_match mts tsf then <[tagv := true]> set
                       else set
                   | None => set
                   end
                 else set)
              ∅ (rMetricTags (read s)) in
  sorted_keys tagvset.

End search.

(** ** Package [search]: the tables as references

    A Go map is a reference to a map object: two tables that hold the
    same reference see each other's writes.  This module keeps the map
    objects of [Index] and [Copy] in a store, addressed by location, so
    that what the live tables and the published snapshot share can be
    stated.  [Last] and the data points are as in [search]; the tag set
    inside a [MetricTagSet] is never written by this package and stays
    a value. *)

Module heap.
Import opentsdb.

(** The address of a map object. *)
Abbreviation loc := positive.

(** The map objects, by type; a [qmap] or an [smap] holds references
    to [present] maps. *)
Record Store := {
  presents : gmap loc search.present;
  qmaps : gmap loc (gmap search.duple loc);
  smaps : gmap loc (gmap string loc);
  mtsmaps : gmap loc (gmap string search.MetricTagSet);
}.

(** The four map fields of a [Search] struct; [None] is the nil map. *)
Record Tables := {
  tMetric : option loc;
  tTagk : option loc;
  tTagv : option loc;
  tMetricTags : option loc;
}.

(** The maps of [new(Search)]. *)
Definition nilTables : Tables :=
  {| tMetric := None; tTagk := None; tTagv := None; tMetricTags := None |}.

(** A [*Search]: its own map fields, those of the struct [read] points
    to, and the store the references point into. *)
Record Search := {
  live : Tables;
  read : Tables;
  Last : gmap string search.pair;
  copy : bool;
  mem : Store;
}.

(** [make(map[...]...)], and a new map with the contents [a]. *)
Definition alloc {A : Type} (h : gmap loc A) (a : A) : gmap loc A * loc :=
  let l := fresh (dom h) in (<[l := a]> h, l).

Section Tables.
Context {K : Type} `{Countable K}.

(** [if _, ok := t[q]; !ok { t[q] = make(present) }] and then
    [t[q][x] = struct{}{}], for the table [t]; the write to a nil map
    panics. *)
Definition add (outer : gmap loc (gmap K loc)) (ps : gmap loc search.present)
    (t : option loc) (q : K) (x : string)
  : option (gmap loc (gmap K loc) * gmap loc search.present) :=
  l ← t;
  m ← outer !! l;
  match m !! q with
  | Some p =>
      pr ← ps !! p;
      Some (outer, <[p := {[x]} ∪ pr]> ps)
  | None =>
      let '(ps, p) := alloc ps ∅ in
      Some (<[l := <[q := p]> m]> outer, <[p := {[x]} ∪ ∅]> ps)
  end.

(** What the table [t] holds: a nil map reads as empty. *)
Definition deref (outer : gmap loc (gmap K loc)) (ps : gmap loc search.present)
    (t : option loc) : gmap K search.present :=
  (fun p => default ∅ (ps !! p)) <$> default ∅ (t ≫= (outer !!.)).

(** [func (p present) Copy() present]: a new map with the keys of [p]. *)
Definition present_Copy (ps : gmap loc search.present) (p : loc)
  : gmap loc search.present * loc :=
  alloc ps (search.present_Copy (default ∅ (ps !! p))).

(** [func (q qmap) Copy() qmap] and [func (s smap) Copy() smap]:
    [m := make(...)], and [m[k] = v.Copy()] for each entry. *)
Definition table_Copy (outer : gmap loc (gmap K loc))
    (ps : gmap loc search.present) (t : option loc)
  : gmap loc (gmap K loc) * gmap loc search.present * loc :=
  let '(outer1, l) := alloc outer ∅ in
  let '(m, ps) :=
    foldl (fun (st : gmap K loc * gmap loc search.present) (kv : K * loc) =>
             let '(ps, p) := present_Copy st.2 kv.2 in
             (<[kv.1 := p]> st.1, ps))
          (∅, ps) (map_to_list (default ∅ (t ≫= (outer !!.)))) in
  (<[l := m]> outer1, ps, l).

End Tables.

(** [func (t mtsmap) Copy() mtsmap]. *)
Definition mtsmap_Copy (h : gmap loc (gmap string search.MetricTagSet))
    (t : option loc) : gmap loc (gmap string search.MetricTagSet) * loc :=
  alloc h (search.mtsmap_Copy (default ∅ (t ≫= (h !!.)))).

(** [func NewSearch() *Search]. *)
Definition NewSearch : Search :=
  let '(qm, lM) := alloc ∅ ∅ in
  let '(sm, lK) := alloc ∅ ∅ in
  let '(qm, lV) := alloc qm ∅ in
  let '(mm, lT) := alloc ∅ ∅ in
  {| live := {| tMetric := Some lM; tTagk := Some lK; tTagv := Some lV;
                tMetricTags := Some lT |};
     read := nilTables;
     Last := ∅;
     copy := false;
     mem := {| presents := ∅; qmaps := qm; smaps := sm; mtsmaps := mm |} |}.

(** [func (s *Search) Copy()]. *)
Definition Copy (s : Search) : Search :=
  let st := mem s in
  let '(qm, ps, rM) := table_Copy (qmaps st) (presents st) (tMetric (live s)) in
  let '(sm, ps, rK) := table_Copy (smaps st) ps (tTagk (live s)) in
  let '(qm, ps, rV) := table_Copy qm ps (tTagv (live s)) in
  let '(mm, rT) := mtsmap_Copy (mtsmaps st) (tMetricTags (live s)) in
  {| live := live s;
     read := {| tMetric := Some rM; tTagk := Some rK; tTagv := Some rV;
                tMetricTags := Some rT |};
     Last := Last s;
     copy := copy s;
     mem := {| presents := ps; qmaps := qm; smaps := sm; mtsmaps := mm |} |}.

(** [s.copy = b]. *)
Definition set_copy (s : Search) (b : bool) : Search :=
  {| live := live s; read := read s; Last := Last s; copy := b; mem := mem s |}.

(** The body of the goroutine that [Index] starts. *)
Definition publish (s : Search) : Search := set_copy (Copy s) false.

(** One turn of the loop over [dp.Tags]. *)
Definition index_tag (metric : string) (t : Tables) (st : Store)
    (k v : string) : option Store :=
  '(qm, ps) ← add (qmaps st) (presents st) (tMetric t) (k, v) metric;
  '(sm, ps) ← add (smaps st) ps (tTagk t) metric k;
  '(qm, ps) ← add qm ps (tTagv t) (metric, k) v;
  Some {| presents := ps; qmaps := qm; smaps := sm; mtsmaps := mtsmaps st |}.

(** The registry and table updates for one point; [s.MetricTags[key] =
    mts] panics on a nil map. *)
Definition index_tables (t : Tables) (st : Store) (dp : DataPoint)
  : option Store :=
  let mts := search.series dp in
  l ← tMetricTags t;
  m ← mtsmaps st !! l;
  let st := {| presents := presents st; qmaps := qmaps st; smaps := smaps st;
               mtsmaps := <[l := <[search.key mts := mts]> m]> (mtsmaps st) |} in
  search.range_map
    (fun (ost : option Store) (k v : string) =>
       st ← ost; index_tag (opentsdb.Metric dp) t st k v)
    (Some st) (Tags dp).

(** The body of the loop of [Index] over the batch. *)
Definition Index_point (s : Search) (dp : DataPoint) : option Search :=
  st ← index_tables (live s) (mem s) dp;
  l ← search.index_last (Last s) dp;
  Some {| live := live s; read := read s; Last := l; copy := copy s;
          mem := st |}.

(** [func (s *Search) Index(mdp opentsdb.MultiDataPoint)]. *)
Definition Index (s : Search) (mdp : list DataPoint) : option Search :=
  let s := if negb (copy s) then set_copy s true else s in
  foldl (fun os dp => s ← os; Index_point s dp) (Some s) mdp.

(** What the tables [t] hold in the store [st]. *)
Definition view (st : Store) (t : Tables) : search.Replica :=
  {| search.rMetric := deref (qmaps st) (presents st) (tMetric t);
     search.rTagk := deref (smaps st) (presents st) (tTagk t);
     search.rTagv := deref (qmaps st) (presents st) (tTagv t);
     search.rMetricTags := default ∅ (tMetricTags t ≫= (mtsmaps st !!.)) |}.

(** The state with every reference replaced by what it points to: the
    state of [search]. *)
Definition contents (s : Search) : search.Search :=
  let t := view (mem s) (live s) in
  {| search.Metric := search.rMetric t; search.Tagk := search.rTagk t;
     search.Tagv := search.rTagv t; search.MetricTags := search.rMetricTags t;
     search.Last := Last s;
     search.read := view (mem s) (read s);
     search.copy := copy s |}.

End heap.

(** ** Package [expr]: alert keys *)

Module expr.
Import opentsdb.

(** [type AlertKey string]: [Matches] compares an alert key with the
    untyped constant [""], so its underlying type is a string. *)
Abbreviation AlertKey := string.

(** The text before and after the first occurrence of [c]. *)
Fixpoint cut (s : string) (c : ascii) : option (string * string) :=
  match s with
  | EmptyString => None
  | String d s' =>
      if Ascii.eqb d c then Some (EmptyString, s')
      else '(a, b) ← cut s' c; Some (String d a, b)
  end.

(** [s] without its last character, when that character is [c]. *)
Fixpoint strip_last (s : string) (c : ascii) : option string :=
  match s with
  | EmptyString => None
  | String d EmptyString => if Ascii.eqb d c then Some EmptyString else None
  | String d s' => String d <$> strip_last s' c
  end.

(** Modelled from the spec: the tag list [key=val,key2=val2] of an
    alert key, as a tag set. *)
Definition parse_tags (s : string) : option TagSet :=
  if String.eqb s "" then Some ∅
  else
    foldl (fun ot f => t ← ot; '(k, v) ← cut f "="; Some (<[k := v]> t))
          (Some ∅) (GoStr.Split s ",").

(** Modelled from the spec: the tag set an alert key carries between
    its first [{] and its final [}]. *)
Definition parse_group (a : AlertKey) : option TagSet :=
  '(_, rest) ← cut a "{";
  tags ← strip_last rest "}";
  parse_tags tags.

(** Modelled from the spec: the alert-key type and its parser belong
    to package [expr], which is not among the sources.  The spec gives
    an alert key the form [name{key=pattern,key2=pattern2}] with a name
    accessor and a [Group()] accessor. *)
Definition Name (a : AlertKey) : string :=
  match cut a "{" with
  | Some (n, _) => n
  | None => a
  end.

(** Modelled from the spec: see [Name]. *)
Definition Group (a : AlertKey) : TagSet := default ∅ (parse_group a).

(** Modelled from the spec: see [Name]; it fails with a parse error on
    malformed input. *)
Definition ParseAlertKey (a : string) : result AlertKey :=
  match parse_group a with
  | Some _ => Ok a
  | None => Fail (alertKeyError a)
  end.

End expr.

(** ** Package [sched]: silences *)

Module sched.
Import opentsdb expr.

(** A [time.Time], as the nanoseconds elapsed since the zero instant. *)
Abbreviation Time := Z.

Definition IsZero (t : Time) : bool := (t =? 0)%Z.
Definition Before (t u : Time) : bool := (t <? u)%Z.
Definition After (t u : Time) : bool := (u <? t)%Z.

(** [time.Since(t)] at the instant [now]: a [Duration], which
    saturates at the ends of [int64]. *)
Definition Since (now t : Time) : Z :=
  Z.max (- 2 ^ 63) (Z.min (2 ^ 63 - 1) (now - t)).

(** [type Silence struct { Start, End time.Time; Alert expr.AlertKey }];
    [End] is written [End_], the word being reserved. *)
Record Silence := {
  Start : Time;
  End_ : Time;
  Alert : AlertKey;
}.

(** Modelled from the spec: the status of an alert is kept by the
    Schedule, outside the sources; the engine only asks whether it is
    active. *)
Record State := {
  IsActive : bool;
}.

(** The part of [Schedule] the silence engine touches: the rules
    ([s.Silence], written [Silence_]), the alert states, and what the
    last [Save] wrote. *)
Record Schedule := {
  Silence_ : gmap string Silence;
  status : gmap AlertKey State;
  persisted : gmap string Silence;
}.

(** Modelled from the spec: [Schedule.Save] is not among the sources;
    the spec has it durably persist the rule mapping. *)
Definition Save (s : Schedule) : Schedule :=
  {| Silence_ := Silence_ s; status := status s; persisted := Silence_ s |}.

(** Modelled from the spec: the [Match(pattern, tagv)] that [Matches]
    calls is not among the sources.  The spec has [Matches] use the
    Pattern Matcher of the index, shared verbatim: the value satisfies
    the pattern when [search.Match] keeps it. *)
Definition Match (pattern tagv : string) : bool * option error :=
  match search.Match pattern [tagv] with
  | Ok l => (negb (length l =? 0)%nat, None)
  | Fail err => (false, Some err)
  end.

(** [func (s *Silence) Matches(alert expr.AlertKey) bool]. *)
Definition Matches (s : Silence) (alert : AlertKey) : bool :=
  if negb (String.eqb (Alert s) "") && negb (String.eqb (Alert s) alert)
  then false
  else
    let tags := Group alert in
    search.range_map
      (fun (ret : bool) (k pattern : string) =>
         if ret then
           match tags !! k with
           | None => false
           | Some tagv => (Match pattern tagv).1
           end
         else false)
      true (Group (Alert s)).

(** [func (s *Silence) Silenced(now time.Time, alert expr.AlertKey) bool];
    the line it prints is left out. *)
Definition Silenced (s : Silence) (now : Time) (alert : AlertKey) : bool :=
  if Before now (Start s) || After now (End_ s) then false
  else Matches s alert.

Definition errStartEnd : error :=
  errorString "both start and end must be specified".
Definition errOrder : error :=
  errorString "start time must be before end time".
Definition errPast : error :=
  errorString "end time must be in the future".
Definition errEmpty : error :=
  errorString "must specify either alert or tags".

Section Hash.
(** The hexadecimal SHA-1 digest and the [%s] form of a time are
    left open. *)
Variable sha1_hex : string -> string.
Variable Time_String : Time -> string.

(** [func (s Silence) ID() string]. *)
Definition ID (s : Silence) : string :=
  sha1_hex (Time_String (Start s) +:+ "|" +:+ Time_String (End_ s)
            +:+ "|" +:+ Alert s).

(** [func (s *Schedule) AddSilence(start, end time.Time, alert,
    tagList string, confirm bool, edit string)
    (map[expr.AlertKey]bool, error)], called at the instant [now]:
    the schedule as the call leaves it, the preview map ([None] is
    nil) and the error ([None] is nil). *)
Definition AddSilence (now : Time) (s : Schedule) (start end_ : Time)
    (alert tagList : string) (confirm : bool) (edit : string)
  : Schedule * (option (gmap AlertKey bool) * option error) :=
  if IsZero start || IsZero end_ then (s, (None, Some errStartEnd))
  else if After start end_ then (s, (None, Some errOrder))
  else if (Since now end_ >? 0)%Z then (s, (None, Some errPast))
  else if String.eqb alert "" && String.eqb tagList ""
  then (s, (None, Some errEmpty))
  else
    match ParseAlertKey (alert +:+ "{" +:+ tagList +:+ "}") with
    | Fail err => (s, (None, Some err))
    | Ok ak =>
        let si := {| Start := start; End_ := end_; Alert := ak |} in
        if confirm then
          let rules := <[ID si := si]> (delete edit (Silence_ s)) in
          (Save {| Silence_ := rules; status := status s;
                   persisted := persisted s |}, (None, None))
        else
          let aks :=
            search.range_map
              (fun (aks : gmap AlertKey bool) (ak : AlertKey) (st : State) =>
                 if Matches si ak then <[ak := IsActive st]> aks else aks)
              ∅ (status s) in
          (s, (Some aks, None))
    end.

End Hash.

(** [func (s *Schedule) ClearSilence(id string) error]. *)
Definition ClearSilence (s : Schedule) (id : string)
  : Schedule * option error :=
  (Save {| Silence_ := delete id (Silence_ s); status := status s;
           persisted := persisted s |}, None).

(** [func (s *Schedule) Silenced() map[expr.AlertKey]time.Time], called
    at the instant [now]; [aks[ak]] of an absent key is the zero time. *)
Definition Schedule_Silenced (now : Time) (s : Schedule) : gmap AlertKey Time :=
  search.range_map
    (fun (aks : gmap AlertKey Time) (ak : AlertKey) (_ : State) =>
       search.range_map
         (fun (aks : gmap AlertKey Time) (_ : string) (si : Silence) =>
            if Silenced si now ak then
              if Before (default 0%Z (aks !! ak)) (End_ si)
              then <[ak := End_ si]> aks
              else aks
            else aks)
         aks (Silence_ s))
    ∅ (status s).

End sched.

(** * Specification

    The readings of the spec that the properties compare the code with,
    the data of the concrete runs, and auxiliary functions of the
    proofs. *)

Import opentsdb search.

(** A point of the series [cpu{host=a}]. *)
Definition pt (t : Z) (v : float) : DataPoint :=
  {| opentsdb.Metric := "cpu"; Timestamp := t; Value := VFloat64 v;
     Tags := {[ "host" := "a" ]} |}.

(** The slot [GetLast] reads as the most recent point, and the other
    one, for a non-negative [index]. *)
Definition newer (p : pair) : DataPoint :=
  if Z.even (index p) then (points p).2 else (points p).1.

Definition older (p : pair) : DataPoint :=
  if Z.even (index p) then (points p).1 else (points p).2.

Definition is_float64 (v : dynamic) : bool := (as_float64 v).2.

Definition set_registry (t : Replica) (r : gmap string MetricTagSet) : Replica :=
  {| rMetric := rMetric t; rTagk := rTagk t; rTagv := rTagv t;
     rMetricTags := r |}.

(** A slot holds the placeholder or a point with a positive time. *)
Definition slot_ok (dp : DataPoint) : Prop :=
  dp = zeroDataPoint \/ (0 < Timestamp dp)%Z.

Definition pairs_ok (l : gmap string pair) : Prop :=
  forall k p, l !! k = Some p -> slot_ok (points p).1 /\ slot_ok (points p).2.

(** The pairs after a batch: [Index] threads [index_last] through it. *)
Definition last_batch (l : gmap string pair) (mdp : list DataPoint)
  : option (gmap string pair) :=
  foldl (fun ol dp => l ← ol; index_last l dp) (Some l) mdp.

(** The state after one point of [cpu{host=a}], at time 1 with value 1. *)
Definition one_point : Search := default NewSearch (Index NewSearch [pt 1 1]).

(** The state after three points in order of time, and after a fourth
    whose time lies between the last two. *)
Definition three_points : Search :=
  default NewSearch (Index NewSearch [pt 1 1; pt 2 2; pt 10 3]).

Definition late_point : Search := default NewSearch (Index three_points [pt 5 7]).

(** The state after the same point twice. *)
Definition same_point_twice : Search := default NewSearch (Index one_point [pt 1 1]).

(** C5 as the spec states it: with either [diff], a non-numeric stored
    value gives the not-numeric error and a placeholder slot gives the
    insufficient-data error. *)
Definition GetLast_fails_as_stated : Prop :=
  forall s metric tags diff p,
    Last s !! (metric +:+ tags) = Some p ->
    (0 <= index p < 2 ^ 63)%Z ->
    ((is_float64 (Value (points p).1) = false
      \/ is_float64 (Value (points p).2) = false) ->
     exists v, GetLast s metric tags diff = Some (v, Some errNotFloat))
    /\ ((points p).1 = zeroDataPoint \/ (points p).2 = zeroDataPoint ->
        exists v, GetLast s metric tags diff = Some (v, Some errNeedTwo)).

(** The glob of the spec.  A pattern character other than [*] stands
    for itself (so [.] is literal); [*] stands for zero or more
    characters that [any] admits; the whole candidate must be used up. *)
Inductive glob_on (any : ascii -> bool) : string -> string -> Prop :=
  | glob_end : glob_on any "" ""
  | glob_lit c p s :
      c <> "*"%char -> glob_on any p s -> glob_on any (String c p) (String c s)
  | glob_skip p s :
      glob_on any p s -> glob_on any (String "*" p) s
  | glob_more c p s :
      any c = true -> glob_on any (String "*" p) s ->
      glob_on any (String "*" p) (String c s).

(** [*] as zero or more of any character, the reading of the spec. *)
Definition glob : string -> string -> Prop := glob_on (fun _ => true).

Definition not_newline (c : ascii) : bool := negb (Ascii.eqb c "010").

(** [*] as zero or more characters other than a line feed. *)
Definition glob_line : string -> string -> Prop := glob_on not_newline.

(** The same as a function, to run it. *)
Fixpoint skip (k : string -> bool) (any : ascii -> bool) (s : string) : bool :=
  k s ||
  match s with
  | EmptyString => false
  | String d s' => any d && skip k any s'
  end.

Fixpoint globb (any : ascii -> bool) (p s : string) : bool :=
  match p with
  | EmptyString => GoRegexp.is_empty s
  | String c p' =>
      if Ascii.eqb c "*" then skip (globb any p') any s
      else match s with
           | EmptyString => false
           | String d s' => Ascii.eqb c d && globb any p' s'
           end
  end.

Fixpoint string_forall (P : ascii -> bool) (s : string) : bool :=
  match s with
  | EmptyString => true
  | String c s' => P c && string_forall P s'
  end.

(** A pattern character that the translation of [Match] leaves with its
    glob meaning: [.], [*], or an ASCII character that is not one of the
    regexp metacharacters [\ + ? ^ $ ( ) | [ {]. *)
Definition plain (c : ascii) : bool :=
  Ascii.eqb c "." || Ascii.eqb c "*"
  || negb (Ascii.eqb c "\" || Ascii.eqb c "+" || Ascii.eqb c "?"
           || Ascii.eqb c "^" || Ascii.eqb c "$" || GoRegexp.unmodelled c).

Definition plain_pattern (p : string) : bool := string_forall plain p.

(** What the two replacements of [Match] do to one pattern character. *)
Definition tr_char (c : ascii) : string :=
  if Ascii.eqb c "." then "\."
  else if Ascii.eqb c "*" then ".*"
  else String c "".

Fixpoint tr (p : string) : string :=
  match p with
  | EmptyString => EmptyString
  | String c p' => tr_char c +:+ tr p'
  end.

(** The item a plain pattern character compiles to. *)
Definition glob_item (c : ascii) : GoRegexp.item :=
  if Ascii.eqb c "*" then (GoRegexp.AAnyNotNL, GoRegexp.Star)
  else (GoRegexp.ALit c, GoRegexp.One).

Fixpoint glob_items (p : string) : GoRegexp.Regexp :=
  match p with
  | EmptyString => []
  | String c p' => glob_item c :: glob_items p'
  end.

(** Replacing a one-character [old] works character by character. *)
Fixpoint replace_char (o : ascii) (new s : string) : string :=
  match s with
  | EmptyString => EmptyString
  | String c s' =>
      if Ascii.eqb o c then new +:+ replace_char o new s'
      else String c (replace_char o new s')
  end.

(** An alternative that [Expand] replaces: it contains [*] and is not
    the bare [*]. *)
Definition is_wildcard (v : string) : bool :=
  negb (String.eqb v "*") && GoStr.Contains v "*".

(** The values of the alternatives in order, up to the first error. *)
Fixpoint collect_values (f : string -> result (list string))
    (alts : list string) : result (list string) :=
  match alts with
  | [] => Ok []
  | a :: alts' =>
      match f a with
      | Fail e => Fail e
      | Ok vs =>
          match collect_values f alts' with
          | Fail e => Fail e
          | Ok ws => Ok (vs ++ ws)
          end
      end
  end.

Definition errNoTags (k ov : string) : error :=
  errorString ("expr: no tags matching " +:+ k +:+ "=" +:+ ov).

(** The readings of the matcher and of the expansion, over the same
    libraries as the code. *)
Section LibrarySpec.
Context {Regexp : Type}.
Variable Compile : string -> result Regexp.
Variable MatchString : Regexp -> string -> bool.
Variable TrimSpace : string -> string.

(** Whether the matcher keeps the candidate [v] when it is the only
    one. *)
Definition keeps (pattern v : string) : bool :=
  match Match_with Compile MatchString pattern [v] with
  | Ok (_ :: _) => true
  | _ => false
  end.

(** The values one alternative stands for: its matches among the
    published tag values when it is a wildcard, itself otherwise. *)
Definition alt_values (s : Search) (metric k alt : string)
  : result (list string) :=
  let v := TrimSpace alt in
  if is_wildcard v
  then Match_with Compile MatchString v (TagValuesByMetricTagKey s metric k)
  else Ok [v].

(** All the values a tag value of the query stands for. *)
Definition tag_values (s : Search) (metric k ov : string)
  : result (list string) :=
  collect_values (alt_values s metric k) (GoStr.Split ov "|").

(** The tag value [Expand] writes back, when it writes one. *)
Definition expanded (s : Search) (metric k ov : string) : string :=
  match tag_values s metric k ov with
  | Ok nvs => GoStr.Join nvs "|"
  | Fail _ => ov
  end.

(** C3 as the spec states it: one wildcard alternative without a match
    makes the whole call fail. *)
Definition Expand_fails_as_stated : Prop :=
  forall s q k ov alt,
    qTags q !! k = Some ov ->
    alt ∈ GoStr.Split ov "|" ->
    is_wildcard (TrimSpace alt) = true ->
    alt_values s (qMetric q) k alt = Ok [] ->
    exists err, (Expand Compile MatchString TrimSpace s q).2 = Some err.

End LibrarySpec.

(** The query [cpu{host=web*|db}] against an index whose only published
    value of [host] is [a]. *)
Definition published_one : Search := publish one_point.

Definition query_web_or_db : Query :=
  {| qMetric := "cpu"; qTags := {[ "host" := "web*|db" ]} |}.

(** The matching rule of the spec: the rule's alert-name pattern is
    empty or is the name of the alert, and every tag key of the rule's
    pattern is present in the alert with a value the pattern matcher
    accepts. *)
Definition Matches_spec (s : sched.Silence) (alert : expr.AlertKey) : Prop :=
  (expr.Name (sched.Alert s) = "" \/ expr.Name (sched.Alert s) = expr.Name alert)
  /\ forall k pattern,
       expr.Group (sched.Alert s) !! k = Some pattern ->
       exists tagv, expr.Group alert !! k = Some tagv
                    /\ (sched.Match pattern tagv).1 = true.

(** The rule that [AddSilence] builds from an empty alert name and the
    tag list [host=web*]. *)
Definition silence_web : sched.Silence :=
  {| sched.Start := 100; sched.End_ := 200; sched.Alert := "{host=web*}" |}.

(** A schedule without rules. *)
Definition no_rules : sched.Schedule :=
  {| sched.Silence_ := ∅; sched.status := ∅; sched.persisted := ∅ |}.

(** [s] has no occurrence of [c]. *)
Definition lacks (c : ascii) (s : string) : bool :=
  string_forall (fun d => negb (Ascii.eqb d c)) s.

(** The strings of a series keep clear of the delimiters of its key:
    no [{] in the metric, no [=] in a tag key, no [,] in a tag value. *)
Definition delimiter_free (mts : MetricTagSet) : Prop :=
  lacks "{" (mtsMetric mts) = true
  /\ forall k v, mtsTags mts !! k = Some v ->
                 lacks "=" k = true /\ lacks "," v = true.

(** Two points of the metric [m] whose tag sets differ and whose keys
    coincide. *)
Definition comma_in_value : DataPoint :=
  {| opentsdb.Metric := "m"; Timestamp := 1; Value := VFloat64 1;
     Tags := {[ "a" := "1,b=2" ]} |}.

Definition two_tags : DataPoint :=
  {| opentsdb.Metric := "m"; Timestamp := 1; Value := VFloat64 1;
     Tags := {[ "a" := "1"; "b" := "2" ]} |}.

(** Two points whose metrics differ and whose keys coincide. *)
Definition brace_in_metric : DataPoint :=
  {| opentsdb.Metric := "m{a=1}"; Timestamp := 1; Value := VFloat64 1;
     Tags := ∅ |}.

Definition brace_in_value : DataPoint :=
  {| opentsdb.Metric := "m"; Timestamp := 1; Value := VFloat64 1;
     Tags := {[ "a" := "1}{" ]} |}.

(** What follows the first element in a joined list. *)
Definition join_tail (l : list string) : string :=
  match l with
  | [] => ""
  | _ => String "," (GoStr.Join l ",")
  end.

Definition pair_ok (kv : string * string) : Prop :=
  lacks "=" kv.1 = true /\ lacks "," kv.2 = true.

(** A point of the series [metric] with tag set [tags]. *)
Definition point_of (metric : string) (tags : TagSet) (t : Z) (v : float)
  : DataPoint :=
  {| opentsdb.Metric := metric; Timestamp := t; Value := VFloat64 v;
     Tags := tags |}.

(** [x] is in the set that the table [m] holds for [q]; a key without
    an entry holds nothing. *)
Definition has {K} `{Countable K} (m : gmap K (gset string)) (q : K)
    (x : string) : Prop :=
  x ∈ default ∅ (m !! q).

(** No table entry is an empty set. *)
Definition no_empty {K} `{Countable K} (m : gmap K (gset string)) : Prop :=
  forall q X, m !! q = Some X -> X <> ∅.

(** The cross-reference tables agree with each other and with the
    registry: a metric is listed under a tag pair exactly when the value
    is listed under the metric and the key, a key is listed under a
    metric exactly when it has a value there, and every tag of a
    registered series is in the tables. *)
Record tables_ok (t : Replica) : Prop := {
  ok_pairs : forall m k v, has (rTagv t) (m, k) v <-> has (rMetric t) (k, v) m;
  ok_keys : forall m k, has (rTagk t) m k <-> exists v, has (rTagv t) (m, k) v;
  ok_registry : forall id mts k v,
    rMetricTags t !! id = Some mts -> mtsTags mts !! k = Some v ->
    has (rTagv t) (mtsMetric mts, k) v;
  ok_Metric : no_empty (rMetric t);
  ok_Tagk : no_empty (rTagk t);
  ok_Tagv : no_empty (rTagv t);
}.

(** Everything in the tables of [t1] is in the tables of [t2]. *)
Record tables_le (t1 t2 : Replica) : Prop := {
  le_Metric : forall q x, has (rMetric t1) q x -> has (rMetric t2) q x;
  le_Tagk : forall q x, has (rTagk t1) q x -> has (rTagk t2) q x;
  le_Tagv : forall q x, has (rTagv t1) q x -> has (rTagv t2) q x;
  le_registry : forall id, is_Some (rMetricTags t1 !! id) ->
                           is_Some (rMetricTags t2 !! id);
}.

(** The states of the index that [NewSearch], [Index] and the publishing
    goroutine can produce. *)
Inductive reachable : Search -> Prop :=
  | reach_new : reachable NewSearch
  | reach_index s mdp s' :
      reachable s -> Index s mdp = Some s' -> reachable s'
  | reach_publish s : reachable s -> reachable (publish s).

(** The counters of all pairs are within [0, n]. *)
Definition indices_le (n : Z) (l : gmap string pair) : Prop :=
  forall k p, l !! k = Some p -> (0 <= index p <= n)%Z.

(** A slot of the pair stored under [k] holds the placeholder or a
    point of the series [k] with a positive time. *)
Definition slot_of (k : string) (dp : DataPoint) : Prop :=
  dp = zeroDataPoint \/ ((0 < Timestamp dp)%Z /\ key (series dp) = k).

Definition cache_ok (l : gmap string pair) : Prop :=
  forall k p, l !! k = Some p -> slot_of k (points p).1 /\ slot_of k (points p).2.

(** The test of [Index] lets the point into the cache [l]: its series is
    new and its time positive, or its time is later than that of the
    slot to be overwritten. *)
Definition accepted (l : gmap string pair) (dp : DataPoint) : Prop :=
  match l !! key (series dp) with
  | None => (0 < Timestamp dp)%Z
  | Some p => (0 <= index p < 2 ^ 63 - 1)%Z
              /\ (Timestamp (older p) < Timestamp dp)%Z
  end.

(** The points of [l] belong to one series and come in strictly
    increasing order of time. *)
Definition in_order (metric : string) (tags : TagSet) (l : list DataPoint) : Prop :=
  Forall (fun dp => opentsdb.Metric dp = metric /\ Tags dp = tags) l
  /\ StronglySorted (fun a b => (Timestamp a < Timestamp b)%Z) l.

(** The last two of the points [a], [b] followed by [l]. *)
Fixpoint last2 (a b : DataPoint) (l : list DataPoint) : DataPoint * DataPoint :=
  match l with
  | [] => (a, b)
  | x :: l' => last2 b x l'
  end.

(** A query whose only tag value has blanks around its alternatives
    and no wildcard. *)
Definition query_trimmed : Query :=
  {| qMetric := "cpu"; qTags := {[ "host" := " a | * " ]} |}.

(** What the inner loop of [Schedule.Silenced] leaves under [ak]:
    the entry [cur] after the rules [l] have each been tried. *)
Definition best (now : sched.Time) (ak : expr.AlertKey)
    (cur : option sched.Time) (l : list (string * sched.Silence))
  : option sched.Time :=
  foldl (fun (o : option sched.Time) (kv : string * sched.Silence) =>
           if sched.Silenced kv.2 now ak then
             if sched.Before (default 0%Z o) (sched.End_ kv.2)
             then Some (sched.End_ kv.2) else o
           else o)
        cur l.

(** A batch with two metrics, and the state after ingesting and
    publishing it, for the concrete runs. *)
Definition two_batch : list DataPoint :=
  [pt 1 1;
   {| opentsdb.Metric := "mem"; Timestamp := 2;
      Value := VFloat64 2; Tags := {[ "host" := "b" ]} |}].

Definition two_ingested : Search := default NewSearch (Index NewSearch two_batch).

Definition two_metrics : Search := publish two_ingested.

(** ** The tables as references: what the snapshot shares

    The readings below are over the store of [heap]. *)







(** Not the code: a publish that stores the references of the live
    tables instead of copies ([r.Metric = s.Metric] and so on), to
    compare with [Copy]. *)
Definition share (s : heap.Search) : heap.Search :=
  {| heap.live := heap.live s; heap.read := heap.live s;
     heap.Last := heap.Last s; heap.copy := false; heap.mem := heap.mem s |}.

(** Not the code: a publish that copies the tables but not the
    [present] maps in them ([m[k] = v] for [m[k] = v.Copy()]), to
    compare with [Copy]. *)
Definition share_presents (s : heap.Search) : heap.Search :=
  let st := heap.mem s in
  let t := heap.live s in
  let '(qm, rM) :=
    heap.alloc (heap.qmaps st) (default ∅ (heap.tMetric t ≫= (heap.qmaps st !!.))) in
  let '(sm, rK) :=
    heap.alloc (heap.smaps st) (default ∅ (heap.tTagk t ≫= (heap.smaps st !!.))) in
  let '(qm, rV) := heap.alloc qm (default ∅ (heap.tTagv t ≫= (qm !!.))) in
  let '(mm, rT) := heap.mtsmap_Copy (heap.mtsmaps st) (heap.tMetricTags t) in
  {| heap.live := t;
     heap.read := {| heap.tMetric := Some rM; heap.tTagk := Some rK;
                     heap.tTagv := Some rV; heap.tMetricTags := Some rT |};
     heap.Last := heap.Last s; heap.copy := false;
     heap.mem := {| heap.presents := heap.presents st; heap.qmaps := qm;
                    heap.smaps := sm; heap.mtsmaps := mm |} |}.

(** One point ingested and then published that way, and a point of
    another metric with the same tag pair. *)
Definition shared_presents_one : heap.Search :=
  share_presents (default heap.NewSearch (heap.Index heap.NewSearch [pt 1 1])).

Definition mem_on_a : DataPoint :=
  {| opentsdb.Metric := "mem"; Timestamp := 2; Value := VFloat64 2;
     Tags := {[ "host" := "a" ]} |}.



(** * Properties *)

(** ** The tables of the index *)

Section Tables.
Context {K : Type} {EqK : EqDecision K} {CountK : Countable K}.
Implicit Types (m : gmap K present) (q : K) (x : string).

Lemma present_add_insert m q x :
  present_add m q x = <[q := {[x]} ∪ default ∅ (m !! q)]> m.
Proof.
  unfold present_add. destruct (m !! q) as [old|] eqn:Hq.
  - by rewrite Hq.
  - rewrite lookup_insert_eq. simpl. by rewrite insert_insert_eq.
Qed.

Lemma present_add_lookup m q x q' :
  present_add m q x !! q' =
    if decide (q = q') then Some ({[x]} ∪ default ∅ (m !! q)) else m !! q'.
Proof.
  rewrite present_add_insert. case_decide as Hq.
  - subst. apply lookup_insert_eq.
  - by apply lookup_insert_ne.
Qed.

Lemma present_add_comm m q1 x1 q2 x2 :
  present_add (present_add m q1 x1) q2 x2
  = present_add (present_add m q2 x2) q1 x1.
Proof.
  apply map_eq. intros q. rewrite !present_add_lookup.
  destruct (decide (q1 = q)) as [->|], (decide (q2 = q)) as [->|];
    rewrite ?decide_True, ?decide_False by done; simpl; try done.
  f_equal. by rewrite !(assoc_L (∪)), (comm_L (∪) {[x2]}).
Qed.

Lemma present_add_idem m q x :
  present_add (present_add m q x) q x = present_add m q x.
Proof.
  apply map_eq. intros q'. rewrite !present_add_lookup.
  destruct (decide (q = q')) as [->|];
    rewrite ?decide_True, ?decide_False by done; simpl; try done.
  f_equal. by rewrite (assoc_L (∪)), (idemp_L (∪)).
Qed.
End Tables.

Lemma index_tag_comm metric t k1 v1 k2 v2 :
  index_tag metric (index_tag metric t k1 v1) k2 v2
  = index_tag metric (index_tag metric t k2 v2) k1 v1.
Proof.
  unfold index_tag. simpl. f_equal; apply present_add_comm.
Qed.

Lemma index_tag_idem metric t k v :
  index_tag metric (index_tag metric t k v) k v = index_tag metric t k v.
Proof.
  unfold index_tag. simpl. f_equal; apply present_add_idem.
Qed.

(** A loop whose turns commute and repeat harmlessly can be run twice. *)
Lemma foldl_push {S A} (f : S -> A -> S) (l : list A) :
  (forall s a b, f (f s a) b = f (f s b) a) ->
  forall s a, foldl f (f s a) l = f (foldl f s l) a.
Proof.
  intros Hc. induction l as [|b l IH]; intros s a; simpl; [done|].
  by rewrite Hc, IH.
Qed.

Lemma foldl_twice {S A} (f : S -> A -> S) (l : list A) :
  (forall s a b, f (f s a) b = f (f s b) a) ->
  (forall s a, f (f s a) a = f s a) ->
  forall s, foldl f (foldl f s l) l = foldl f s l.
Proof.
  intros Hc Hi. induction l as [|a l IH]; intros s; simpl; [done|].
  rewrite (foldl_push f l Hc (foldl f (f s a) l) a), IH.
  by rewrite (foldl_push f l Hc s a), Hi.
Qed.

Lemma range_index_tag_registry metric t r (tags : TagSet) :
  range_map (index_tag metric) (set_registry t r) tags
  = set_registry (range_map (index_tag metric) t tags) r.
Proof.
  unfold range_map. generalize (map_to_list tags). intros l. revert t.
  induction l as [|kv l IH]; intros t; simpl; [done|].
  by rewrite <- IH.
Qed.

Lemma range_index_tag_keeps_registry metric t (tags : TagSet) :
  rMetricTags (range_map (index_tag metric) t tags) = rMetricTags t.
Proof.
  unfold range_map. generalize (map_to_list tags). intros l. revert t.
  induction l as [|kv l IH]; intros t; simpl; [done|].
  by rewrite IH.
Qed.

(** Indexing the tables with a point they already hold changes nothing. *)
Lemma index_tables_idempotent t dp :
  index_tables (index_tables t dp) dp = index_tables t dp.
Proof.
  unfold index_tables.
  set (mts := series dp).
  change {| rMetric := rMetric t; rTagk := rTagk t; rTagv := rTagv t;
            rMetricTags := <[key mts:=mts]> (rMetricTags t) |}
    with (set_registry t (<[key mts:=mts]> (rMetricTags t))).
  set (t1 := range_map _ (set_registry t _) _).
  change {| rMetric := rMetric t1; rTagk := rTagk t1; rTagv := rTagv t1;
            rMetricTags := <[key mts:=mts]> (rMetricTags t1) |}
    with (set_registry t1 (<[key mts:=mts]> (rMetricTags t1))).
  rewrite range_index_tag_registry.
  assert (Hreg : <[key mts:=mts]> (rMetricTags t1) = rMetricTags t1).
  { unfold t1. rewrite range_index_tag_keeps_registry. simpl.
    apply insert_insert_eq. }
  rewrite Hreg.
  assert (Hrun : range_map (index_tag (opentsdb.Metric dp)) t1 (Tags dp) = t1).
  { unfold t1, range_map. apply foldl_twice.
    - intros s a b. apply index_tag_comm.
    - intros s a. apply index_tag_idem. }
  rewrite Hrun. by destruct t1.
Qed.

Lemma Index_point_live s dp s' :
  Index_point s dp = Some s' -> live s' = index_tables (live s) dp.
Proof.
  unfold Index_point. intros Hs.
  destruct (index_last (Last s) dp) as [l|]; simplify_eq/=.
  unfold live. simpl. by destruct (index_tables _ dp).
Qed.

Lemma Index_one s dp s' :
  Index s [dp] = Some s' -> live s' = index_tables (live s) dp.
Proof.
  unfold Index. simpl. intros Hs. apply Index_point_live in Hs.
  rewrite Hs. by destruct (copy s).
Qed.

(** Ingesting a point a second time leaves the three cross-reference
    tables and the series registry as the first ingestion left them. *)
Lemma Index_twice_tables s dp s1 s2 :
  Index s [dp] = Some s1 -> Index s1 [dp] = Some s2 -> live s2 = live s1.
Proof.
  intros H1 H2. apply Index_one in H1, H2.
  rewrite H2, H1. apply index_tables_idempotent.
Qed.

(** ** The last-two-points cache *)

(** The slots [GetLast] reads, for an index that is a non-negative [int]. *)
Lemma points_get_newer p :
  (0 <= index p < 2 ^ 63)%Z ->
  points_get p (Z.rem (wrap64 (index p + 1)) 2) = Some (newer p).
Proof.
  intros Hi. unfold points_get, newer, wrap64.
  assert (Hw : (((index p + 1 + 2 ^ 63) mod 2 ^ 64 - 2 ^ 63 = index p + 1
                 /\ 0 <= index p + 1)
                \/ ((index p + 1 + 2 ^ 63) mod 2 ^ 64 - 2 ^ 63 = - 2 ^ 63
                    /\ index p = 2 ^ 63 - 1))%Z).
  { destruct (decide (index p = 2 ^ 63 - 1)%Z) as [He|Hne].
    - right. rewrite He. split; [reflexivity|reflexivity].
    - left. rewrite Z.mod_small by lia. lia. }
  destruct Hw as [[-> Hnn]| [-> He]].
  - rewrite Z.rem_mod_nonneg by lia.
    rewrite <- Z.negb_odd, <- Z.even_succ, Zeven_mod.
    change (Z.succ (index p)) with (index p + 1)%Z.
    pose proof (Z.mod_pos_bound (index p + 1) 2 eq_refl) as Hb.
    destruct (decide ((index p + 1) mod 2 = 0)%Z) as [->|Hne]; [done|].
    replace ((index p + 1) mod 2)%Z with 1%Z by lia. done.
  - rewrite He. reflexivity.
Qed.

Lemma points_get_older p :
  (0 <= index p)%Z -> points_get p (Z.rem (index p) 2) = Some (older p).
Proof.
  intros Hi. unfold points_get, older.
  rewrite Z.rem_mod_nonneg by lia. rewrite Zeven_mod.
  pose proof (Z.mod_pos_bound (index p) 2 eq_refl) as Hb.
  destruct (decide (index p mod 2 = 0)%Z) as [->|Hne]; [done|].
  replace (index p mod 2)%Z with 1%Z by lia. done.
Qed.

(** What [GetLast] returns for a series that has a pair. *)
Lemma GetLast_known s metric tags diff p :
  Last s !! (metric +:+ tags) = Some p ->
  (0 <= index p < 2 ^ 63)%Z ->
  GetLast s metric tags diff =
    let e := newer p in
    let o := older p in
    let err := if is_float64 (Value e) then None else Some errNotFloat in
    if diff then
      Some (PrimFloat.div
              (PrimFloat.sub (as_float64 (Value e)).1 (as_float64 (Value o)).1)
              (float64_of_int64 (wrap64 (Timestamp e - Timestamp o))),
            if (Timestamp o =? 0)%Z || (Timestamp e =? 0)%Z
            then Some errNeedTwo
            else if is_float64 (Value o) then err else Some errNotFloat)
    else Some ((as_float64 (Value e)).1, err).
Proof.
  intros Hp Hi. unfold GetLast. rewrite Hp.
  rewrite points_get_newer by done. simpl.
  unfold is_float64. destruct (as_float64 (Value (newer p))) as [v ok].
  destruct diff; [|done].
  rewrite points_get_older by lia. simpl.
  by destruct (as_float64 (Value (older p))) as [ov ok'].
Qed.

Lemma foldl_None {A B} (f : A -> B -> option A) (l : list B) :
  foldl (fun oa b => a ← oa; f a b) None l = None.
Proof. by induction l. Qed.

Lemma Index_Last s mdp :
  Last <$> Index s mdp = last_batch (Last s) mdp.
Proof.
  unfold Index, last_batch.
  set (s0 := if negb (copy s) then set_copy s true else s).
  assert (HL : Last s = Last s0) by (unfold s0; by destruct (copy s)).
  rewrite HL. generalize s0. clear s0 HL.
  induction mdp as [|dp mdp IH]; intros s0; simpl; [done|].
  unfold Index_point at 2.
  destruct (index_last (Last s0) dp) as [l|]; simpl.
  - apply (IH {| Metric := _; Last := l |}).
  - by rewrite !foldl_None.
Qed.

(** A point of another series leaves the pair of this one alone. *)
Lemma index_last_other l dp l' k :
  index_last l dp = Some l' ->
  key (series dp) <> k ->
  l' !! k = l !! k.
Proof.
  unfold index_last. intros Hl Hk.
  set (k0 := key _) in *.
  destruct (points_get _ _) as [cur|]; simplify_eq/=.
  destruct (Timestamp cur <? Timestamp dp)%Z.
  - destruct (points_set _ _ _) as [p'|]; simplify_eq/=.
    by rewrite lookup_insert_ne.
  - simplify_eq/=. by rewrite lookup_insert_ne.
Qed.

(** A series no ingested point belongs to has no pair. *)
Lemma Index_never_ingested mdp s k :
  Index NewSearch mdp = Some s ->
  Forall (fun dp =>
            key (series dp) <> k)
         mdp ->
  Last s !! k = None.
Proof.
  intros Hs Hall.
  assert (Hl : last_batch ∅ mdp = Some (Last s)).
  { pose proof (Index_Last NewSearch mdp) as HL. rewrite Hs in HL. done. }
  clear Hs. revert Hl. unfold last_batch.
  assert (Hempty : (∅ : gmap string pair) !! k = None) by apply lookup_empty.
  revert Hempty. generalize (∅ : gmap string pair).
  induction Hall as [|dp mdp Hdp Hall IH]; intros l Hk; simpl.
  - intros [= <-]. done.
  - destruct (index_last l dp) as [l'|] eqn:Hl'; simpl.
    + apply IH. by rewrite (index_last_other _ _ _ _ Hl' Hdp).
    + by rewrite foldl_None.
Qed.

(** The acceptance rule of [Index] for a series that has a pair: the
    incoming point is compared with the slot about to be overwritten,
    which holds the older of the two stored points. *)
Lemma index_last_accepts l dp p :
  let k := key (series dp) in
  l !! k = Some p ->
  (0 <= index p < 2 ^ 63 - 1)%Z ->
  (Timestamp (older p) < Timestamp dp)%Z ->
  exists p', index_last l dp = Some (<[k := p']> l)
             /\ newer p' = dp /\ older p' = newer p
             /\ index p' = (index p + 1)%Z.
Proof.
  intros k Hp Hi Hts. unfold index_last. fold k. rewrite Hp.
  rewrite points_get_older by lia. simpl.
  rewrite (proj2 (Z.ltb_lt _ _) Hts).
  assert (Hw : wrap64 (index p + 1) = (index p + 1)%Z).
  { unfold wrap64. rewrite Z.mod_small by lia. lia. }
  rewrite Hw. unfold points_set, newer, older.
  rewrite Z.rem_mod_nonneg by lia.
  pose proof (Z.mod_pos_bound (index p) 2 eq_refl) as Hb.
  rewrite (Zeven_mod (index p)).
  destruct (decide (index p mod 2 = 0)%Z) as [He|Hne].
  - rewrite He. simpl. eexists. split; [done|]. simpl.
    assert (Ho : Z.even (index p + 1) = false).
    { rewrite Z.add_1_r, Z.even_succ, <- Z.negb_even, Zeven_mod, He. done. }
    by rewrite Ho.
  - replace (index p mod 2)%Z with 1%Z by lia. simpl.
    eexists. split; [done|]. simpl.
    assert (Ho : Z.even (index p + 1) = true).
    { rewrite Z.add_1_r, Z.even_succ, <- Z.negb_even, Zeven_mod.
      replace (index p mod 2)%Z with 1%Z by lia. done. }
    by rewrite Ho.
Qed.


(** C10: for a series without a last-pair entry, GetLast returns the
    value 0 and a nil error, whatever [diff] is; a series whose stored
    value is 0 gives the same answer. *)
Theorem GetLast_unknown_series s metric tags diff :
  Last s !! (metric +:+ tags) = None ->
  GetLast s metric tags diff = Some (PrimFloat.zero, None)
  /\ exists s', is_Some (Last s' !! (metric +:+ tags))
                /\ GetLast s' metric tags false = GetLast s metric tags false.
Proof.
  intros Hnone. split.
  - unfold GetLast. by rewrite Hnone.
  - set (p := {| points := ({| opentsdb.Metric := metric; Timestamp := 1;
                               Value := VFloat64 PrimFloat.zero;
                               Tags := ∅ |}, zeroDataPoint);
                 index := 1 |}).
    exists {| Metric := ∅; Tagk := ∅; Tagv := ∅; MetricTags := ∅;
              Last := {[ metric +:+ tags := p ]};
              read := read NewSearch; copy := false |}.
    split.
    + simpl. rewrite lookup_singleton_eq. by eexists.
    + unfold GetLast at 2. rewrite Hnone.
      unfold GetLast. simpl. rewrite lookup_singleton_eq. done.
Qed.

Lemma GetLast_unknown_series_witness :
  Last NewSearch !! ("cpu" +:+ "{host=a}") = None
  /\ GetLast NewSearch "cpu" "{host=a}" true = Some (PrimFloat.zero, None).
Proof.
  split; [reflexivity|].
  apply (GetLast_unknown_series NewSearch "cpu" "{host=a}" true).
  reflexivity.
Defined.

(** C5, as the code has it: with [diff] set, a zero timestamp in either
    slot gives the insufficient-data error, and otherwise a value that
    is not a float64 in either slot gives the not-numeric error; with
    [diff] unset only the most recent slot is read, a value that is not
    a float64 there gives the not-numeric error, and insufficient data is
    never reported. *)
Theorem GetLast_errors s metric tags diff p :
  Last s !! (metric +:+ tags) = Some p ->
  (0 <= index p < 2 ^ 63)%Z ->
  exists v,
    GetLast s metric tags diff =
      Some (v,
            if diff then
              if (Timestamp (older p) =? 0)%Z || (Timestamp (newer p) =? 0)%Z
              then Some errNeedTwo
              else if is_float64 (Value (newer p))
                      && is_float64 (Value (older p))
                   then None else Some errNotFloat
            else if is_float64 (Value (newer p)) then None
                 else Some errNotFloat).
Proof.
  intros Hp Hi. rewrite (GetLast_known s metric tags diff p Hp Hi). simpl.
  destruct diff; eexists; [|done].
  do 2 f_equal.
  destruct (_ || _); [done|].
  by destruct (is_float64 (Value (newer p))), (is_float64 (Value (older p))).
Qed.

Lemma GetLast_errors_witness :
  exists v, GetLast one_point "cpu" "{host=a}" true = Some (v, Some errNeedTwo).
Proof.
  apply (GetLast_errors one_point "cpu" "{host=a}" true
           {| points := (pt 1 1, zeroDataPoint); index := 1 |}).
  - vm_compute. reflexivity.
  - simpl. lia.
Defined.

(** C5 fails as stated: after one numeric point the second slot is still
    the placeholder, yet GetLast without [diff] returns the value and a
    nil error. *)
Lemma GetLast_one_point_no_error :
  Last one_point !! "cpu{host=a}"
    = Some {| points := (pt 1 1, zeroDataPoint); index := 1 |}
  /\ GetLast one_point "cpu" "{host=a}" false = Some (1%float, None)
  /\ ~ GetLast_fails_as_stated.
Proof.
  assert (Hl : Last one_point !! "cpu{host=a}"
               = Some {| points := (pt 1 1, zeroDataPoint); index := 1 |})
    by (vm_compute; reflexivity).
  assert (Hg : GetLast one_point "cpu" "{host=a}" false = Some (1%float, None))
    by (vm_compute; reflexivity).
  split; [done|]. split; [done|].
  intros Hclaim.
  destruct (Hclaim one_point "cpu" "{host=a}" false _ Hl) as [_ Hneed];
    [simpl; lia|].
  destruct Hneed as [v Hv]; [by right|].
  rewrite Hg in Hv. discriminate.
Qed.

(** C2, at the failing input: points at times 1, 2, 10 give the rate
    (3-2)/(10-2); a fourth point at time 5, earlier than the stored
    point of time 10, is compared with the older slot (time 2), takes
    its place, and is then reported as the most recent point. *)
Theorem LastPair_promotes_earlier_point :
  Index NewSearch [pt 1 1; pt 2 2; pt 10 3] = Some three_points
  /\ Last three_points !! "cpu{host=a}"
     = Some {| points := (pt 10 3, pt 2 2); index := 3 |}
  /\ GetLast three_points "cpu" "{host=a}" true
     = Some (PrimFloat.div (PrimFloat.sub 3 2) (float64_of_int64 (10 - 2)), None)
  /\ Index three_points [pt 5 7] = Some late_point
  /\ Last late_point !! "cpu{host=a}"
     = Some {| points := (pt 10 3, pt 5 7); index := 4 |}
  /\ GetLast late_point "cpu" "{host=a}" false = Some (7%float, None)
  /\ GetLast late_point "cpu" "{host=a}" true
     = Some (PrimFloat.div (PrimFloat.sub 7 3) (float64_of_int64 (5 - 10)), None).
Proof. repeat split; vm_compute; reflexivity. Qed.

(** C9, at the failing input: the second ingestion of the same point
    leaves the tables and the registry alone, but the point is compared
    with the empty older slot and is promoted into the pair, whose rate
    is then a division of zero by zero. *)
Theorem Index_twice_promotes :
  Index NewSearch [pt 1 1] = Some one_point
  /\ Index one_point [pt 1 1] = Some same_point_twice
  /\ live same_point_twice = live one_point
  /\ Last one_point !! "cpu{host=a}"
     = Some {| points := (pt 1 1, zeroDataPoint); index := 1 |}
  /\ Last same_point_twice !! "cpu{host=a}"
     = Some {| points := (pt 1 1, pt 1 1); index := 2 |}
  /\ GetLast same_point_twice "cpu" "{host=a}" true
     = Some (PrimFloat.div (PrimFloat.sub 1 1) (float64_of_int64 (1 - 1)), None).
Proof. repeat split; vm_compute; reflexivity. Qed.

(** C4, at the failing input: one point has been ingested and nothing
    published, so the snapshot knows no metric, but the result has the
    length of the live table and holds an empty string. *)
Theorem UniqueMetrics_placeholder :
  dom (rTagk (read one_point)) = ∅
  /\ dom (Tagk one_point) = {[ "cpu" ]}
  /\ UniqueMetrics one_point = Some [""].
Proof. repeat split; vm_compute; reflexivity. Qed.

(** ** The pattern matcher *)

Lemma globb_sound any p s : globb any p s = true -> glob_on any p s.
Proof.
  revert s. induction p as [|c p IH]; intros s; simpl.
  - destruct s; [constructor|done].
  - destruct (Ascii.eqb_spec c "*") as [->|Hc].
    + induction s as [|d s IHs]; simpl.
      * rewrite orb_false_r. intros Hp. apply glob_skip. by apply IH.
      * rewrite orb_true_iff, andb_true_iff. intros [Hp|[Hd Hs]].
        -- apply glob_skip. by apply IH.
        -- apply glob_more; [done|]. by apply IHs.
    + destruct s as [|d s]; [done|]. rewrite andb_true_iff.
      intros [Hcd Hp]. apply Ascii.eqb_eq in Hcd as <-.
      apply glob_lit; [done|]. by apply IH.
Qed.

Lemma globb_complete any p s : glob_on any p s -> globb any p s = true.
Proof.
  induction 1 as [|c p s Hc _ IH|p s _ IH|c p s Hc _ IH]; simpl.
  - done.
  - destruct (Ascii.eqb_spec c "*") as [->|_]; [done|].
    by rewrite Ascii.eqb_refl, IH.
  - destruct s; simpl; by rewrite IH.
  - simpl in IH. by rewrite Hc, IH, orb_true_r.
Qed.

Lemma globb_glob_on any p s : globb any p s = true <-> glob_on any p s.
Proof. split; [apply globb_sound|apply globb_complete]. Qed.

Global Instance glob_on_dec any p s : Decision (glob_on any p s).
Proof.
  destruct (globb any p s) eqn:Hb.
  - left. by apply globb_glob_on.
  - right. intros Hg. apply globb_glob_on in Hg. congruence.
Defined.

Global Instance glob_dec p s : Decision (glob p s) := glob_on_dec _ p s.
Global Instance glob_line_dec p s : Decision (glob_line p s) := glob_on_dec _ p s.

Lemma prefix_one_char o c s :
  String.prefix (String o "") (String c s) = Ascii.eqb o c.
Proof.
  simpl. destruct (ascii_dec o c) as [->|Hne].
  - rewrite Ascii.eqb_refl. by destruct s.
  - apply Ascii.eqb_neq in Hne. by rewrite Hne.
Qed.

Lemma Replace_one_char s o new :
  GoStr.Replace s (String o "") new = replace_char o new s.
Proof.
  unfold GoStr.Replace. induction s as [|c s IH]; [done|].
  change (GoStr.replace_from (String o "") new (String c s) 0)
    with (if String.prefix (String o "") (String c s)
          then new +:+ GoStr.replace_from (String o "") new s 0
          else String c (GoStr.replace_from (String o "") new s 0)).
  rewrite prefix_one_char, IH. done.
Qed.

Lemma app_cons c (s t : string) : String c s +:+ t = String c (s +:+ t).
Proof. reflexivity. Qed.

Lemma app_nil (t : string) : "" +:+ t = t.
Proof. reflexivity. Qed.

Lemma string_app_assoc (a b c : string) : (a +:+ b) +:+ c = a +:+ (b +:+ c).
Proof.
  induction a as [|x a IH]; [done|]. by rewrite !app_cons, IH.
Qed.

Lemma replace_char_app o new a b :
  replace_char o new (a +:+ b) = replace_char o new a +:+ replace_char o new b.
Proof.
  induction a as [|c a IH]; [done|]. rewrite app_cons. simpl.
  destruct (Ascii.eqb o c); rewrite IH; [|done].
  by rewrite string_app_assoc.
Qed.

Lemma replace_char_cons o new c s :
  replace_char o new (String c s)
  = if Ascii.eqb c o then new +:+ replace_char o new s
    else String c (replace_char o new s).
Proof. simpl. by rewrite Ascii.eqb_sym. Qed.

Lemma Match_translation p :
  GoStr.Replace (GoStr.Replace p "." "\.") "*" ".*" = tr p.
Proof.
  rewrite !Replace_one_char. induction p as [|c p IH]; [done|].
  rewrite replace_char_cons. change (tr (String c p)) with (tr_char c +:+ tr p).
  unfold tr_char. destruct (Ascii.eqb_spec c ".") as [->|Hdot].
  - rewrite replace_char_app, IH. done.
  - rewrite replace_char_cons, IH.
    by destruct (Ascii.eqb c "*").
Qed.

Lemma plain_literal c :
  plain c = true -> c <> "."%char -> c <> "*"%char ->
  GoRegexp.rep_of c = None /\ Ascii.eqb c "\" = false
  /\ Ascii.eqb c "^" = false /\ Ascii.eqb c "$" = false
  /\ GoRegexp.unmodelled c = false.
Proof.
  intros Hp Hdot Hstar. unfold plain in Hp.
  apply Ascii.eqb_neq in Hdot, Hstar. rewrite Hdot, Hstar in Hp. simpl in Hp.
  apply negb_true_iff in Hp.
  repeat (apply orb_false_iff in Hp as [Hp ?]).
  unfold GoRegexp.rep_of. rewrite Hstar. repeat split; try done.
  by repeat match goal with H : Ascii.eqb c _ = false |- _ => rewrite H; clear H end.
Qed.

(** The translated pattern, closed by [$], parses to the items of the
    pattern whatever was read before. *)
Lemma parse_tr p :
  plain_pattern p = true ->
  forall stack l,
    GoRegexp.parse (tr p +:+ "$") stack l
    = inr (rev stack ++ glob_items p ++ [(GoRegexp.AEndText, GoRegexp.One)]).
Proof.
  induction p as [|c p IH]; intros Hp stack l.
  - simpl. done.
  - simpl in Hp. apply andb_true_iff in Hp as [Hc Hp].
    specialize (IH Hp). simpl. unfold tr_char, glob_item.
    destruct (Ascii.eqb_spec c ".") as [->|Hdot].
    + simpl. rewrite IH. simpl. by rewrite <- app_assoc.
    + destruct (Ascii.eqb_spec c "*") as [->|Hstar].
      * simpl. rewrite IH. simpl. by rewrite <- app_assoc.
      * destruct (plain_literal c Hc Hdot Hstar) as (Hr & H1 & H2 & H3 & H4).
        simpl. rewrite Hr, H1. apply Ascii.eqb_neq in Hdot.
        rewrite Hdot, H2, H3, H4, IH. simpl. by rewrite <- app_assoc.
Qed.

Lemma star_skip (k : bool -> string -> bool) (k' : string -> bool) any :
  (forall bot s, k bot s = k' s) ->
  forall bot s, GoRegexp.star k any bot s = skip k' any s.
Proof.
  intros Hk bot s. revert bot.
  induction s as [|d s IH]; intros bot; simpl; rewrite Hk; [done|].
  by rewrite IH.
Qed.

Lemma match_here_glob p bot s :
  GoRegexp.match_here (glob_items p ++ [(GoRegexp.AEndText, GoRegexp.One)]) bot s
  = globb not_newline p s.
Proof.
  revert bot s. induction p as [|c p IH]; intros bot s; simpl.
  - by rewrite andb_true_r.
  - unfold glob_item. destruct (Ascii.eqb_spec c "*") as [->|Hstar]; simpl.
    + by apply star_skip.
    + destruct s as [|d s]; [done|]. by rewrite IH.
Qed.

Lemma search_from_begin re s :
  GoRegexp.search_from ((GoRegexp.ABeginText, GoRegexp.One) :: re) false s = false.
Proof. induction s as [|d s IH]; simpl; [done|]. by rewrite IH. Qed.

Lemma MatchString_begin re s :
  GoRegexp.MatchString ((GoRegexp.ABeginText, GoRegexp.One) :: re) s
  = GoRegexp.match_here re true s.
Proof.
  unfold GoRegexp.MatchString.
  destruct s as [|d s]; simpl; [by rewrite orb_false_r|].
  by rewrite search_from_begin, orb_false_r.
Qed.

(** The regular expression [Match] compiles for a plain pattern. *)
Lemma Match_compiles p :
  plain_pattern p = true ->
  GoRegexp.Compile ("^" +:+ tr p +:+ "$")
  = Ok ((GoRegexp.ABeginText, GoRegexp.One)
          :: glob_items p ++ [(GoRegexp.AEndText, GoRegexp.One)]).
Proof.
  intros Hp. unfold GoRegexp.Compile. rewrite app_cons, app_nil. simpl.
  by rewrite parse_tr.
Qed.

(** The loop that appends the matching values is a filter. *)
Lemma append_loop_filter (f : string -> bool) (P : string -> Prop)
    `{forall v, Decision (P v)} (values acc : list string) :
  (forall v, f v = true <-> P v) ->
  foldl (fun nvs nv => if f nv then nvs ++ [nv] else nvs) acc values
  = acc ++ filter P values.
Proof.
  intros HfP. revert acc.
  induction values as [|v values IH]; intros acc; simpl.
  - by rewrite app_nil_r.
  - rewrite IH, filter_cons. destruct (decide (P v)) as [HP|HP].
    + apply HfP in HP. rewrite HP. by rewrite <- app_assoc.
    + destruct (f v) eqn:Hf; [|done]. by apply HfP in Hf.
Qed.

(** C7, as the code has it: for a pattern made of [.], [*] and ASCII
    characters that are not regexp metacharacters, Match returns, in
    their original order, exactly the candidates that the whole pattern
    matches with [.] literal and [*] as zero or more characters other
    than a line feed. *)
Theorem Match_glob pattern values :
  plain_pattern pattern = true ->
  Match pattern values = Ok (filter (glob_line pattern) values).
Proof.
  intros Hp. unfold Match. rewrite Match_translation, (Match_compiles _ Hp).
  f_equal. apply (append_loop_filter _ (glob_line pattern) values []).
  intros v. rewrite MatchString_begin, match_here_glob.
  apply globb_glob_on.
Qed.

Lemma Match_glob_witness :
  plain_pattern "web*" = true
  /\ Match "web*" ["web-01"; "web"; "xweb-01"]
     = Ok (filter (glob_line "web*") ["web-01"; "web"; "xweb-01"]).
Proof.
  split; [reflexivity|].
  apply (Match_glob "web*" ["web-01"; "web"; "xweb-01"]). reflexivity.
Defined.

(** The anchoring examples of the spec. *)
Example Match_web :
  Match "web*" ["web-01"; "web"; "xweb-01"] = Ok ["web-01"; "web"].
Proof. reflexivity. Qed.

Example Match_literal_dot : Match "a.b" ["a.b"; "axb"] = Ok ["a.b"].
Proof. reflexivity. Qed.

(** C7 fails as stated: [+] keeps its regexp meaning, so the pattern
    [a+] selects [aa], which it does not match as a glob; and [*] does
    not run over a line feed, so the pattern [*] rejects the one-line-feed
    candidate that the glob accepts. *)
Lemma Match_not_glob :
  (Match "a+" ["aa"] = Ok ["aa"] /\ ~ glob "a+" "aa")
  /\ (Match "*" [String "010" ""] = Ok [] /\ glob "*" (String "010" "")).
Proof.
  repeat split.
  - intros Hg. apply globb_complete in Hg. discriminate.
  - apply globb_sound. reflexivity.
Qed.

(** ** Query expansion

    The regexp library and [strings.TrimSpace] are any functions. *)

Section Expand.
Context {Regexp : Type}.
Variable Compile : string -> result Regexp.
Variable MatchString : Regexp -> string -> bool.
Variable TrimSpace : string -> string.

Local Abbreviation Match := (search.Match_with Compile MatchString).
Local Abbreviation expand_alt := (search.expand_alt Compile MatchString TrimSpace).
Local Abbreviation expand_alts := (search.expand_alts Compile MatchString TrimSpace).
Local Abbreviation expand_tag := (search.expand_tag Compile MatchString TrimSpace).
Local Abbreviation Expand := (search.Expand Compile MatchString TrimSpace).
Local Abbreviation alt_values := (alt_values Compile MatchString TrimSpace).
Local Abbreviation tag_values := (tag_values Compile MatchString TrimSpace).
Local Abbreviation expanded := (expanded Compile MatchString TrimSpace).

Lemma expand_alt_values s metric k nvs v :
  expand_alt s metric k nvs v =
    match alt_values s metric k v with
    | Fail e => Fail e
    | Ok vs => Ok (nvs ++ vs)
    end.
Proof.
  unfold expand_alt, alt_values, is_wildcard.
  destruct (String.eqb _ "*"); simpl; [done|].
  destruct (GoStr.Contains _ "*"); simpl; [|done].
  by destruct (search.Match_with _ _ _ _).
Qed.

Lemma expand_alts_collect s metric k alts :
  expand_alts s metric k alts = collect_values (alt_values s metric k) alts.
Proof.
  unfold expand_alts.
  assert (Hfail : forall e l,
    foldl (fun r v => match r with
                      | Fail err => Fail err
                      | Ok nvs => expand_alt s metric k nvs v
                      end) (Fail e) l = Fail e).
  { intros e l. by induction l. }
  assert (Hacc : forall l acc,
    foldl (fun r v => match r with
                      | Fail err => Fail err
                      | Ok nvs => expand_alt s metric k nvs v
                      end) (Ok acc) l
    = match collect_values (alt_values s metric k) l with
      | Fail e => Fail e
      | Ok vs => Ok (acc ++ vs)
      end).
  { induction l as [|a l IH]; intros acc; simpl.
    - by rewrite app_nil_r.
    - rewrite expand_alt_values.
      destruct (alt_values s metric k a) as [vs|e]; [|apply Hfail].
      rewrite IH. destruct (collect_values _ l); [|done].
      by rewrite app_assoc. }
  rewrite Hacc. by destruct (collect_values _ alts).
Qed.

(** One tag of the query: the call goes on exactly when the alternatives
    yield at least one value between them. *)
Lemma expand_tag_spec s metric k ov :
  expand_tag s metric k ov =
    match tag_values s metric k ov with
    | Fail e => Fail e
    | Ok [] => Fail (errNoTags k ov)
    | Ok nvs => Ok (GoStr.Join nvs "|")
    end.
Proof.
  unfold expand_tag, tag_values. rewrite expand_alts_collect.
  destruct (collect_values _ _) as [[|v vs]|e]; done.
Qed.

Lemma expand_tag_ok s metric k ov :
  (exists nv, expand_tag s metric k ov = Ok nv) <->
  (exists nvs, tag_values s metric k ov = Ok nvs /\ nvs <> []).
Proof.
  rewrite expand_tag_spec.
  destruct (tag_values s metric k ov) as [[|v vs]|e]; split;
    try (intros [? ?]; done); try (intros (? & ? & ?); simplify_eq; done).
  - intros _. by eexists.
  - intros _. by eexists.
Qed.

Lemma expand_tag_expanded s metric k ov nv :
  expand_tag s metric k ov = Ok nv -> nv = expanded s metric k ov.
Proof.
  rewrite expand_tag_spec. unfold expanded.
  destruct (tag_values s metric k ov) as [[|v vs]|e]; intros; by simplify_eq.
Qed.

(** The loop of [Expand] over the tags, from a state without error. *)
Lemma Expand_loop s (l : list (string * string)) :
  forall q0,
    let step := fun (st : Query * option error) (kv : string * string) =>
      match st with
      | (q, Some err) => (q, Some err)
      | (q, None) =>
          match expand_tag s (qMetric q) kv.1 kv.2 with
          | Fail err => (q, Some err)
          | Ok nv => ({| qMetric := qMetric q;
                         qTags := <[kv.1 := nv]> (qTags q) |}, None)
          end
      end in
    let r := foldl step (q0, None) l in
    qMetric r.1 = qMetric q0
    /\ (r.2 = None <->
        Forall (fun kv => exists nv, expand_tag s (qMetric q0) kv.1 kv.2 = Ok nv) l)
    /\ (r.2 = None ->
        qTags r.1 = foldl (fun t kv => <[kv.1 := expanded s (qMetric q0) kv.1 kv.2]> t)
                          (qTags q0) l)
    /\ (forall err, r.2 = Some err ->
        exists kv, kv ∈ l /\ expand_tag s (qMetric q0) kv.1 kv.2 = Fail err).
Proof.
  intros q0 step.
  assert (Hstuck : forall l q e, foldl step (q, Some e) l = (q, Some e)).
  { intros l'. by induction l'. }
  revert q0. induction l as [|kv l IH]; intros q0; simpl.
  - repeat split; try done. 
  - destruct (expand_tag s (qMetric q0) kv.1 kv.2) as [nv|e] eqn:Het.
    + specialize (IH {| qMetric := qMetric q0;
                        qTags := <[kv.1 := nv]> (qTags q0) |}).
      simpl in IH. destruct IH as (Hm & Hok & Htags & Herr).
      split; [done|]. split; [|split].
      * rewrite Hok. split.
        -- intros Hall. constructor; [by eexists|done].
        -- by inversion 1.
      * intros Hn. rewrite (Htags Hn).
        by rewrite (expand_tag_expanded _ _ _ _ _ Het).
      * intros err Hsome. destruct (Herr err Hsome) as (kv' & Hin & Hf).
        exists kv'. split; [by right|done].
    + rewrite Hstuck. simpl. split; [done|]. split; [|split].
      * split; [done|]. inversion 1 as [|? ? [nv Hnv] _]. congruence.
      * done.
      * intros err [= <-]. exists kv. split; [by left|done].
Qed.

(** Writing new values over a map's own entries, one key at a time. *)
Lemma foldl_insert_lookup (g : string -> string -> string)
    (l : list (string * string)) (k : string) :
  NoDup (l.*1) ->
  forall t0 : gmap string string,
    foldl (fun t kv => <[kv.1 := g kv.1 kv.2]> t) t0 l !! k
    = match (list_to_map l : gmap string string) !! k with
      | Some ov => Some (g k ov)
      | None => t0 !! k
      end.
Proof.
  induction l as [|[k1 v1] l IH]; intros Hnd t0; simpl.
  - by rewrite lookup_empty.
  - apply NoDup_cons in Hnd as [Hk1 Hnd]. rewrite (IH Hnd). simpl.
    destruct (decide (k1 = k)) as [->|Hne].
    + rewrite lookup_insert_eq.
      rewrite (not_elem_of_list_to_map_1 _ _ Hk1).
      by rewrite lookup_insert_eq.
    + rewrite !lookup_insert_ne by done. done.
Qed.

(** C3, as the code has it: Expand succeeds exactly when, for every tag
    of the query, no wildcard alternative has a pattern that fails to
    compile and the alternatives yield at least one value between them;
    a wildcard alternative without a match is dropped without an error.
    On success each tag value becomes the [|]-join of, per alternative in
    order, the trimmed alternative itself when it is the bare [*] or has
    no [*], and its matching published values otherwise.  An error is
    that of one tag: the matcher's, or the no-tags-matching error when
    all its alternatives came out empty.  This holds whatever
    [regexp.Compile], [MatchString] and [strings.TrimSpace] compute. *)
Theorem Expand_spec s q :
  ((Expand s q).2 = None <->
   forall k ov, qTags q !! k = Some ov ->
     exists nvs, tag_values s (qMetric q) k ov = Ok nvs /\ nvs <> [])
  /\ ((Expand s q).2 = None ->
      qMetric (Expand s q).1 = qMetric q
      /\ forall k, qTags (Expand s q).1 !! k
                   = expanded s (qMetric q) k <$> qTags q !! k)
  /\ (forall err, (Expand s q).2 = Some err ->
      exists k ov, qTags q !! k = Some ov
        /\ (tag_values s (qMetric q) k ov = Fail err
            \/ (tag_values s (qMetric q) k ov = Ok []
                /\ err = errNoTags k ov))).
Proof.
  unfold Expand.
  destruct (Expand_loop s (map_to_list (qTags q)) q) as (Hm & Hok & Htags & Herr).
  split; [|split].
  - rewrite Hok, Forall_forall. split.
    + intros Hall k ov Hk. apply expand_tag_ok.
      apply (Hall (k, ov)). by apply elem_of_map_to_list.
    + intros Hall [k ov] Hin. apply expand_tag_ok. simpl.
      apply Hall. by apply elem_of_map_to_list.
  - intros Hn. split; [done|]. intros k. rewrite (Htags Hn).
    rewrite (foldl_insert_lookup (expanded s (qMetric q)))
      by apply NoDup_fst_map_to_list.
    rewrite list_to_map_to_list. by destruct (qTags q !! k).
  - intros err Hsome. destruct (Herr err Hsome) as ([k ov] & Hin & Hf).
    exists k, ov. split; [by apply elem_of_map_to_list|].
    simpl in Hf. rewrite expand_tag_spec in Hf.
    destruct (tag_values s (qMetric q) k ov) as [[|v vs]|e]; simplify_eq.
    + by right.
    + by left.
Qed.

End Expand.

(** The run below is on the instance [GoRegexp], [GoStr.TrimSpace] of
    the libraries; its pattern [web*] and its values are plain ASCII. *)
Section ExpandRun.
Local Abbreviation Expand :=
  (search.Expand GoRegexp.Compile GoRegexp.MatchString GoStr.TrimSpace).
Local Abbreviation alt_values :=
  (alt_values GoRegexp.Compile GoRegexp.MatchString GoStr.TrimSpace).
Local Abbreviation Expand_fails_as_stated :=
  (Expand_fails_as_stated GoRegexp.Compile GoRegexp.MatchString GoStr.TrimSpace).

(** C3 fails as stated: the wildcard alternative [web*] has no match,
    yet Expand succeeds and keeps only [db]. *)
Lemma Expand_partial :
  alt_values published_one "cpu" "host" "web*" = Ok []
  /\ Expand published_one query_web_or_db
     = ({| qMetric := "cpu"; qTags := {[ "host" := "db" ]} |}, None)
  /\ ~ Expand_fails_as_stated.
Proof.
  assert (Hv : alt_values published_one "cpu" "host" "web*" = Ok [])
    by (vm_compute; reflexivity).
  assert (He : Expand published_one query_web_or_db
               = ({| qMetric := "cpu"; qTags := {[ "host" := "db" ]} |}, None))
    by (vm_compute; reflexivity).
  split; [done|]. split; [done|].
  intros Hclaim.
  assert (Hq : qTags query_web_or_db !! "host" = Some "web*|db")
    by reflexivity.
  assert (Hin : "web*" ∈ GoStr.Split "web*|db" "|").
  { change ("web*" ∈ ["web*"; "db"]). apply list_elem_of_here. }
  assert (Hw : is_wildcard (GoStr.TrimSpace "web*") = true) by reflexivity.
  destruct (Hclaim published_one query_web_or_db "host" "web*|db" "web*"
              Hq Hin Hw Hv) as [err Herr].
  rewrite He in Herr. discriminate.
Qed.
End ExpandRun.

(** ** Silences *)

Import expr sched.

Lemma range_all {V} (f : string -> V -> bool) (m : gmap string V) :
  range_map (fun (ret : bool) k v => if ret then f k v else false) true m = true
  <-> forall k v, m !! k = Some v -> f k v = true.
Proof.
  unfold range_map.
  assert (Hfold : forall l acc,
    foldl (fun (ret : bool) (kv : string * V) =>
             if ret then f kv.1 kv.2 else false) acc l
    = acc && forallb (fun kv => f kv.1 kv.2) l).
  { induction l as [|kv l IH]; intros acc; simpl.
    - by rewrite andb_true_r.
    - rewrite IH. by destruct acc. }
  rewrite Hfold. simpl. rewrite forallb_forall. split.
  - intros Hall k v Hk. apply (Hall (k, v)).
    apply list_elem_of_In. by apply elem_of_map_to_list.
  - intros Hall [k v] Hin. apply Hall.
    apply elem_of_map_to_list. by apply list_elem_of_In.
Qed.

(** What [Matches] decides: the whole alert key of the rule, name and
    tags together, must be empty or equal to the alert's key, before the
    tags are looked at. *)
Lemma Matches_code s alert :
  Matches s alert = true <->
  (Alert s = "" \/ Alert s = alert)
  /\ forall k pattern,
       Group (Alert s) !! k = Some pattern ->
       exists tagv, Group alert !! k = Some tagv
                    /\ (sched.Match pattern tagv).1 = true.
Proof.
  unfold Matches.
  set (body := range_map _ true _).
  assert (Hbody : body = true <->
    forall k pattern, Group (Alert s) !! k = Some pattern ->
      exists tagv, Group alert !! k = Some tagv
                   /\ (sched.Match pattern tagv).1 = true).
  { unfold body.
    rewrite (range_all (fun k pattern =>
               match Group alert !! k with
               | None => false
               | Some tagv => (sched.Match pattern tagv).1
               end)).
    split; intros Hall k pattern Hk; specialize (Hall k pattern Hk).
    - destruct (Group alert !! k) as [tagv|]; [|done]. by exists tagv.
    - destruct Hall as (tagv & -> & Hm). done. }
  destruct (String.eqb_spec (Alert s) "") as [He|He];
    destruct (String.eqb_spec (Alert s) alert) as [Ha|Ha]; simpl;
    rewrite ?Hbody; try tauto.
  split; [done|]. intros [[?|?] _]; done.
Qed.

(** C1, at the failing input: the rule with the tag pattern
    [{host=web*}] and no alert name should match the alerts
    [cpu{dc=us,host=web-01}] and [cpu{host=web-02}] ([host] is present
    and its value satisfies [web*]), but the rule's key is neither empty
    nor the alert's key, so [Matches] answers false. *)
Theorem Matches_compares_whole_key :
  ParseAlertKey ("" +:+ "{" +:+ "host=web*" +:+ "}") = Ok (Alert silence_web)
  /\ Matches_spec silence_web "cpu{dc=us,host=web-01}"
  /\ Matches silence_web "cpu{dc=us,host=web-01}" = false
  /\ Matches_spec silence_web "cpu{host=web-02}"
  /\ Matches silence_web "cpu{host=web-02}" = false.
Proof.
  assert (Hg : Group (Alert silence_web) = {[ "host" := "web*" ]})
    by (vm_compute; reflexivity).
  split; [reflexivity|].
  split; [|split; [reflexivity|split; [|reflexivity]]].
  - split; [by left|]. intros k pattern. rewrite Hg.
    intros [<- <-]%lookup_singleton_Some.
    exists "web-01". split; vm_compute; reflexivity.
  - split; [by left|]. intros k pattern. rewrite Hg.
    intros [<- <-]%lookup_singleton_Some.
    exists "web-02". split; vm_compute; reflexivity.
Qed.

(** ** Adding a silence *)

Section AddSilence.
Variable sha1_hex : string -> string.
Variable Time_String : Time -> string.

Local Abbreviation AddSilence := (sched.AddSilence sha1_hex Time_String).

(** The four checks in the order of the code, each with its error. *)
Lemma AddSilence_zero now s start end_ alert tagList confirm edit :
  IsZero start || IsZero end_ = true ->
  AddSilence now s start end_ alert tagList confirm edit
  = (s, (None, Some errStartEnd)).
Proof. unfold sched.AddSilence. by intros ->. Qed.

Lemma AddSilence_order now s start end_ alert tagList confirm edit :
  IsZero start || IsZero end_ = false ->
  After start end_ = true ->
  AddSilence now s start end_ alert tagList confirm edit
  = (s, (None, Some errOrder)).
Proof. unfold sched.AddSilence. by intros -> ->. Qed.

Lemma AddSilence_past now s start end_ alert tagList confirm edit :
  IsZero start || IsZero end_ = false ->
  After start end_ = false ->
  (Since now end_ > 0)%Z ->
  AddSilence now s start end_ alert tagList confirm edit
  = (s, (None, Some errPast)).
Proof.
  unfold sched.AddSilence. intros -> -> Hs.
  by rewrite (proj2 (Z.gtb_gt _ _) Hs).
Qed.

Lemma AddSilence_empty now s start end_ confirm edit :
  IsZero start || IsZero end_ = false ->
  After start end_ = false ->
  (Since now end_ <= 0)%Z ->
  AddSilence now s start end_ "" "" confirm edit
  = (s, (None, Some errEmpty)).
Proof.
  unfold sched.AddSilence. intros -> -> Hs.
  destruct (Z.gtb_spec (Since now end_) 0); [lia|done].
Qed.

Lemma AddSilence_errors_distinct :
  NoDup [errStartEnd; errOrder; errPast; errEmpty].
Proof.
  repeat (apply NoDup_cons; split;
          [rewrite ?elem_of_cons, elem_of_nil; intuition discriminate|]).
  by apply NoDup_nil.
Qed.

(** A call that returns an error, or that only previews, leaves the
    schedule as it was. *)
Lemma AddSilence_error_keeps_state now s start end_ alert tagList confirm edit err :
  (AddSilence now s start end_ alert tagList confirm edit).2.2 = Some err ->
  (AddSilence now s start end_ alert tagList confirm edit).1 = s.
Proof.
  unfold sched.AddSilence.
  repeat match goal with
         | |- context [if ?b then _ else _] => destruct b; simpl; try done
         | |- context [match ?r with Ok _ => _ | Fail _ => _ end] =>
             destruct r; simpl; try done
         end.
Qed.

(** C6, at the failing input: with start and end both at instant 100
    and the clock at 50, start does not precede end, yet no check
    objects and the rule is stored and saved. *)
Theorem AddSilence_accepts_equal_times :
  let si := {| Start := 100; End_ := 100; Alert := "a{}" |} in
  let rules : gmap string Silence := {[ ID sha1_hex Time_String si := si ]} in
  After 100 100 = false
  /\ AddSilence 50 no_rules 100 100 "a" "" true ""
     = ({| Silence_ := rules; status := ∅; persisted := rules |},
        (None, None)).
Proof.
  intros si rules. split; [reflexivity|].
  unfold sched.AddSilence. simpl.
  change (ParseAlertKey ("a" +:+ "{" +:+ "" +:+ "}")) with (@Ok AlertKey "a{}").
  simpl. unfold Save. simpl. unfold rules, si.
  by rewrite delete_empty, insert_empty.
Qed.
End AddSilence.

(** ** The composite key of a series *)

Lemma app_empty_r (s : string) : s +:+ "" = s.
Proof. induction s as [|c s IH]; [done|]. by rewrite app_cons, IH. Qed.

Lemma lacks_cons c d s :
  lacks c (String d s) = negb (Ascii.eqb d c) && lacks c s.
Proof. reflexivity. Qed.

Lemma lacks_cons_same c s : lacks c (String c s) = false.
Proof. by rewrite lacks_cons, Ascii.eqb_refl. Qed.

Lemma lacks_app_cons c a b : lacks c (a +:+ String c b) = false.
Proof.
  induction a as [|d a IH].
  - by rewrite app_nil, lacks_cons_same.
  - by rewrite app_cons, lacks_cons, IH, andb_false_r.
Qed.

(** A string is cut at the first [c] in one way only. *)
Lemma cut_app_unique c a1 b1 a2 b2 :
  lacks c a1 = true -> lacks c a2 = true ->
  a1 +:+ String c b1 = a2 +:+ String c b2 -> a1 = a2 /\ b1 = b2.
Proof.
  revert a2. induction a1 as [|d a1 IH]; intros [|e a2] H1 H2;
    rewrite ?app_cons, ?app_nil; intros Heq; simplify_eq.
  - done.
  - by rewrite lacks_cons_same in H2.
  - by rewrite lacks_cons_same in H1.
  - rewrite lacks_cons in H1, H2.
    apply andb_true_iff in H1 as [_ H1], H2 as [_ H2].
    destruct (IH a2 H1 H2) as [-> ->]; done.
Qed.

Lemma app_last_inj c (a b : string) :
  a +:+ String c "" = b +:+ String c "" -> a = b.
Proof.
  revert b. induction a as [|d a IH]; intros [|e b];
    rewrite ?app_cons, ?app_nil; intros Heq; simplify_eq.
  - done.
  - by destruct b.
  - by destruct a.
  - f_equal. by apply IH.
Qed.

Lemma Join_cons x l : GoStr.Join (x :: l) "," = x +:+ join_tail l.
Proof.
  unfold GoStr.Join. destruct l as [|y l]; simpl.
  - by rewrite app_empty_r.
  - done.
Qed.

Lemma value_tail_unique v1 v2 l1 l2 :
  lacks "," v1 = true -> lacks "," v2 = true ->
  v1 +:+ join_tail l1 = v2 +:+ join_tail l2 ->
  v1 = v2 /\ join_tail l1 = join_tail l2.
Proof.
  intros H1 H2. destruct l1 as [|x1 l1], l2 as [|x2 l2]; simpl.
  - rewrite !app_empty_r. by intros ->.
  - rewrite app_empty_r. intros ->. by rewrite lacks_app_cons in H1.
  - rewrite app_empty_r. intros <-. by rewrite lacks_app_cons in H2.
  - intros Heq. destruct (cut_app_unique _ _ _ _ _ H1 H2 Heq) as [-> ->]. done.
Qed.

(** The joined rendering of the pairs determines the pairs. *)
Lemma render_pairs_inj l1 l2 :
  Forall pair_ok l1 -> Forall pair_ok l2 ->
  GoStr.Join (render_pair <$> l1) "," = GoStr.Join (render_pair <$> l2) "," ->
  l1 = l2.
Proof.
  intros Hok1. revert l2.
  induction Hok1 as [|[k1 v1] l1 [Hk1 Hv1] _ IH]; intros l2 Hok2;
    destruct Hok2 as [|[k2 v2] l2 [Hk2 Hv2] Hok2].
  - done.
  - rewrite fmap_cons, Join_cons. unfold render_pair. simpl.
    rewrite string_app_assoc. destruct k2; discriminate.
  - rewrite fmap_cons, Join_cons. unfold render_pair. simpl.
    rewrite string_app_assoc. destruct k1; discriminate.
  - rewrite !fmap_cons, !Join_cons. unfold render_pair. simpl in *.
    rewrite !string_app_assoc, !app_cons, !app_nil.
    intros Heq.
    destruct (cut_app_unique _ _ _ _ _ Hk1 Hk2 Heq) as [-> Hrest].
    destruct (value_tail_unique _ _ _ _ Hv1 Hv2 Hrest) as [-> Htail].
    f_equal. apply IH; [done|].
    destruct l1 as [|x1 l1], l2 as [|x2 l2]; simpl in Htail; simplify_eq; done.
Qed.

Lemma sorted_pairs_perm (t : TagSet) : sorted_pairs t ≡ₚ map_to_list t.
Proof. unfold sorted_pairs. apply merge_sort_Permutation. Qed.

(** The sorted pairs determine the tag set. *)
Lemma sorted_pairs_inj (t1 t2 : TagSet) :
  sorted_pairs t1 = sorted_pairs t2 -> t1 = t2.
Proof.
  intros Heq.
  rewrite <- (list_to_map_to_list t1), <- (list_to_map_to_list t2).
  apply list_to_map_proper; [apply NoDup_fst_map_to_list|].
  by rewrite <- !sorted_pairs_perm, Heq.
Qed.

Lemma sorted_pairs_ok (t : TagSet) :
  (forall k v, t !! k = Some v -> lacks "=" k = true /\ lacks "," v = true) ->
  Forall pair_ok (sorted_pairs t).
Proof.
  intros Hok. apply Forall_forall. intros [k v] Hin.
  rewrite sorted_pairs_perm in Hin. apply elem_of_map_to_list in Hin.
  by apply Hok.
Qed.

(** C8, as the code has it: for series whose metric has no [{], whose
    tag keys have no [=] and whose tag values have no [,], two points
    have the same composite key exactly when their metrics and tag sets
    are the same. *)
Theorem key_injective (dp1 dp2 : DataPoint) :
  delimiter_free (series dp1) -> delimiter_free (series dp2) ->
  key (series dp1) = key (series dp2)
  <-> opentsdb.Metric dp1 = opentsdb.Metric dp2 /\ Tags dp1 = Tags dp2.
Proof.
  intros [Hm1 Ht1] [Hm2 Ht2]. split.
  - unfold key, TagSet_String, render. simpl in *.
    rewrite !app_cons, !app_nil. intros Heq.
    destruct (cut_app_unique _ _ _ _ _ Hm1 Hm2 Heq) as [Hm Hbody].
    split; [done|].
    apply app_last_inj in Hbody.
    apply sorted_pairs_inj, render_pairs_inj; [| |done];
      by apply sorted_pairs_ok.
  - intros [Hm Ht]. unfold key, series. by rewrite Hm, Ht.
Qed.

Lemma key_injective_witness :
  key (series (pt 1 1)) = key (series (pt 2 2))
  <-> opentsdb.Metric (pt 1 1) = opentsdb.Metric (pt 2 2)
      /\ Tags (pt 1 1) = Tags (pt 2 2).
Proof.
  apply (key_injective (pt 1 1) (pt 2 2)).
  - split; [reflexivity|]. simpl. intros k v.
    intros [<- <-]%lookup_singleton_Some. split; reflexivity.
  - split; [reflexivity|]. simpl. intros k v.
    intros [<- <-]%lookup_singleton_Some. split; reflexivity.
Defined.

(** C8 fails as stated: a comma in a tag value makes one tag read as
    two, and braces move the border between the metric and the tags; in
    both cases two different series get the same key. *)
Lemma key_collision :
  (key (series comma_in_value) = "m{a=1,b=2}"
   /\ key (series two_tags) = "m{a=1,b=2}"
   /\ opentsdb.Metric comma_in_value = opentsdb.Metric two_tags
   /\ Tags comma_in_value <> Tags two_tags)
  /\ (key (series brace_in_metric) = "m{a=1}{}"
      /\ key (series brace_in_value) = "m{a=1}{}"
      /\ opentsdb.Metric brace_in_metric <> opentsdb.Metric brace_in_value).
Proof.
  repeat split; try (vm_compute; reflexivity).
  - intros Heq. apply (f_equal (fun t : TagSet => t !! "b")) in Heq.
    vm_compute in Heq. discriminate.
  - discriminate.
Qed.

(** ** The rate cache in general *)

Lemma Index_Some s mdp l :
  last_batch (Last s) mdp = Some l ->
  exists s', Index s mdp = Some s' /\ Last s' = l.
Proof.
  intros Hl. pose proof (Index_Last s mdp) as HL. rewrite Hl in HL.
  apply fmap_Some in HL as (s' & Hs' & ->). by exists s'.
Qed.

Lemma index_last_first l dp :
  l !! key (series dp) = None ->
  (0 < Timestamp dp)%Z ->
  index_last l dp
  = Some (<[key (series dp) := {| points := (dp, zeroDataPoint); index := 1 |}]> l).
Proof.
  intros Hk Hts. unfold index_last. rewrite Hk. simpl.
  by rewrite (proj2 (Z.ltb_lt _ _) Hts).
Qed.

(** Both halves of the monotonic-rate property, for any series: three
    points at increasing positive times give the rate of the last two;
    a fourth point whose time lies between those two is nevertheless
    promoted and becomes the value [GetLast] reports. *)
Lemma LastPair_rate_then_regression metric tags t1 t2 t3 t0 v1 v2 v3 v0 :
  (0 < t1 < t2)%Z -> (t2 < t0 < t3)%Z ->
  exists s3 s4,
    Index NewSearch [point_of metric tags t1 v1; point_of metric tags t2 v2;
                     point_of metric tags t3 v3] = Some s3
    /\ GetLast s3 metric (TagSet_String tags) true
       = Some (PrimFloat.div (PrimFloat.sub v3 v2)
                 (float64_of_int64 (wrap64 (t3 - t2))), None)
    /\ Index s3 [point_of metric tags t0 v0] = Some s4
    /\ GetLast s4 metric (TagSet_String tags) false = Some (v0, None).
Proof.
  intros H12 H03.
  set (k := metric +:+ TagSet_String tags).
  set (p1 := point_of metric tags t1 v1).
  set (p2 := point_of metric tags t2 v2).
  set (p3 := point_of metric tags t3 v3).
  set (p0 := point_of metric tags t0 v0).
  set (q1 := {| points := (p1, zeroDataPoint); index := 1 |}).
  set (l1 := ({[ k := q1 ]} : gmap string pair)).
  (* first point *)
  assert (H1 : index_last ∅ p1 = Some l1).
  { rewrite index_last_first; [done|apply lookup_empty|simpl; lia]. }
  (* second point *)
  destruct (index_last_accepts l1 p2 q1) as (q2 & H2 & Hn2 & Ho2 & Hi2);
    [apply lookup_singleton_eq|simpl; lia|simpl; lia|].
  set (l2 := <[key (series p2) := q2]> l1) in H2.
  (* third point *)
  destruct (index_last_accepts l2 p3 q2) as (q3 & H3 & Hn3 & Ho3 & Hi3);
    [apply lookup_insert_eq|rewrite Hi2; simpl; lia
    |rewrite Ho2; simpl; lia|].
  set (l3 := <[key (series p3) := q3]> l2) in H3.
  assert (Hb3 : last_batch (Last NewSearch) [p1; p2; p3] = Some l3).
  { unfold last_batch. simpl. rewrite H1. simpl. rewrite H2. simpl. done. }
  destruct (Index_Some _ _ _ Hb3) as (s3 & Hs3 & HL3).
  (* fourth point *)
  destruct (index_last_accepts l3 p0 q3)
    as (q4 & H4 & Hn4 & Ho4 & Hi4);
    [apply lookup_insert_eq|rewrite Hi3, Hi2; simpl; lia
    |rewrite Ho3, Hn2; simpl; lia|].
  assert (Hb4 : last_batch (Last s3) [p0] = Some (<[key (series p0) := q4]> l3)).
  { unfold last_batch. simpl. by rewrite HL3, H4. }
  destruct (Index_Some _ _ _ Hb4) as (s4 & Hs4 & HL4).
  exists s3, s4. split; [done|]. split; [|split; [done|]].
  - rewrite (GetLast_known s3 metric (TagSet_String tags) true q3).
    + rewrite Hn3, Ho3, Hn2. simpl.
      destruct (Z.eqb_spec t2 0); [lia|]. destruct (Z.eqb_spec t3 0); [lia|].
      done.
    + rewrite HL3. apply lookup_insert_eq.
    + rewrite Hi3, Hi2. simpl. lia.
  - rewrite (GetLast_known s4 metric (TagSet_String tags) false q4).
    + rewrite Hn4. done.
    + rewrite HL4. apply lookup_insert_eq.
    + rewrite Hi4, Hi3, Hi2. simpl. lia.
Qed.

(** The second ingestion of a point that opened its series is promoted. *)
Lemma Index_twice_fresh_series s dp :
  Last s !! key (series dp) = None ->
  (0 < Timestamp dp)%Z ->
  exists s', Index s [dp; dp] = Some s'
             /\ Last s' !! key (series dp)
                = Some {| points := (dp, dp); index := 2 |}.
Proof.
  intros Hk Hts.
  assert (Hb : last_batch (Last s) [dp; dp]
               = Some (<[key (series dp) := {| points := (dp, dp); index := 2 |}]>
                         (<[key (series dp) :=
                              {| points := (dp, zeroDataPoint); index := 1 |}]>
                            (Last s)))).
  { unfold last_batch. simpl. rewrite (index_last_first _ _ Hk Hts). simpl.
    unfold index_last. rewrite lookup_insert_eq. simpl.
    by rewrite (proj2 (Z.ltb_lt _ _) Hts). }
  destruct (Index_Some _ _ _ Hb) as (s' & Hs' & HL).
  exists s'. split; [done|]. rewrite HL. apply lookup_insert_eq.
Qed.

(** Every stored point has a positive time, so a zero timestamp marks a
    slot that was never written. *)
Lemma index_last_slots l dp l' :
  pairs_ok l -> index_last l dp = Some l' -> pairs_ok l'.
Proof.
  unfold index_last. intros Hok Hl.
  set (k0 := key (series dp)) in *.
  set (p := match l !! k0 with Some p => p | None => newPair end) in *.
  assert (Hp : slot_ok (points p).1 /\ slot_ok (points p).2).
  { unfold p. destruct (l !! k0) as [p0|] eqn:Hk0; [by apply (Hok k0)|].
    split; by left. }
  assert (Hins : forall p', slot_ok (points p').1 /\ slot_ok (points p').2 ->
                            pairs_ok (<[k0 := p']> l)).
  { intros p' Hp' k q. destruct (decide (k0 = k)) as [<-|Hne].
    - rewrite lookup_insert_eq. by intros [= <-].
    - rewrite lookup_insert_ne by done. apply Hok. }
  destruct (points_get p (Z.rem (index p) 2)) as [cur|] eqn:Hcur;
    simpl in Hl; [|done].
  destruct (Z.ltb_spec (Timestamp cur) (Timestamp dp)) as [Hlt|Hge].
  - assert (Hdp : slot_ok dp).
    { right. unfold points_get in Hcur.
      destruct (Z.rem (index p) 2 =? 0)%Z; simplify_eq.
      - destruct Hp as [[Hz|?] _]; [rewrite Hz in Hlt; simpl in Hlt|]; lia.
      - destruct (Z.rem (index p) 2 =? 1)%Z; simplify_eq.
        destruct Hp as [_ [Hz|?]]; [rewrite Hz in Hlt; simpl in Hlt|]; lia. }
    destruct (points_set p (Z.rem (index p) 2) dp) as [p'|] eqn:Hset;
      simpl in Hl; simplify_eq.
    apply Hins. simpl. unfold points_set in Hset.
    destruct (Z.rem (index p) 2 =? 0)%Z; simplify_eq; simpl; [tauto|].
    destruct (Z.rem (index p) 2 =? 1)%Z; simplify_eq; simpl. tauto.
  - simplify_eq. by apply Hins.
Qed.

Lemma Index_slots mdp s :
  Index NewSearch mdp = Some s -> pairs_ok (Last s).
Proof.
  intros Hs.
  assert (Hl : last_batch ∅ mdp = Some (Last s)).
  { pose proof (Index_Last NewSearch mdp) as HL. rewrite Hs in HL. done. }
  clear Hs. revert Hl. unfold last_batch.
  assert (Hempty : pairs_ok ∅).
  { intros k p. by rewrite lookup_empty. }
  revert Hempty. generalize (∅ : gmap string pair).
  induction mdp as [|dp mdp IH]; intros l Hok; simpl.
  - by intros [= <-].
  - destruct (index_last l dp) as [l'|] eqn:Hl'; simpl.
    + apply IH. by apply (index_last_slots l dp).
    + by rewrite foldl_None.
Qed.

(** ** UniqueMetrics in general *)

Lemma fill_from (ks pre : list string) (m : nat) :
  foldl (fun st k =>
           '(metrics, i) ← st;
           if (i <? length metrics)%nat
           then Some (<[i := k]> metrics, S i)
           else None) (Some (pre ++ replicate m "", length pre)) ks
  = if decide (length ks <= m)%nat
    then Some (pre ++ ks ++ replicate (m - length ks) "",
               (length pre + length ks)%nat)
    else None.
Proof.
  revert pre m. induction ks as [|k ks IH]; intros pre m.
  - destruct (decide (length (@nil string) <= m)%nat) as [_|Hgt];
      [|simpl in Hgt; lia].
    simpl. by rewrite Nat.sub_0_r, Nat.add_0_r.
  - change (foldl ?f ?a (k :: ks)) with (foldl f (f a k) ks).
    cbn beta iota. simpl mbind.
    rewrite length_app, length_replicate.
    destruct m as [|m].
    + rewrite (proj2 (Nat.ltb_ge _ _)) by lia.
      destruct (decide (length (k :: ks) <= 0)%nat) as [Hle|_];
        [simpl in Hle; lia|].
      by apply foldl_None.
    + rewrite (proj2 (Nat.ltb_lt _ _)) by lia.
      rewrite insert_app_r_alt by lia. rewrite Nat.sub_diag.
      change (<[0%nat := k]> (replicate (S m) "")) with (k :: replicate m "").
      replace (S (length pre)) with (length (pre ++ [k]))
        by (rewrite length_app; simpl; lia).
      rewrite (cons_middle k pre), app_assoc, IH.
      rewrite length_app.
      destruct (decide (length ks <= m)%nat) as [Hle|Hgt];
        destruct (decide (length (k :: ks) <= S m)%nat) as [Hle'|Hgt'];
        simpl in *; try lia; [|done].
      rewrite <- !app_assoc. simpl. do 2 f_equal. lia.
Qed.

(** The result has the length of the live table: the published metric
    names, padded with empty strings, sorted; a snapshot with more
    metrics than the live table makes the call panic. *)
Lemma UniqueMetrics_spec s :
  UniqueMetrics s =
    if decide (size (rTagk (read s)) <= size (Tagk s))%nat
    then Some (GoStr.sort_Strings
                 (elements (dom (rTagk (read s)))
                  ++ replicate (size (Tagk s) - size (rTagk (read s))) ""))
    else None.
Proof.
  unfold UniqueMetrics, fill.
  pose proof (fill_from (elements (dom (rTagk (read s)))) [] (size (Tagk s)))
    as Hfill.
  simpl in Hfill. rewrite Hfill.
  assert (Hlen : length (elements (dom (rTagk (read s)))) = size (rTagk (read s))).
  { rewrite <- size_dom. reflexivity. }
  rewrite Hlen.
  by destruct (decide (size (rTagk (read s)) <= size (Tagk s))%nat).
Qed.

(** * Further properties of the code *)

(** ** Sorting and the key loops *)

Lemma elem_of_sort_Strings x l : x ∈ GoStr.sort_Strings l <-> x ∈ l.
Proof. unfold GoStr.sort_Strings. by rewrite merge_sort_Permutation. Qed.

Lemma sort_Strings_NoDup l : NoDup l -> NoDup (GoStr.sort_Strings l).
Proof. unfold GoStr.sort_Strings. by rewrite merge_sort_Permutation. Qed.


(** The slice of the length of the map is filled exactly: the loop
    never runs past its end. *)
Lemma sorted_keys_spec (tagvset : gmap string bool) :
  sorted_keys tagvset = Some (GoStr.sort_Strings (elements (dom tagvset))).
Proof.
  unfold sorted_keys, fill.
  pose proof (fill_from (elements (dom tagvset)) [] (size tagvset)) as Hfill.
  simpl in Hfill. rewrite Hfill.
  assert (Hlen : length (elements (dom tagvset)) = size tagvset).
  { rewrite <- size_dom. reflexivity. }
  rewrite Hlen.
  destruct (decide (size tagvset <= size tagvset)%nat) as [_|Hgt]; [|lia].
  simpl. by rewrite Nat.sub_diag, app_nil_r.
Qed.

(** ** The copies of the tables *)

Lemma present_Copy_id (p : present) : present_Copy p = p.
Proof.
  unfold present_Copy.
  assert (Hfold : forall l (m : present),
    foldl (fun (m : present) k => {[k]} ∪ m) m l = list_to_set l ∪ m).
  { induction l as [|k l IH]; intros m; simpl.
    - by rewrite (left_id_L ∅ (∪)).
    - rewrite IH. rewrite (comm_L (∪) {[k]} (list_to_set l)).
      by rewrite <- (assoc_L (∪)). }
  rewrite Hfold, (right_id_L ∅ (∪)). apply list_to_set_elements_L.
Qed.

(** Inserting the entries of a map one by one into the empty map gives
    the map back, whatever is done to the values on the way. *)
Lemma foldl_insert_all {K} `{Countable K} {V} (f : V -> V) (m : gmap K V) :
  (forall v, f v = v) ->
  foldl (fun (acc : gmap K V) kv => <[kv.1 := f kv.2]> acc) ∅ (map_to_list m) = m.
Proof.
  intros Hf.
  assert (Hfold : forall (l : list (K * V)) (acc : gmap K V),
    NoDup (l.*1) ->
    foldl (fun (acc : gmap K V) kv => <[kv.1 := f kv.2]> acc) acc l
    = list_to_map l ∪ acc).
  { induction l as [|[k v] l IH]; intros acc Hnd; simpl.
    - by rewrite (left_id_L ∅ (∪)).
    - apply NoDup_cons in Hnd as [Hk Hnd]. rewrite (IH _ Hnd), Hf.
      apply map_eq. intros i.
      destruct (decide (k = i)) as [->|Hne].
      + rewrite lookup_union_r by by apply not_elem_of_list_to_map_1.
        rewrite lookup_insert_eq. symmetry.
        apply lookup_union_Some_l. apply lookup_insert_eq.
      + rewrite !lookup_union, lookup_insert_ne by done.
        by rewrite lookup_insert_ne. }
  rewrite Hfold by apply NoDup_fst_map_to_list.
  by rewrite (right_id_L ∅ (∪)), list_to_map_to_list.
Qed.

(** X1: the replica that Copy builds with the four Copy loops holds
    exactly the live tables, and publishing stores it as the snapshot
    without touching the live tables or the last-two-points cache. *)
Theorem Copy_is_exact s :
  copied s = live s
  /\ read (publish s) = copied s
  /\ live (publish s) = live s
  /\ Last (publish s) = Last s.
Proof.
  assert (Hc : copied s = live s).
  { unfold copied, live, qmap_Copy, smap_Copy, mtsmap_Copy, range_map.
    f_equal.
    - apply (foldl_insert_all present_Copy), present_Copy_id.
    - apply (foldl_insert_all present_Copy), present_Copy_id.
    - apply (foldl_insert_all present_Copy), present_Copy_id.
    - by apply (foldl_insert_all (fun v => v)). }
  split; [done|]. by rewrite Hc.
Qed.

(** ** What the tables hold after ingestion *)

Section Has.
Context {K : Type} {EqK : EqDecision K} {CountK : Countable K}.
Implicit Types (m : gmap K present) (q : K) (x : string).

Lemma has_present_add m q x q' x' :
  has (present_add m q x) q' x' <-> (q = q' /\ x = x') \/ has m q' x'.
Proof.
  unfold has. rewrite present_add_lookup.
  destruct (decide (q = q')) as [->|Hne]; simpl.
  - rewrite elem_of_union, elem_of_singleton.
    split; [intros [->|?]|intros [[_ ->]|?]]; tauto.
  - split; [tauto|]. intros [[? _]|?]; done.
Qed.

Lemma no_empty_present_add m q x :
  no_empty m -> no_empty (present_add m q x).
Proof.
  intros Hm q' X. rewrite present_add_lookup.
  destruct (decide (q = q')) as [->|Hne].
  - intros [= <-] Hempty.
    assert (Hx : x ∈ ({[x]} ∪ default ∅ (m !! q') : gset string)).
    { apply elem_of_union_l. by apply elem_of_singleton. }
    rewrite Hempty in Hx. by apply not_elem_of_empty in Hx.
  - apply Hm.
Qed.

Lemma has_dom m q :
  no_empty m -> (q ∈ dom m <-> exists x, has m q x).
Proof.
  intros Hm. unfold has. rewrite elem_of_dom. split.
  - intros [X HX]. rewrite HX. simpl.
    destruct (set_choose_or_empty X) as [[x Hx]|Hempty%leibniz_equiv].
    + by exists x.
    + by destruct (Hm q X).
  - intros [x Hx]. destruct (m !! q) as [X|]; [by eexists|].
    simpl in Hx. by apply not_elem_of_empty in Hx.
Qed.
End Has.

(** The loop over the tags of one point, run over the list [l]. *)
Lemma index_tags_spec metric (l : list (string * string)) :
  forall t,
    let t' := foldl (fun t kv => index_tag metric t kv.1 kv.2) t l in
    (forall k v m, has (rMetric t') (k, v) m
                   <-> ((k, v) ∈ l /\ m = metric) \/ has (rMetric t) (k, v) m)
    /\ (forall m k, has (rTagk t') m k
                    <-> (m = metric /\ exists v, (k, v) ∈ l) \/ has (rTagk t) m k)
    /\ (forall m k v, has (rTagv t') (m, k) v
                      <-> (m = metric /\ (k, v) ∈ l) \/ has (rTagv t) (m, k) v)
    /\ rMetricTags t' = rMetricTags t
    /\ (no_empty (rMetric t) -> no_empty (rMetric t'))
    /\ (no_empty (rTagk t) -> no_empty (rTagk t'))
    /\ (no_empty (rTagv t) -> no_empty (rTagv t')).
Proof.
  induction l as [|[k0 v0] l IH]; intros t; simpl.
  - split_and!; try done.
    + intros k v m. rewrite elem_of_nil. tauto.
    + intros m k. setoid_rewrite elem_of_nil. split; [by right|].
      intros [[_ [_ []]]|?]; done.
    + intros m k v. rewrite elem_of_nil. tauto.
  - destruct (IH (index_tag metric t k0 v0))
      as (HM & HK & HV & HR & HeM & HeK & HeV).
    simpl in *. split_and!.
    + intros k v m. rewrite HM, has_present_add, elem_of_cons.
      split; [intros [[? ->]|[[[= -> ->] ->]|?]]|intros [[[[= -> ->]|?] ->]|?]];
        tauto.
    + intros m k. rewrite HK, has_present_add. setoid_rewrite elem_of_cons.
      split.
      * intros [[-> [v Hv]]|[[-> ->]|?]]; [left|left|by right].
        -- split; [done|]. exists v. by right.
        -- split; [done|]. exists v0. by left.
      * intros [[-> [v [[= -> ->]|Hv]]]|?]; [right; by left|left|right; by right].
        split; [done|]. by exists v.
    + intros m k v. rewrite HV, has_present_add, elem_of_cons.
      split; [intros [[-> ?]|[[[= -> ->] ->]|?]]|intros [[-> [[= -> ->]|?]]|?]];
        tauto.
    + done.
    + intros Hne. by apply HeM, no_empty_present_add.
    + intros Hne. by apply HeK, no_empty_present_add.
    + intros Hne. by apply HeV, no_empty_present_add.
Qed.

(** The tables after one point. *)
Lemma index_tables_spec t dp :
  let t' := index_tables t dp in
  (forall k v m, has (rMetric t') (k, v) m
                 <-> (Tags dp !! k = Some v /\ m = opentsdb.Metric dp)
                     \/ has (rMetric t) (k, v) m)
  /\ (forall m k, has (rTagk t') m k
                  <-> (m = opentsdb.Metric dp /\ is_Some (Tags dp !! k))
                      \/ has (rTagk t) m k)
  /\ (forall m k v, has (rTagv t') (m, k) v
                    <-> (m = opentsdb.Metric dp /\ Tags dp !! k = Some v)
                        \/ has (rTagv t) (m, k) v)
  /\ rMetricTags t' = <[key (series dp) := series dp]> (rMetricTags t)
  /\ (no_empty (rMetric t) -> no_empty (rMetric t'))
  /\ (no_empty (rTagk t) -> no_empty (rTagk t'))
  /\ (no_empty (rTagv t) -> no_empty (rTagv t')).
Proof.
  unfold index_tables, range_map.
  destruct (index_tags_spec (opentsdb.Metric dp) (map_to_list (Tags dp))
              {| rMetric := rMetric t; rTagk := rTagk t; rTagv := rTagv t;
                 rMetricTags := <[key (series dp) := series dp]> (rMetricTags t) |})
    as (HM & HK & HV & HR & HeM & HeK & HeV).
  simpl in *. split_and!; try done.
  - intros k v m. rewrite HM, elem_of_map_to_list. tauto.
  - intros m k. rewrite HK. setoid_rewrite elem_of_map_to_list.
    unfold is_Some. tauto.
  - intros m k v. rewrite HV, elem_of_map_to_list. tauto.
Qed.

(** [Index] threads [index_tables] through the batch and leaves the
    snapshot alone. *)
Lemma Index_live_read s mdp s' :
  Index s mdp = Some s' ->
  live s' = foldl index_tables (live s) mdp /\ read s' = read s.
Proof.
  unfold Index.
  set (s0 := if negb (copy s) then set_copy s true else s).
  assert (H0 : live s = live s0 /\ read s = read s0)
    by (unfold s0; by destruct (copy s)).
  destruct H0 as [-> ->]. generalize s0. clear s0.
  induction mdp as [|dp mdp IH]; intros s0; simpl.
  - by intros [= <-].
  - destruct (Index_point s0 dp) as [s1|] eqn:H1; simpl.
    + intros Hs'. destruct (IH s1 Hs') as [-> ->].
      rewrite (Index_point_live _ _ _ H1). split; [done|].
      unfold Index_point in H1.
      destruct (index_last (Last s0) dp); by simplify_eq/=.
    + by rewrite foldl_None.
Qed.

(** The tables after a batch hold what they held and what the points
    of the batch bring. *)
Lemma index_batch_spec (mdp : list DataPoint) :
  forall t,
    let t' := foldl index_tables t mdp in
    (forall k v m, has (rMetric t') (k, v) m
       <-> (exists dp, dp ∈ mdp /\ Tags dp !! k = Some v /\ m = opentsdb.Metric dp)
           \/ has (rMetric t) (k, v) m)
    /\ (forall m k, has (rTagk t') m k
       <-> (exists dp, dp ∈ mdp /\ m = opentsdb.Metric dp /\ is_Some (Tags dp !! k))
           \/ has (rTagk t) m k)
    /\ (forall m k v, has (rTagv t') (m, k) v
       <-> (exists dp, dp ∈ mdp /\ m = opentsdb.Metric dp /\ Tags dp !! k = Some v)
           \/ has (rTagv t) (m, k) v)
    /\ (forall id, is_Some (rMetricTags t !! id) -> is_Some (rMetricTags t' !! id))
    /\ (forall dp, dp ∈ mdp -> is_Some (rMetricTags t' !! key (series dp)))
    /\ (forall id mts, rMetricTags t' !! id = Some mts ->
          rMetricTags t !! id = Some mts \/ exists dp, dp ∈ mdp /\ mts = series dp)
    /\ (no_empty (rMetric t) -> no_empty (rMetric t'))
    /\ (no_empty (rTagk t) -> no_empty (rTagk t'))
    /\ (no_empty (rTagv t) -> no_empty (rTagv t')).
Proof.
  induction mdp as [|dp0 mdp IH]; intros t; simpl.
  - split_and!; try done.
    + intros k v m. split; [by right|]. intros [(dp & Hin & _)|?]; [|done].
      by apply elem_of_nil in Hin.
    + intros m k. split; [by right|]. intros [(dp & Hin & _)|?]; [|done].
      by apply elem_of_nil in Hin.
    + intros m k v. split; [by right|]. intros [(dp & Hin & _)|?]; [|done].
      by apply elem_of_nil in Hin.
    + intros dp Hin. by apply elem_of_nil in Hin.
    + intros id mts ?. by left.
  - destruct (IH (index_tables t dp0))
      as (HM & HK & HV & HR & HN & HO & HeM & HeK & HeV).
    destruct (index_tables_spec t dp0)
      as (HM0 & HK0 & HV0 & HR0 & HeM0 & HeK0 & HeV0).
    simpl in *. split_and!.
    + intros k v m. rewrite HM, HM0. setoid_rewrite elem_of_cons. split.
      * intros [(dp & Hin & ? & ?)|[[? ?]|?]]; [left|left|by right].
        -- exists dp. auto.
        -- exists dp0. auto.
      * intros [(dp & [->|Hin] & ? & ?)|?]; [right; left; auto|left|right; by right].
        exists dp. auto.
    + intros m k. rewrite HK, HK0. setoid_rewrite elem_of_cons. split.
      * intros [(dp & Hin & ? & ?)|[[? ?]|?]]; [left|left|by right].
        -- exists dp. auto.
        -- exists dp0. auto.
      * intros [(dp & [->|Hin] & ? & ?)|?]; [right; left; auto|left|right; by right].
        exists dp. auto.
    + intros m k v. rewrite HV, HV0. setoid_rewrite elem_of_cons. split.
      * intros [(dp & Hin & ? & ?)|[[? ?]|?]]; [left|left|by right].
        -- exists dp. auto.
        -- exists dp0. auto.
      * intros [(dp & [->|Hin] & ? & ?)|?]; [right; left; auto|left|right; by right].
        exists dp. auto.
    + intros id Hid. apply HR. rewrite HR0.
      destruct (decide (key (series dp0) = id)) as [<-|Hne].
      * rewrite lookup_insert_eq. by eexists.
      * by rewrite lookup_insert_ne.
    + intros dp [->|Hin]%elem_of_cons; [|by apply HN].
      apply HR. rewrite HR0, lookup_insert_eq. by eexists.
    + intros id mts Hid. destruct (HO id mts Hid) as [Hold|(dp & Hin & ->)].
      * rewrite HR0 in Hold.
        destruct (decide (key (series dp0) = id)) as [<-|Hne].
        -- rewrite lookup_insert_eq in Hold. simplify_eq.
           right. exists dp0. split; [by left|done].
        -- rewrite lookup_insert_ne in Hold by done. by left.
      * right. exists dp. split; [by right|done].
    + auto.
    + auto.
    + auto.
Qed.

(** ** The queries on the snapshot *)

Lemma elem_of_MetricsByTagPair s k v m :
  m ∈ MetricsByTagPair s k v <-> has (rMetric (read s)) (k, v) m.
Proof.
  unfold MetricsByTagPair, has. by rewrite elem_of_sort_Strings, elem_of_elements.
Qed.

Lemma elem_of_TagKeysByMetric s m k :
  k ∈ TagKeysByMetric s m <-> has (rTagk (read s)) m k.
Proof.
  unfold TagKeysByMetric, has. by rewrite elem_of_sort_Strings, elem_of_elements.
Qed.

Lemma elem_of_TagValuesByMetricTagKey s m k v :
  v ∈ TagValuesByMetricTagKey s m k <-> has (rTagv (read s)) (m, k) v.
Proof.
  unfold TagValuesByMetricTagKey, has.
  by rewrite elem_of_sort_Strings, elem_of_elements.
Qed.

(** X3: once a batch is published, the metrics listed under a tag pair
    are those listed before the batch and the metrics of the points of
    the batch that carry the pair. *)
Theorem MetricsByTagPair_published s mdp s' k v m :
  Index s mdp = Some s' ->
  m ∈ MetricsByTagPair (publish s') k v
  <-> (exists dp, dp ∈ mdp /\ opentsdb.Metric dp = m /\ Tags dp !! k = Some v)
      \/ m ∈ MetricsByTagPair (publish s) k v.
Proof.
  intros Hs. destruct (Index_live_read _ _ _ Hs) as [Hl _].
  rewrite !elem_of_MetricsByTagPair. simpl.
  change (Metric s') with (rMetric (live s')). rewrite Hl.
  destruct (index_batch_spec mdp (live s)) as (HM & _). rewrite HM. simpl.
  split; (intros [(dp & ? & ? & ?)|?]; [left; exists dp; auto|by right]).
Qed.

Lemma MetricsByTagPair_published_witness :
  "cpu" ∈ MetricsByTagPair (publish one_point) "host" "a"
  <-> (exists dp, dp ∈ [pt 1 1] /\ opentsdb.Metric dp = "cpu"
                  /\ Tags dp !! "host" = Some "a")
      \/ "cpu" ∈ MetricsByTagPair (publish NewSearch) "host" "a".
Proof.
  apply (MetricsByTagPair_published NewSearch [pt 1 1] one_point).
  vm_compute. reflexivity.
Defined.

(** X4: once a batch is published, the tag keys listed for a metric are
    those listed before and the tag keys of the points of the batch that
    belong to the metric. *)
Theorem TagKeysByMetric_published s mdp s' m k :
  Index s mdp = Some s' ->
  k ∈ TagKeysByMetric (publish s') m
  <-> (exists dp, dp ∈ mdp /\ opentsdb.Metric dp = m /\ is_Some (Tags dp !! k))
      \/ k ∈ TagKeysByMetric (publish s) m.
Proof.
  intros Hs. destruct (Index_live_read _ _ _ Hs) as [Hl _].
  rewrite !elem_of_TagKeysByMetric. simpl.
  change (Tagk s') with (rTagk (live s')). rewrite Hl.
  destruct (index_batch_spec mdp (live s)) as (_ & HK & _). rewrite HK. simpl.
  split; (intros [(dp & ? & ? & ?)|?]; [left; exists dp; auto|by right]).
Qed.

Lemma TagKeysByMetric_published_witness :
  "host" ∈ TagKeysByMetric (publish one_point) "cpu"
  <-> (exists dp, dp ∈ [pt 1 1] /\ opentsdb.Metric dp = "cpu"
                  /\ is_Some (Tags dp !! "host"))
      \/ "host" ∈ TagKeysByMetric (publish NewSearch) "cpu".
Proof.
  apply (TagKeysByMetric_published NewSearch [pt 1 1] one_point).
  vm_compute. reflexivity.
Defined.

(** X5: once a batch is published, the tag values listed for a metric
    and a tag key are those listed before and the values that the points
    of the batch of that metric give to the key. *)
Theorem TagValuesByMetricTagKey_published s mdp s' m k v :
  Index s mdp = Some s' ->
  v ∈ TagValuesByMetricTagKey (publish s') m k
  <-> (exists dp, dp ∈ mdp /\ opentsdb.Metric dp = m /\ Tags dp !! k = Some v)
      \/ v ∈ TagValuesByMetricTagKey (publish s) m k.
Proof.
  intros Hs. destruct (Index_live_read _ _ _ Hs) as [Hl _].
  rewrite !elem_of_TagValuesByMetricTagKey. simpl.
  change (Tagv s') with (rTagv (live s')). rewrite Hl.
  destruct (index_batch_spec mdp (live s)) as (_ & _ & HV & _). rewrite HV. simpl.
  split; (intros [(dp & ? & ? & ?)|?]; [left; exists dp; auto|by right]).
Qed.

Lemma TagValuesByMetricTagKey_published_witness :
  "a" ∈ TagValuesByMetricTagKey (publish one_point) "cpu" "host"
  <-> (exists dp, dp ∈ [pt 1 1] /\ opentsdb.Metric dp = "cpu"
                  /\ Tags dp !! "host" = Some "a")
      \/ "a" ∈ TagValuesByMetricTagKey (publish NewSearch) "cpu" "host".
Proof.
  apply (TagValuesByMetricTagKey_published NewSearch [pt 1 1] one_point).
  vm_compute. reflexivity.
Defined.


(** ** Invariants of the reachable states *)

Lemma has_empty {K} `{Countable K} (q : K) x : ~ has (∅ : gmap K present) q x.
Proof. unfold has. rewrite lookup_empty. simpl. apply not_elem_of_empty. Qed.

Lemma no_empty_empty {K} `{Countable K} : no_empty (∅ : gmap K present).
Proof. intros q X. by rewrite lookup_empty. Qed.

Lemma tables_ok_new : tables_ok (live NewSearch).
Proof.
  split; simpl; try apply no_empty_empty.
  - intros m k v. split; intros Hh; by apply has_empty in Hh.
  - intros m k. split; [intros Hh|intros [v Hh]]; by apply has_empty in Hh.
  - intros id mts k v. by rewrite lookup_empty.
Qed.

(** A batch keeps the tables consistent and only adds to them. *)
Lemma tables_ok_batch t mdp :
  tables_ok t -> tables_ok (foldl index_tables t mdp).
Proof.
  intros [Hp Hk Hr HeM HeK HeV].
  destruct (index_batch_spec mdp t)
    as (HM & HK & HV & HR & HN & HO & HeM' & HeK' & HeV').
  simpl in *. split; auto.
  - intros m k v. rewrite HV, HM, Hp.
    split; (intros [(dp & ? & ? & ?)|?]; [left; exists dp; auto|by right]).
  - intros m k. rewrite HK. setoid_rewrite HV. rewrite Hk. split.
    + intros [(dp & Hin & -> & [v Hv])|[v Hv]].
      * exists v. left. exists dp. auto.
      * exists v. by right.
    + intros [v [(dp & Hin & -> & Hv)|Hv]].
      * left. exists dp. split_and!; [done..|]. by exists v.
      * right. by exists v.
  - intros id mts k v Hid Hkv. rewrite HV.
    destruct (HO id mts Hid) as [Hold|(dp & Hin & ->)].
    + right. by apply (Hr id).
    + left. exists dp. auto.
Qed.

Lemma tables_le_batch t mdp : tables_le t (foldl index_tables t mdp).
Proof.
  destruct (index_batch_spec mdp t) as (HM & HK & HV & HR & _).
  simpl in *. split.
  - intros [k v] x Hx. rewrite HM. by right.
  - intros m k Hk. rewrite HK. by right.
  - intros [m k] v Hv. rewrite HV. by right.
  - done.
Qed.

Lemma tables_le_refl t : tables_le t t.
Proof. by split. Qed.

Lemma tables_le_trans t1 t2 t3 :
  tables_le t1 t2 -> tables_le t2 t3 -> tables_le t1 t3.
Proof. intros [] []. split; auto. Qed.

(** What holds in every reachable state: live tables and snapshot are
    each consistent, and the snapshot is within the live tables. *)
Lemma reachable_invariant s :
  reachable s ->
  tables_ok (live s) /\ tables_ok (read s) /\ tables_le (read s) (live s).
Proof.
  induction 1 as [|s mdp s' _ (Hl & Hr & Hle) Hs|s _ (Hl & Hr & Hle)].
  - split; [apply tables_ok_new|]. split; [apply tables_ok_new|].
    apply tables_le_refl.
  - destruct (Index_live_read _ _ _ Hs) as [-> ->].
    split; [by apply tables_ok_batch|]. split; [done|].
    eapply tables_le_trans; [done|]. apply tables_le_batch.
  - change (read (publish s)) with (live s).
    change (live (publish s)) with (live s).
    split; [done|]. split; [done|]. apply tables_le_refl.
Qed.

(** X7: in every reachable state the answers of the queries agree with
    each other: a metric is listed under a tag pair exactly when the
    value is listed for the metric and the key, and a key is listed for a
    metric exactly when some value is listed for the two. *)
Theorem queries_consistent s :
  reachable s ->
  forall m k,
    (forall v, v ∈ TagValuesByMetricTagKey s m k <-> m ∈ MetricsByTagPair s k v)
    /\ (k ∈ TagKeysByMetric s m <-> exists v, v ∈ TagValuesByMetricTagKey s m k).
Proof.
  intros Hs m k. destruct (reachable_invariant s Hs) as (_ & [Hp Hk _ _ _ _] & _).
  split.
  - intros v. rewrite elem_of_TagValuesByMetricTagKey, elem_of_MetricsByTagPair.
    apply Hp.
  - rewrite elem_of_TagKeysByMetric.
    setoid_rewrite elem_of_TagValuesByMetricTagKey. apply Hk.
Qed.

Lemma Index_two_batch : Index NewSearch two_batch = Some two_ingested.
Proof. vm_compute. reflexivity. Qed.

Lemma reachable_two_metrics : reachable two_metrics.
Proof.
  apply reach_publish.
  exact (reach_index NewSearch two_batch two_ingested reach_new Index_two_batch).
Qed.

Lemma queries_consistent_witness :
  (forall v, v ∈ TagValuesByMetricTagKey two_metrics "cpu" "host"
             <-> "cpu" ∈ MetricsByTagPair two_metrics "host" v)
  /\ ("host" ∈ TagKeysByMetric two_metrics "cpu"
      <-> exists v, v ∈ TagValuesByMetricTagKey two_metrics "cpu" "host").
Proof.
  apply (queries_consistent two_metrics reachable_two_metrics "cpu" "host").
Defined.

(** ** UniqueMetrics and TagValuesByTagKey on reachable states *)

Lemma snapshot_dom_within s :
  reachable s -> dom (rTagk (read s)) ⊆ dom (Tagk s).
Proof.
  intros Hs. destruct (reachable_invariant s Hs) as (Hl & Hr & Hle).
  intros m Hm. apply (has_dom _ _ (ok_Tagk _ Hr)) in Hm as [k Hk].
  apply (has_dom (Tagk s) m (ok_Tagk _ Hl)). exists k.
  by apply (le_Tagk _ _ Hle).
Qed.

(** X8: in every reachable state UniqueMetrics returns (it does not run
    past the end of its slice); the result has the length of the live
    table, holds every metric of the snapshot, and whatever else it
    holds is the empty string. *)
Theorem UniqueMetrics_reachable s :
  reachable s ->
  exists l, UniqueMetrics s = Some l
    /\ length l = size (Tagk s)
    /\ (forall m, (exists k, k ∈ TagKeysByMetric s m) -> m ∈ l)
    /\ (forall m, m ∈ l -> m = "" \/ exists k, k ∈ TagKeysByMetric s m).
Proof.
  intros Hs. pose proof (snapshot_dom_within s Hs) as Hdom.
  destruct (reachable_invariant s Hs) as (_ & Hr & _).
  assert (Hsize : (size (rTagk (read s)) <= size (Tagk s))%nat).
  { rewrite <- !size_dom. by apply subseteq_size. }
  rewrite UniqueMetrics_spec. rewrite decide_True by done.
  eexists. split; [done|]. split_and!.
  - unfold GoStr.sort_Strings. rewrite merge_sort_Permutation.
    rewrite length_app, length_replicate.
    assert (Hlen : length (elements (dom (rTagk (read s)))) = size (rTagk (read s))).
    { rewrite <- size_dom. reflexivity. }
    rewrite Hlen. lia.
  - intros m [k Hk]. apply elem_of_TagKeysByMetric in Hk.
    rewrite elem_of_sort_Strings, elem_of_app. left.
    apply elem_of_elements, (has_dom _ _ (ok_Tagk _ Hr)). by exists k.
  - intros m. rewrite elem_of_sort_Strings, elem_of_app.
    intros [Hm|Hm].
    + right. apply elem_of_elements, (has_dom _ _ (ok_Tagk _ Hr)) in Hm as [k Hk].
      exists k. by apply elem_of_TagKeysByMetric.
    + left. by apply elem_of_replicate in Hm as [-> _].
Qed.

Lemma UniqueMetrics_reachable_witness :
  exists l, UniqueMetrics two_metrics = Some l
    /\ length l = size (Tagk two_metrics)
    /\ (forall m, (exists k, k ∈ TagKeysByMetric two_metrics m) -> m ∈ l)
    /\ (forall m, m ∈ l -> m = "" \/ exists k, k ∈ TagKeysByMetric two_metrics m).
Proof. apply (UniqueMetrics_reachable two_metrics), reachable_two_metrics. Defined.

(** X9: right after a publish UniqueMetrics lists, once each, exactly
    the metrics known before the batch and the metrics of the points of
    the batch that carry at least one tag; a metric whose points carry no
    tag is not listed. *)
Theorem UniqueMetrics_published s mdp s' :
  reachable s -> Index s mdp = Some s' ->
  exists l, UniqueMetrics (publish s') = Some l
    /\ NoDup l
    /\ forall m, m ∈ l
         <-> (exists dp, dp ∈ mdp /\ opentsdb.Metric dp = m /\ Tags dp <> ∅)
             \/ m ∈ dom (Tagk s).
Proof.
  intros Hs Hi.
  destruct (reachable_invariant s Hs) as (Hl & _ & _).
  destruct (reachable_invariant s' (reach_index _ _ _ Hs Hi)) as (Hl' & _ & _).
  destruct (Index_live_read _ _ _ Hi) as [Hlive _].
  rewrite UniqueMetrics_spec. simpl.
  rewrite decide_True by done. rewrite Nat.sub_diag. simpl. rewrite app_nil_r.
  eexists. split; [done|]. split.
  - apply sort_Strings_NoDup, NoDup_elements.
  - intros m. rewrite elem_of_sort_Strings, elem_of_elements.
    rewrite (has_dom (Tagk s') m (ok_Tagk _ Hl')).
    rewrite (has_dom (Tagk s) m (ok_Tagk _ Hl)).
    change (Tagk s') with (rTagk (live s')). rewrite Hlive.
    destruct (index_batch_spec mdp (live s)) as (_ & HK & _). simpl in HK.
    setoid_rewrite HK. split.
    + intros [k [(dp & Hin & -> & [v Hv])|Hk]].
      * left. exists dp. split_and!; [done..|].
        intros Hempty. by rewrite Hempty, lookup_empty in Hv.
      * right. by exists k.
    + intros [(dp & Hin & <- & Hne)|[k Hk]].
      * apply map_choose in Hne as (k & v & Hv). exists k. left.
        exists dp. split_and!; [done..|]. by exists v.
      * exists k. by right.
Qed.

Lemma UniqueMetrics_published_witness :
  exists l, UniqueMetrics (publish two_ingested) = Some l
    /\ NoDup l
    /\ forall m, m ∈ l
         <-> (exists dp, dp ∈ two_batch /\ opentsdb.Metric dp = m /\ Tags dp <> ∅)
             \/ m ∈ dom (Tagk NewSearch).
Proof.
  apply (UniqueMetrics_published NewSearch two_batch two_ingested).
  - apply reach_new.
  - apply Index_two_batch.
Defined.

Lemma dom_insert_true (l : list string) :
  forall (set : gmap string bool) v,
    v ∈ dom (foldl (fun (set : gmap string bool) tagv => <[tagv := true]> set) set l)
    <-> v ∈ l \/ v ∈ dom set.
Proof.
  induction l as [|x l IH]; intros set v; simpl.
  - rewrite elem_of_nil. tauto.
  - rewrite IH, dom_insert_L, elem_of_union, elem_of_singleton, elem_of_cons.
    tauto.
Qed.

Lemma dom_collect (f : string -> list string) (um : list string) :
  forall (set : gmap string bool) v,
    v ∈ dom (foldl (fun (set : gmap string bool) metric =>
                      foldl (fun (set : gmap string bool) tagv => <[tagv := true]> set)
                            set (f metric)) set um)
    <-> (exists m, m ∈ um /\ v ∈ f m) \/ v ∈ dom set.
Proof.
  induction um as [|m0 um IH]; intros set v; simpl.
  - split; [|intros [(m & Hin & _)|?]; [by apply elem_of_nil in Hin|done]].
    by right.
  - rewrite IH, dom_insert_true. setoid_rewrite elem_of_cons. split.
    + intros [(m & Hin & Hv)|[Hv|Hv]]; [left; exists m; auto|left|by right].
      exists m0. auto.
    + intros [(m & [->|Hin] & Hv)|Hv]; [right; by left|left|right; by right].
      exists m. auto.
Qed.

(** X10: in every reachable state TagValuesByTagKey returns, and its
    result holds exactly the values listed for the tag key under some
    metric; the padding entries of UniqueMetrics add nothing to it. *)
Theorem TagValuesByTagKey_reachable s k :
  reachable s ->
  exists l, TagValuesByTagKey s k = Some l
    /\ forall v, v ∈ l <-> exists m, v ∈ TagValuesByMetricTagKey s m k.
Proof.
  intros Hs. pose proof (snapshot_dom_within s Hs) as Hdom.
  destruct (reachable_invariant s Hs) as (_ & Hr & _).
  assert (Hsize : (size (rTagk (read s)) <= size (Tagk s))%nat).
  { rewrite <- !size_dom. by apply subseteq_size. }
  unfold TagValuesByTagKey. rewrite UniqueMetrics_spec.
  rewrite decide_True by done. simpl. rewrite sorted_keys_spec.
  eexists. split; [done|]. intros v.
  rewrite elem_of_sort_Strings, elem_of_elements.
  rewrite (dom_collect (fun m => TagValuesByMetricTagKey s m k)).
  rewrite dom_empty_L. split.
  - intros [(m & _ & Hv)|Hv]; [by exists m|by apply not_elem_of_empty in Hv].
  - intros [m Hv]. left. exists m. split; [|done].
    rewrite elem_of_sort_Strings, elem_of_app. left.
    apply elem_of_elements, (has_dom _ _ (ok_Tagk _ Hr)). exists k.
    apply (ok_keys _ Hr). exists v. by apply elem_of_TagValuesByMetricTagKey.
Qed.

Lemma TagValuesByTagKey_reachable_witness :
  exists l, TagValuesByTagKey two_metrics "host" = Some l
    /\ forall v, v ∈ l <-> exists m, v ∈ TagValuesByMetricTagKey two_metrics m "host".
Proof.
  apply (TagValuesByTagKey_reachable two_metrics "host"), reachable_two_metrics.
Defined.

(** ** The filtered query *)

(** The loop over the filter accepts a series exactly when the series
    has every filter pair among its tags. *)
Lemma filter_match_subseteq mts (tsf : gmap string string) :
  filter_match mts tsf = true <-> tsf ⊆ mtsTags mts.
Proof.
  unfold filter_match, range_map.
  assert (Hfold : forall (l : list (string * string)) acc,
    foldl (fun (ok : bool) (kv : string * string) =>
             match mtsTags mts !! kv.1 with
             | Some v => if negb (String.eqb v kv.2) then false else ok
             | None => false
             end) acc l = true
    <-> acc = true /\ forall kv, kv ∈ l -> mtsTags mts !! kv.1 = Some kv.2).
  { induction l as [|[k v] l IH]; intros acc; simpl.
    - split; [intros ->; split; [done|]|tauto].
      intros kv Hin. by apply elem_of_nil in Hin.
    - rewrite IH. setoid_rewrite elem_of_cons. split.
      + intros [Hacc Hall].
        destruct (mtsTags mts !! k) as [v'|] eqn:Hk; [|done].
        destruct (String.eqb_spec v' v) as [->|Hne]; simpl in Hacc; [|done].
        split; [done|]. intros kv [->|Hin]; [done|by apply Hall].
      + intros [-> Hall].
        pose proof (Hall (k, v) (or_introl eq_refl)) as Hkv. simpl in Hkv.
        rewrite Hkv, String.eqb_refl. simpl. split; [done|].
        intros kv Hin. apply Hall. by right. }
  rewrite Hfold, map_subseteq_spec. split.
  - intros [_ Hall] k v Hk. apply (Hall (k, v)). by apply elem_of_map_to_list.
  - intros Hall. split; [done|]. intros [k v] Hin. apply Hall.
    by apply elem_of_map_to_list.
Qed.

(** What the filtered query returns, for any state. *)
Lemma Filtered_elem s metric tagk tsf :
  exists l, FilteredTagValuesByMetricTagKey s metric tagk tsf = Some l
    /\ forall v, v ∈ l
         <-> exists id mts, rMetricTags (read s) !! id = Some mts
               /\ mtsMetric mts = metric
               /\ mtsTags mts !! tagk = Some v
               /\ tsf ⊆ mtsTags mts.
Proof.
  unfold FilteredTagValuesByMetricTagKey. rewrite sorted_keys_spec.
  eexists. split; [done|]. intros v.
  rewrite elem_of_sort_Strings, elem_of_elements. unfold range_map.
  assert (Hfold : forall (l : list (string * MetricTagSet)) (set : gmap string bool),
    v ∈ dom (foldl (fun (set : gmap string bool) (kv : string * MetricTagSet) =>
                      if String.eqb metric (mtsMetric kv.2) then
                        match mtsTags kv.2 !! tagk with
                        | Some tagv =>
                            if filter_match kv.2 tsf then <[tagv := true]> set
                            else set
                        | None => set
                        end
                      else set) set l)
    <-> (exists kv, kv ∈ l /\ mtsMetric kv.2 = metric
                    /\ mtsTags kv.2 !! tagk = Some v /\ tsf ⊆ mtsTags kv.2)
        \/ v ∈ dom set).
  { induction l as [|[id mts] l IH]; intros set; simpl.
    - split; [by right|]. intros [(kv & Hin & _)|?]; [|done].
      by apply elem_of_nil in Hin.
    - rewrite IH. setoid_rewrite elem_of_cons. split.
      + intros [(kv & Hin & H1 & H2 & H3)|Hv].
        * left. exists kv. auto.
        * destruct (String.eqb_spec metric (mtsMetric mts)) as [Hm|Hm];
            [|by right].
          destruct (mtsTags mts !! tagk) as [tagv|] eqn:Htag; [|by right].
          destruct (filter_match mts tsf) eqn:Hf; [|by right].
          rewrite dom_insert_L, elem_of_union, elem_of_singleton in Hv.
          destruct Hv as [->|Hv]; [|by right].
          left. exists (id, mts). simpl. split_and!; [by left|done..|].
          by apply filter_match_subseteq.
      + intros [(kv & [->|Hin] & H1 & H2 & H3)|Hv].
        * right. simpl in *. rewrite <- H1, String.eqb_refl, H2.
          rewrite (proj2 (filter_match_subseteq mts tsf) H3).
          rewrite dom_insert_L. apply elem_of_union_l. by apply elem_of_singleton.
        * left. exists kv. auto.
        * right. destruct (String.eqb metric (mtsMetric mts)); [|done].
          destruct (mtsTags mts !! tagk); [|done].
          destruct (filter_match mts tsf); [|done].
          rewrite dom_insert_L. by apply elem_of_union_r. }
  rewrite Hfold, dom_empty_L. split.
  - intros [([id mts] & Hin & H1 & H2 & H3)|Hv];
      [|by apply not_elem_of_empty in Hv].
    exists id, mts. split; [by apply elem_of_map_to_list|done].
  - intros (id & mts & Hid & H1 & H2 & H3). left. exists (id, mts).
    split; [by apply elem_of_map_to_list|done].
Qed.

(** X11: the filtered query always returns, and a value is in its
    result exactly when some series registered in the snapshot has the
    metric, gives that value to the tag key, and carries every pair of
    the filter among its tags (a series without a filter key is left
    out). *)
Theorem Filtered_members s metric tagk tsf :
  exists l, FilteredTagValuesByMetricTagKey s metric tagk tsf = Some l
    /\ forall v, v ∈ l
         <-> exists id mts, rMetricTags (read s) !! id = Some mts
               /\ mtsMetric mts = metric
               /\ mtsTags mts !! tagk = Some v
               /\ tsf ⊆ mtsTags mts.
Proof. apply Filtered_elem. Qed.

(** X12: in every reachable state each value the filtered query returns
    is also returned by the unfiltered query for the same metric and tag
    key, and a larger filter returns no value a smaller one leaves out. *)
Theorem Filtered_within s metric tagk tsf tsf' l l' :
  reachable s ->
  tsf ⊆ tsf' ->
  FilteredTagValuesByMetricTagKey s metric tagk tsf = Some l ->
  FilteredTagValuesByMetricTagKey s metric tagk tsf' = Some l' ->
  (forall v, v ∈ l' -> v ∈ l)
  /\ (forall v, v ∈ l -> v ∈ TagValuesByMetricTagKey s metric tagk).
Proof.
  intros Hs Hsub Hl Hl'.
  destruct (reachable_invariant s Hs) as (_ & Hr & _).
  destruct (Filtered_elem s metric tagk tsf) as (l0 & Hl0 & Hin).
  destruct (Filtered_elem s metric tagk tsf') as (l0' & Hl0' & Hin').
  rewrite Hl in Hl0. rewrite Hl' in Hl0'. simplify_eq. split.
  - intros v. rewrite Hin, Hin'.
    intros (id & mts & H1 & H2 & H3 & H4). exists id, mts.
    split_and!; [done..|]. by etrans.
  - intros v. rewrite Hin. intros (id & mts & H1 & <- & H3 & _).
    apply elem_of_TagValuesByMetricTagKey. by apply (ok_registry _ Hr id).
Qed.

Lemma Filtered_within_witness :
  (forall v, v ∈ @nil string -> v ∈ ["a"])
  /\ (forall v, v ∈ ["a"] -> v ∈ TagValuesByMetricTagKey two_metrics "cpu" "host").
Proof.
  apply (Filtered_within two_metrics "cpu" "host" ∅ {[ "dc" := "us" ]} ["a"] []).
  - apply reachable_two_metrics.
  - apply map_empty_subseteq.
  - vm_compute. reflexivity.
  - vm_compute. reflexivity.
Defined.

(** ** The last-two-points cache, further *)

Lemma last_batch_app l mdp1 mdp2 :
  last_batch l (mdp1 ++ mdp2) = l' ← last_batch l mdp1; last_batch l' mdp2.
Proof.
  unfold last_batch. rewrite foldl_app.
  destruct (foldl _ (Some l) mdp1) as [l1|]; simpl; [done|].
  by rewrite foldl_None.
Qed.

Lemma last_batch_cons l dp mdp :
  last_batch l (dp :: mdp) = l' ← index_last l dp; last_batch l' mdp.
Proof.
  unfold last_batch. simpl.
  destruct (index_last l dp) as [l1|]; simpl; [done|]. by rewrite foldl_None.
Qed.

Lemma Index_to_last_batch s mdp s' :
  Index s mdp = Some s' -> last_batch (Last s) mdp = Some (Last s').
Proof.
  intros Hs. pose proof (Index_Last s mdp) as HL. by rewrite Hs in HL.
Qed.

(** X13: a batch leaves alone the pair of every series that none of its
    points belongs to, and with it what GetLast answers for that series. *)
Theorem Index_other_series_untouched s mdp s' metric tags :
  Index s mdp = Some s' ->
  Forall (fun dp => key (series dp) <> metric +:+ tags) mdp ->
  Last s' !! (metric +:+ tags) = Last s !! (metric +:+ tags)
  /\ forall diff, GetLast s' metric tags diff = GetLast s metric tags diff.
Proof.
  intros Hs Hall. apply Index_to_last_batch in Hs.
  assert (HL : Last s' !! (metric +:+ tags) = Last s !! (metric +:+ tags)).
  { revert Hs. generalize (Last s). generalize (Last s'). clear s s'.
    induction Hall as [|dp mdp Hdp _ IH]; intros l' l.
    - by intros [= ->].
    - rewrite last_batch_cons.
      destruct (index_last l dp) as [l1|] eqn:H1; simpl; [|done].
      intros Hl'. rewrite (IH _ _ Hl').
      by apply (index_last_other l dp l1). }
  split; [done|]. intros diff. unfold GetLast. by rewrite HL.
Qed.

Lemma Index_other_series_untouched_witness :
  Last two_ingested !! ("disk" +:+ "{host=a}")
  = Last NewSearch !! ("disk" +:+ "{host=a}")
  /\ forall diff, GetLast two_ingested "disk" "{host=a}" diff
                  = GetLast NewSearch "disk" "{host=a}" diff.
Proof.
  apply (Index_other_series_untouched NewSearch two_batch two_ingested).
  - apply Index_two_batch.
  - repeat constructor; vm_compute; discriminate.
Defined.

Lemma index_last_cache l dp l' :
  cache_ok l -> index_last l dp = Some l' -> cache_ok l'.
Proof.
  unfold index_last. intros Hok Hl.
  set (k0 := key (series dp)) in *.
  set (p := match l !! k0 with Some p => p | None => newPair end) in *.
  assert (Hp : slot_of k0 (points p).1 /\ slot_of k0 (points p).2).
  { unfold p. destruct (l !! k0) as [p0|] eqn:Hk0; [by apply (Hok k0)|].
    split; by left. }
  assert (Hins : forall p', slot_of k0 (points p').1 /\ slot_of k0 (points p').2 ->
                            cache_ok (<[k0 := p']> l)).
  { intros p' Hp' k q. destruct (decide (k0 = k)) as [<-|Hne].
    - rewrite lookup_insert_eq. by intros [= <-].
    - rewrite lookup_insert_ne by done. apply Hok. }
  destruct (points_get p (Z.rem (index p) 2)) as [cur|] eqn:Hcur;
    simpl in Hl; [|done].
  destruct (Z.ltb_spec (Timestamp cur) (Timestamp dp)) as [Hlt|Hge].
  - assert (Hdp : slot_of k0 dp).
    { right. split; [|done]. unfold points_get in Hcur.
      destruct (Z.rem (index p) 2 =? 0)%Z; simplify_eq.
      - destruct Hp as [[Hz|[? _]] _]; [rewrite Hz in Hlt; simpl in Hlt|]; lia.
      - destruct (Z.rem (index p) 2 =? 1)%Z; simplify_eq.
        destruct Hp as [_ [Hz|[? _]]]; [rewrite Hz in Hlt; simpl in Hlt|]; lia. }
    destruct (points_set p (Z.rem (index p) 2) dp) as [p'|] eqn:Hset;
      simpl in Hl; simplify_eq.
    apply Hins. simpl. unfold points_set in Hset.
    destruct (Z.rem (index p) 2 =? 0)%Z; simplify_eq; simpl; [tauto|].
    destruct (Z.rem (index p) 2 =? 1)%Z; simplify_eq; simpl. tauto.
  - simplify_eq. by apply Hins.
Qed.

Lemma last_batch_cache mdp :
  forall l l', cache_ok l -> last_batch l mdp = Some l' -> cache_ok l'.
Proof.
  induction mdp as [|dp mdp IH]; intros l l' Hok.
  - by intros [= <-].
  - rewrite last_batch_cons.
    destruct (index_last l dp) as [l1|] eqn:H1; simpl; [|done].
    apply IH. by apply (index_last_cache l dp).
Qed.

(** X14: in every reachable state each slot of every pair holds either
    the placeholder or a point with a positive timestamp that belongs to
    the series the pair is stored under; a point with a timestamp of
    zero or less is never stored. *)
Theorem stored_points_positive s k p :
  reachable s ->
  Last s !! k = Some p ->
  slot_of k (points p).1 /\ slot_of k (points p).2.
Proof.
  intros Hs. revert k p.
  change (cache_ok (Last s)).
  induction Hs as [|s mdp s' _ IH Hi|s _ IH].
  - intros k p Hk. simpl in Hk. by rewrite lookup_empty in Hk.
  - apply Index_to_last_batch in Hi. by apply (last_batch_cache mdp (Last s)).
  - done.
Qed.

Lemma stored_points_positive_witness :
  slot_of "cpu{host=a}" (pt 1 1) /\ slot_of "cpu{host=a}" zeroDataPoint.
Proof.
  apply (stored_points_positive two_metrics "cpu{host=a}"
           {| points := (pt 1 1, zeroDataPoint); index := 1 |}).
  - apply reachable_two_metrics.
  - vm_compute. reflexivity.
Defined.

Lemma points_set_older p dp :
  (0 <= index p)%Z ->
  exists p', points_set p (Z.rem (index p) 2) dp = Some p' /\ index p' = index p.
Proof.
  intros Hi. unfold points_set. rewrite Z.rem_mod_nonneg by lia.
  pose proof (Z.mod_pos_bound (index p) 2 eq_refl) as Hb.
  destruct (decide (index p mod 2 = 0)%Z) as [->|Hne]; [by eexists|].
  replace (index p mod 2)%Z with 1%Z by lia. by eexists.
Qed.

Lemma index_last_indices l dp n :
  (0 <= n)%Z -> indices_le n l -> (n < 2 ^ 63 - 1)%Z ->
  exists l', index_last l dp = Some l' /\ indices_le (n + 1) l'.
Proof.
  intros Hn0 Hl Hn. unfold index_last.
  set (k0 := key (series dp)).
  set (p := match l !! k0 with Some p => p | None => newPair end).
  assert (Hp : (0 <= index p <= n)%Z).
  { unfold p. destruct (l !! k0) as [p0|] eqn:Hk0; [by apply (Hl k0)|].
    simpl. lia. }
  assert (Hins : forall p', (0 <= index p' <= n + 1)%Z ->
                            indices_le (n + 1) (<[k0 := p']> l)).
  { intros p' Hp' k q. destruct (decide (k0 = k)) as [<-|Hne].
    - rewrite lookup_insert_eq. by intros [= <-].
    - rewrite lookup_insert_ne by done. intros Hq.
      pose proof (Hl k q Hq). lia. }
  rewrite points_get_older by lia. simpl.
  destruct (Timestamp (older p) <? Timestamp dp)%Z.
  - destruct (points_set_older p dp) as (p' & -> & Hi'); [lia|]. simpl.
    eexists. split; [done|]. apply Hins. simpl.
    unfold wrap64. rewrite Z.mod_small by lia. lia.
  - eexists. split; [done|]. apply Hins. lia.
Qed.

Lemma last_batch_indices mdp :
  forall l n,
    (0 <= n)%Z -> indices_le n l -> (n + Z.of_nat (length mdp) < 2 ^ 63)%Z ->
    exists l', last_batch l mdp = Some l'
               /\ indices_le (n + Z.of_nat (length mdp)) l'.
Proof.
  induction mdp as [|dp mdp IH]; intros l n Hn0 Hl Hn.
  - exists l. split; [done|]. simpl. by rewrite Z.add_0_r.
  - rewrite last_batch_cons. simpl length in *.
    destruct (index_last_indices l dp n Hn0 Hl) as (l1 & -> & Hl1); [lia|]. simpl.
    destruct (IH l1 (n + 1)%Z ltac:(lia) Hl1) as (l' & Hl' & Hi'); [lia|].
    exists l'. split; [done|].
    replace (n + Z.of_nat (S (length mdp)))%Z
      with (n + 1 + Z.of_nat (length mdp))%Z by lia.
    done.
Qed.

(** X15: while the counters of the pairs stay within the range of an
    int, Index returns for every batch (no slot access is out of range),
    each counter grows by at most the length of the batch, and GetLast
    then returns for every series and either [diff]. *)
Theorem Index_no_panic s mdp n :
  (0 <= n)%Z ->
  indices_le n (Last s) ->
  (n + Z.of_nat (length mdp) < 2 ^ 63)%Z ->
  exists s', Index s mdp = Some s'
    /\ indices_le (n + Z.of_nat (length mdp)) (Last s')
    /\ forall metric tags diff, is_Some (GetLast s' metric tags diff).
Proof.
  intros Hn0 Hl Hn.
  destruct (last_batch_indices mdp (Last s) n Hn0 Hl Hn) as (l' & Hl' & Hi').
  destruct (Index_Some _ _ _ Hl') as (s' & Hs' & <-).
  exists s'. split; [done|]. split; [done|].
  intros metric tags diff.
  destruct (Last s' !! (metric +:+ tags)) as [p|] eqn:Hp.
  - pose proof (Hi' _ _ Hp) as Hip.
    rewrite (GetLast_known s' metric tags diff p Hp) by lia.
    simpl. by destruct diff.
  - unfold GetLast. by rewrite Hp.
Qed.

Lemma Index_no_panic_witness :
  exists s', Index NewSearch two_batch = Some s'
    /\ indices_le (0 + Z.of_nat (length two_batch)) (Last s')
    /\ forall metric tags diff, is_Some (GetLast s' metric tags diff).
Proof.
  apply (Index_no_panic NewSearch two_batch 0).
  - lia.
  - intros k p Hk. simpl in Hk. by rewrite lookup_empty in Hk.
  - simpl. lia.
Defined.

(** X16: a point that passes the test of Index is what GetLast then
    reports as the last value of its series. *)
Theorem GetLast_reports_accepted s dp v :
  accepted (Last s) dp ->
  Value dp = VFloat64 v ->
  exists s', Index s [dp] = Some s'
    /\ GetLast s' (opentsdb.Metric dp) (TagSet_String (Tags dp)) false
       = Some (v, None).
Proof.
  unfold accepted. intros Hacc Hv.
  destruct (Last s !! key (series dp)) as [p|] eqn:Hk.
  - destruct Hacc as [Hi Hts].
    destruct (index_last_accepts (Last s) dp p Hk Hi Hts)
      as (p' & Hl & Hn & _ & Hi').
    assert (Hb : last_batch (Last s) [dp] = Some (<[key (series dp) := p']> (Last s))).
    { unfold last_batch. simpl. by rewrite Hl. }
    destruct (Index_Some _ _ _ Hb) as (s' & Hs' & HL).
    exists s'. split; [done|].
    rewrite (GetLast_known s' _ _ false p').
    + simpl. rewrite Hn, Hv. done.
    + rewrite HL. apply lookup_insert_eq.
    + lia.
  - assert (Hb : last_batch (Last s) [dp]
                 = Some (<[key (series dp) :=
                             {| points := (dp, zeroDataPoint); index := 1 |}]> (Last s))).
    { unfold last_batch. simpl. by rewrite (index_last_first _ _ Hk Hacc). }
    destruct (Index_Some _ _ _ Hb) as (s' & Hs' & HL).
    exists s'. split; [done|].
    rewrite (GetLast_known s' _ _ false
               {| points := (dp, zeroDataPoint); index := 1 |}).
    + simpl. unfold newer. simpl. rewrite Hv. done.
    + rewrite HL. apply lookup_insert_eq.
    + simpl. lia.
Qed.

Lemma GetLast_reports_accepted_witness :
  exists s', Index one_point [pt 2 5] = Some s'
    /\ GetLast s' (opentsdb.Metric (pt 2 5)) (TagSet_String (Tags (pt 2 5))) false
       = Some (5%float, None).
Proof.
  apply (GetLast_reports_accepted one_point (pt 2 5) 5%float).
  - vm_compute. split; [split; [discriminate|reflexivity]|reflexivity].
  - reflexivity.
Defined.



Lemma last2_app x y l a b : last2 x y (l ++ [a; b]) = (a, b).
Proof. revert x y. induction l as [|z l IH]; intros x y; simpl; [done|apply IH]. Qed.

Lemma last_batch_in_order k l :
  forall lmap p,
    lmap !! k = Some p ->
    (0 <= index p)%Z ->
    (index p + Z.of_nat (length l) < 2 ^ 63)%Z ->
    (forall dp, dp ∈ l ->
                key (series dp) = k
                /\ (Timestamp (older p) < Timestamp dp)%Z
                /\ (Timestamp (newer p) < Timestamp dp)%Z) ->
    StronglySorted (fun a b => (Timestamp a < Timestamp b)%Z) l ->
    exists l' p',
      last_batch lmap l = Some l'
      /\ l' !! k = Some p'
      /\ index p' = (index p + Z.of_nat (length l))%Z
      /\ (older p', newer p') = last2 (older p) (newer p) l.
Proof.
  induction l as [|dp l IH]; intros lmap p Hk Hi Hn Hall Hs.
  - exists lmap, p. simpl. split_and!; [done|done|lia|done].
  - apply StronglySorted_inv in Hs as [Hs Hlt].
    destruct (Hall dp) as (Hkey & Hold & _); [apply elem_of_cons; by left|].
    simpl length in Hn.
    destruct (index_last_accepts lmap dp p) as (p1 & Hl & Hnew & Hold1 & Hi1).
    { by rewrite Hkey. }
    { lia. }
    { done. }
    rewrite Hkey in Hl.
    destruct (IH (<[k := p1]> lmap) p1) as (l' & p' & Hb & Hk' & Hi' & Hp').
    + apply lookup_insert_eq.
    + lia.
    + lia.
    + intros x Hx. destruct (Hall x) as (Hkx & _ & Hnx).
      { apply elem_of_cons. by right. }
      split; [done|]. rewrite Hold1, Hnew. split; [done|].
      rewrite Forall_forall in Hlt. by apply Hlt.
    + done.
    + exists l', p'. rewrite last_batch_cons, Hl. simpl.
      split_and!; [done|done|simpl length; lia|].
      simpl. by rewrite Hp', Hold1, Hnew.
Qed.

(** X18: points of one new series, ingested in strictly increasing order
    of positive times, leave the last two of them in the pair: GetLast
    then reports the last value, and with [diff] the rate between the
    last two points, both with a nil error. *)
Theorem GetLast_in_order s metric tags l0 a b va vb :
  Last s !! (metric +:+ TagSet_String tags) = None ->
  in_order metric tags (l0 ++ [a; b]) ->
  Forall (fun dp => (0 < Timestamp dp)%Z) (l0 ++ [a; b]) ->
  (Z.of_nat (length l0) + 2 < 2 ^ 63)%Z ->
  Value a = VFloat64 va ->
  Value b = VFloat64 vb ->
  exists s', Index s (l0 ++ [a; b]) = Some s'
    /\ GetLast s' metric (TagSet_String tags) false = Some (vb, None)
    /\ GetLast s' metric (TagSet_String tags) true
       = Some (PrimFloat.div (PrimFloat.sub vb va)
                 (float64_of_int64 (wrap64 (Timestamp b - Timestamp a))),
               None).
Proof.
  intros Hfresh [Hser Hsort] Hpos Hlen Ha Hb.
  set (k := metric +:+ TagSet_String tags) in *.
  assert (Hkey : forall dp, dp ∈ l0 ++ [a; b] -> key (series dp) = k).
  { intros dp Hdp. rewrite Forall_forall in Hser.
    destruct (Hser dp Hdp) as [Hm Ht]. unfold key, series. simpl.
    by rewrite Hm, Ht. }
  assert (Hshape : exists dp l, l0 ++ [a; b] = dp :: l
                                /\ last2 zeroDataPoint dp l = (a, b)
                                /\ length l = S (length l0)).
  { destruct l0 as [|x l0].
    - by exists a, [b].
    - exists x, (l0 ++ [a; b]). split; [done|]. split; [apply last2_app|].
      rewrite length_app. simpl. lia. }
  destruct Hshape as (dp & l & Heq & Hlast & Hlen').
  rewrite Heq in *.
  apply StronglySorted_inv in Hsort as [Hsort Hlt].
  assert (Hdp : (0 < Timestamp dp)%Z).
  { rewrite Forall_forall in Hpos. apply Hpos, elem_of_cons. by left. }
  assert (Hkdp : key (series dp) = k).
  { apply Hkey, elem_of_cons. by left. }
  set (p1 := {| points := (dp, zeroDataPoint); index := 1 |}).
  destruct (last_batch_in_order k l (<[k := p1]> (Last s)) p1)
    as (l' & p' & Hbatch & Hk' & Hi' & Hp').
  { apply lookup_insert_eq. }
  { simpl. lia. }
  { simpl. lia. }
  { intros x Hx. split; [apply Hkey, elem_of_cons; by right|].
    unfold older, newer. simpl. split.
    - rewrite Forall_forall in Hpos. apply Hpos, elem_of_cons. by right.
    - rewrite Forall_forall in Hlt. by apply Hlt. }
  { done. }
  assert (Hall : last_batch (Last s) (dp :: l) = Some l').
  { rewrite last_batch_cons, index_last_first; [|by rewrite Hkdp|done].
    simpl. by rewrite Hkdp. }
  destruct (Index_Some _ _ _ Hall) as (s' & Hs' & HL).
  exists s'. split; [done|].
  assert (Hold : older p' = a /\ newer p' = b).
  { assert (Hz : last2 (older p1) (newer p1) l = (a, b)) by exact Hlast.
    rewrite Hz in Hp'. by injection Hp'. }
  destruct Hold as [Hold Hnew].
  assert (Hta : (0 < Timestamp a)%Z).
  { rewrite Forall_forall in Hpos. apply Hpos. rewrite <- Heq.
    apply elem_of_app. right. apply elem_of_cons. by left. }
  assert (Htb : (0 < Timestamp b)%Z).
  { rewrite Forall_forall in Hpos. apply Hpos. rewrite <- Heq.
    apply elem_of_app. right. apply elem_of_cons. right.
    apply elem_of_cons. by left. }
  assert (Hlook : Last s' !! (metric +:+ TagSet_String tags) = Some p').
  { by rewrite HL. }
  assert (Hrange : (0 <= index p' < 2 ^ 63)%Z).
  { rewrite Hi'. simpl. lia. }
  split.
  - rewrite (GetLast_known s' _ _ false p' Hlook Hrange). simpl.
    unfold is_float64. by rewrite Hnew, Hb.
  - rewrite (GetLast_known s' _ _ true p' Hlook Hrange). simpl.
    unfold is_float64. rewrite Hnew, Hold, Ha, Hb. simpl.
    destruct (Z.eqb_spec (Timestamp a) 0) as [E|_]; [lia|].
    destruct (Z.eqb_spec (Timestamp b) 0) as [E|_]; [lia|]. done.
Qed.

Lemma GetLast_in_order_witness :
  exists s', Index NewSearch ([pt 1 1] ++ [pt 2 2; pt 10 3]) = Some s'
    /\ GetLast s' "cpu" (TagSet_String {[ "host" := "a" ]}) false
       = Some (3%float, None)
    /\ GetLast s' "cpu" (TagSet_String {[ "host" := "a" ]}) true
       = Some (PrimFloat.div (PrimFloat.sub 3 2)
                 (float64_of_int64 (wrap64 (Timestamp (pt 10 3) - Timestamp (pt 2 2)))),
               None).
Proof.
  apply (GetLast_in_order NewSearch "cpu" {[ "host" := "a" ]}
           [pt 1 1] (pt 2 2) (pt 10 3) 2%float 3%float).
  - simpl. apply lookup_empty.
  - split.
    + repeat constructor.
    + repeat constructor; simpl; lia.
  - repeat constructor; simpl; lia.
  - simpl. lia.
  - reflexivity.
  - reflexivity.
Defined.

(** ** The silence engine, further *)

Lemma best_spec now ak (l : list (string * Silence)) :
  forall cur,
    let r := best now ak cur l in
    (default 0 cur <= default 0 r)%Z
    /\ (forall kv, kv ∈ l -> Silenced kv.2 now ak = true ->
                   (End_ kv.2 <= default 0 r)%Z)
    /\ (r = cur
        \/ exists kv, kv ∈ l /\ Silenced kv.2 now ak = true
                      /\ r = Some (End_ kv.2)
                      /\ (default 0 cur < End_ kv.2)%Z).
Proof.
  induction l as [|kv l IH]; intros cur; simpl.
  - split; [lia|]. split; [|by left].
    intros kv Hkv. by apply elem_of_nil in Hkv.
  - set (cur1 := if Silenced kv.2 now ak
                 then if Before (default 0%Z cur) (End_ kv.2)
                      then Some (End_ kv.2) else cur
                 else cur).
    destruct (IH cur1) as (Hle & Hall & Hex).
    fold (best now ak cur1 l) in *.
    assert (Hcur : (default 0 cur <= default 0 cur1)%Z
                   /\ (Silenced kv.2 now ak = true ->
                       (End_ kv.2 <= default 0 cur1)%Z)
                   /\ (cur1 = cur
                       \/ (Silenced kv.2 now ak = true
                           /\ cur1 = Some (End_ kv.2)
                           /\ (default 0 cur < End_ kv.2)%Z))).
    { unfold cur1, Before. destruct (Silenced kv.2 now ak).
      - destruct (Z.ltb_spec (default 0%Z cur) (End_ kv.2)); simpl.
        + split; [lia|]. split; [lia|]. right. done.
        + split; [lia|]. split; [done|]. by left.
      - split; [lia|]. split; [done|]. by left. }
    destruct Hcur as (Hc1 & Hc2 & Hc3).
    split; [lia|]. split.
    + intros x Hx Hsil. apply elem_of_cons in Hx as [->|Hx].
      * specialize (Hc2 Hsil). lia.
      * by apply Hall.
    + destruct Hex as [Hr|(x & Hx & Hsil & Hr & Hlt)].
      * destruct Hc3 as [Hc3|(Hsil & Hc3 & Hlt)].
        -- left. by rewrite Hr.
        -- right. exists kv. split; [apply elem_of_cons; by left|].
           split; [done|]. split; [by rewrite Hr|done].
      * right. exists x. split; [apply elem_of_cons; by right|].
        split; [done|]. split; [done|]. lia.
Qed.

Lemma Silenced_rules_lookup now ak (l : list (string * Silence)) :
  forall aks : gmap AlertKey Time,
    let r := foldl (fun (aks : gmap AlertKey Time) (kv : string * Silence) =>
                      if Silenced kv.2 now ak then
                        if Before (default 0%Z (aks !! ak)) (End_ kv.2)
                        then <[ak := End_ kv.2]> aks else aks
                      else aks) aks l in
    r !! ak = best now ak (aks !! ak) l
    /\ forall ak', ak' <> ak -> r !! ak' = aks !! ak'.
Proof.
  induction l as [|kv l IH]; intros aks; simpl; [done|].
  destruct (Silenced kv.2 now ak); [|apply IH].
  destruct (Before (default 0%Z (aks !! ak)) (End_ kv.2)); [|apply IH].
  destruct (IH (<[ak := End_ kv.2]> aks)) as [H1 H2].
  split.
  - by rewrite H1, lookup_insert_eq.
  - intros ak' Hne. rewrite (H2 ak' Hne). by apply lookup_insert_ne.
Qed.

Lemma Silenced_alerts_lookup now (rules : gmap string Silence)
    (l : list (AlertKey * State)) :
  NoDup (l.*1) ->
  forall (acc : gmap AlertKey Time) ak,
    foldl (fun (aks : gmap AlertKey Time) (kv : AlertKey * State) =>
             range_map
               (fun (aks : gmap AlertKey Time) (_ : string) (si : Silence) =>
                  if Silenced si now kv.1 then
                    if Before (default 0%Z (aks !! kv.1)) (End_ si)
                    then <[kv.1 := End_ si]> aks else aks
                  else aks)
               aks rules) acc l !! ak
    = if decide (ak ∈ l.*1)
      then best now ak (acc !! ak) (map_to_list rules)
      else acc !! ak.
Proof.
  induction l as [|[a st] l IH]; intros Hnd acc ak.
  - simpl. destruct (decide (ak ∈ [])) as [Hin|_]; [|done].
    by apply elem_of_nil in Hin.
  - rewrite fmap_cons in Hnd |- *. cbn [foldl fst].
    apply NoDup_cons in Hnd as [Ha Hnd]. rewrite (IH Hnd).
    destruct (Silenced_rules_lookup now a (map_to_list rules) acc) as [H1 H2].
    unfold range_map. cbn [fst snd] in H1, H2 |- *.
    destruct (decide (ak = a)) as [->|Hne].
    + destruct (decide (a ∈ l.*1)) as [Hin|_]; [done|].
      destruct (decide (a ∈ a :: l.*1)) as [_|Hout]; [exact H1|].
      exfalso. apply Hout, elem_of_cons. by left.
    + rewrite (H2 ak Hne).
      destruct (decide (ak ∈ l.*1)) as [Hin|Hout];
        destruct (decide (ak ∈ a :: l.*1)) as [Hin'|Hout']; try done.
      * exfalso. apply Hout', elem_of_cons. by right.
      * apply elem_of_cons in Hin' as [?|?]; done.
Qed.

(** X19: Schedule.Silenced lists an alert exactly when the alert has a
    status, some rule silences it now and that rule ends after the zero
    instant; the listed time is the latest end among the rules that
    silence it, whatever the order in which the maps are walked. *)
Theorem Schedule_Silenced_spec now s ak t :
  Schedule_Silenced now s !! ak = Some t <->
  is_Some (status s !! ak)
  /\ (0 < t)%Z
  /\ (exists id si, Silence_ s !! id = Some si
                    /\ Silenced si now ak = true /\ End_ si = t)
  /\ (forall id si, Silence_ s !! id = Some si ->
                    Silenced si now ak = true -> (End_ si <= t)%Z).
Proof.
  unfold Schedule_Silenced. unfold range_map at 1.
  rewrite (Silenced_alerts_lookup now (Silence_ s) (map_to_list (status s)))
    by apply NoDup_fst_map_to_list.
  rewrite lookup_empty.
  destruct (best_spec now ak (map_to_list (Silence_ s)) None)
    as (_ & Hall & Hex).
  simpl in Hall, Hex.
  assert (Hin : ak ∈ (map_to_list (status s)).*1 <-> is_Some (status s !! ak)).
  { rewrite list_elem_of_fmap. split.
    - intros ([a st] & -> & Hx). apply elem_of_map_to_list in Hx. by exists st.
    - intros [st Hst]. exists (ak, st). split; [done|].
      by apply elem_of_map_to_list. }
  destruct (decide (ak ∈ (map_to_list (status s)).*1)) as [Hd|Hd].
  - split.
    + intros Hb. rewrite Hb in Hall, Hex. simpl in Hall.
      destruct Hex as [Hex|([id si] & Hkv & Hsil & Hr & Hlt)]; [done|].
      simpl in *. injection Hr as ->.
      split; [by apply Hin|]. split; [done|]. split.
      * exists id, si. split; [by apply elem_of_map_to_list|done].
      * intros id' si' Hl Hs'. apply (Hall (id', si')); [|done].
        by apply elem_of_map_to_list.
    + intros (_ & Hpos & (id & si & Hl & Hsil & <-) & Hmax).
      apply elem_of_map_to_list in Hl.
      pose proof (Hall (id, si) Hl Hsil) as Hge. simpl in Hge.
      destruct Hex as [Hex|([id' si'] & Hkv & Hsil' & Hr & Hlt)].
      * rewrite Hex in Hge. simpl in Hge. lia.
      * simpl in *. rewrite Hr in Hge |- *. simpl in Hge. f_equal.
        apply elem_of_map_to_list in Hkv.
        pose proof (Hmax id' si' Hkv Hsil'). lia.
  - split; [done|]. intros (Hst & _). by apply Hin in Hst.
Qed.

Lemma Since_le now t : (Since now t <= 0)%Z <-> (now <= t)%Z.
Proof. unfold Since. lia. Qed.

Lemma preview_lookup (si : Silence) (l : list (AlertKey * State)) :
  NoDup (l.*1) ->
  forall (acc : gmap AlertKey bool) ak,
    foldl (fun (aks : gmap AlertKey bool) (kv : AlertKey * State) =>
             if Matches si kv.1 then <[kv.1 := IsActive kv.2]> aks else aks)
          acc l !! ak
    = match (list_to_map l : gmap AlertKey State) !! ak with
      | Some st => if Matches si ak then Some (IsActive st) else acc !! ak
      | None => acc !! ak
      end.
Proof.
  induction l as [|[a st] l IH]; intros Hnd acc ak.
  - simpl. by rewrite lookup_empty.
  - rewrite fmap_cons in Hnd. apply NoDup_cons in Hnd as [Ha Hnd].
    cbn [foldl fst snd]. rewrite list_to_map_cons, (IH Hnd).
    assert (Hl : (list_to_map l : gmap AlertKey State) !! a = None).
    { by apply not_elem_of_list_to_map_1. }
    destruct (decide (ak = a)) as [->|Hne].
    + rewrite Hl. rewrite (lookup_insert_eq (list_to_map l)).
      destruct (Matches si a); [by rewrite lookup_insert_eq|done].
    + rewrite (lookup_insert_ne (list_to_map l)) by done.
      destruct (Matches si a); [|done].
      by rewrite lookup_insert_ne.
Qed.

Section AddSilenceFurther.
Variable sha1_hex : string -> string.
Variable Time_String : Time -> string.

Local Abbreviation AddSilence := (sched.AddSilence sha1_hex Time_String).
Local Abbreviation ID := (sched.ID sha1_hex Time_String).

Lemma AddSilence_cases now s start end_ alert tagList confirm edit :
  let r := AddSilence now s start end_ alert tagList confirm edit in
  (r.2.2 <> None /\ r.1 = s /\ r.2.1 = None
   /\ (start = 0 \/ end_ = 0 \/ end_ < start \/ end_ < now
       \/ (alert = "" /\ tagList = "")
       \/ exists err, ParseAlertKey (alert +:+ "{" +:+ tagList +:+ "}") = Fail err)%Z)
  \/ (r.2.2 = None
      /\ (start <> 0 /\ end_ <> 0 /\ start <= end_ /\ now <= end_)%Z
      /\ (alert <> "" \/ tagList <> "")
      /\ exists ak,
           ParseAlertKey (alert +:+ "{" +:+ tagList +:+ "}") = Ok ak
           /\ let si := {| Start := start; End_ := end_; Alert := ak |} in
              r = if confirm
                  then (Save {| Silence_ := <[ID si := si]> (delete edit (Silence_ s));
                                status := status s; persisted := persisted s |},
                        (None, None))
                  else (s, (Some (range_map
                                    (fun (aks : gmap AlertKey bool) ak st =>
                                       if Matches si ak
                                       then <[ak := IsActive st]> aks else aks)
                                    ∅ (status s)), None))).
Proof.
  unfold sched.AddSilence, IsZero, After.
  destruct (Z.eqb_spec start 0) as [Hs|Hs]; simpl.
  { left. split_and!; try done. by left. }
  destruct (Z.eqb_spec end_ 0) as [He|He]; simpl.
  { left. split_and!; try done. right. by left. }
  destruct (Z.ltb_spec end_ start) as [Hse|Hse].
  { left. split_and!; try done. right. right. by left. }
  destruct (Z.gtb_spec (Since now end_) 0) as [Hn|Hn].
  { left. split_and!; try done. do 3 right. left.
    destruct (Z.lt_ge_cases end_ now) as [|Hge]; [done|].
    apply (proj2 (Since_le now end_)) in Hge. lia. }
  apply (proj1 (Since_le now end_)) in Hn.
  assert (Hempty : String.eqb alert "" && String.eqb tagList "" = true
                   <-> alert = "" /\ tagList = "").
  { rewrite andb_true_iff, !String.eqb_eq. done. }
  destruct (String.eqb alert "" && String.eqb tagList "") eqn:Hat.
  { left. split_and!; try done. do 4 right. left. by apply Hempty. }
  assert (Hne : alert <> "" \/ tagList <> "").
  { destruct (String.eqb_spec alert "") as [->|?]; [|by left].
    destruct (String.eqb_spec tagList "") as [->|?]; [|by right].
    discriminate. }
  destruct (ParseAlertKey _) as [ak|err] eqn:Hp.
  - right. split; [by destruct confirm|]. split; [lia|]. split; [done|].
    exists ak. split; [done|]. by destruct confirm.
  - left. split_and!; try done. do 5 right. by exists err.
Qed.

(** X20: AddSilence returns a nil error exactly when start and end are
    not the zero instant, start is not after end, end is not before now,
    alert and tag list are not both empty, and the alert key parses;
    start equal to end, and end equal to now, are let through. *)
Theorem AddSilence_accepts_iff now s start end_ alert tagList confirm edit :
  (AddSilence now s start end_ alert tagList confirm edit).2.2 = None
  <-> (start <> 0 /\ end_ <> 0 /\ start <= end_ /\ now <= end_)%Z
      /\ (alert <> "" \/ tagList <> "")
      /\ exists ak, ParseAlertKey (alert +:+ "{" +:+ tagList +:+ "}") = Ok ak.
Proof.
  destruct (AddSilence_cases now s start end_ alert tagList confirm edit)
    as [(Herr & _ & _ & Hwhy)|(Hok & Ht & Hne & ak & Hp & _)].
  - split; [done|]. intros (Ht & Hne & ak & Hp). exfalso.
    destruct Hwhy as [?|[?|[?|[?|[[-> ->]|[err Hf]]]]]]; try lia.
    + by destruct Hne.
    + by rewrite Hp in Hf.
  - split; [|done]. intros _. split; [done|]. split; [done|]. by exists ak.
Qed.

(** X21: a confirmed AddSilence that returns a nil error stores the new
    rule under its ID, removes the rule named by [edit] (unless it has
    the ID of the new one), leaves every other rule and the alert
    states alone, returns no preview, and saves the rules it leaves. *)
Theorem AddSilence_confirm now s start end_ alert tagList edit :
  (AddSilence now s start end_ alert tagList true edit).2.2 = None ->
  let r := AddSilence now s start end_ alert tagList true edit in
  exists ak,
    ParseAlertKey (alert +:+ "{" +:+ tagList +:+ "}") = Ok ak
    /\ let si := {| Start := start; End_ := end_; Alert := ak |} in
       r.2.1 = None
       /\ Silence_ r.1 !! ID si = Some si
       /\ (edit <> ID si -> Silence_ r.1 !! edit = None)
       /\ (forall id, id <> ID si -> id <> edit ->
                      Silence_ r.1 !! id = Silence_ s !! id)
       /\ status r.1 = status s
       /\ persisted r.1 = Silence_ r.1.
Proof.
  intros Hok r.
  destruct (AddSilence_cases now s start end_ alert tagList true edit)
    as [(Herr & _)|(_ & _ & _ & ak & Hp & Hr)]; [done|].
  exists ak. split; [done|]. intros si. unfold r. rewrite Hr. simpl.
  split; [done|]. split; [apply lookup_insert_eq|].
  split_and!; try done.
  - intros Hne. rewrite lookup_insert_ne by done. apply lookup_delete_eq.
  - intros id H1 H2. rewrite lookup_insert_ne by done.
    by rewrite lookup_delete_ne.
Qed.

(** X22: confirming the same rule a second time changes nothing, and
    clearing the ID of a rule just added to a schedule that had neither
    that ID nor [edit] gives back the rules as they were, saved. *)
Theorem AddSilence_confirm_again_and_clear now s start end_ alert tagList edit :
  (AddSilence now s start end_ alert tagList true edit).2.2 = None ->
  let s1 := (AddSilence now s start end_ alert tagList true edit).1 in
  AddSilence now s1 start end_ alert tagList true edit
  = AddSilence now s start end_ alert tagList true edit
  /\ forall ak,
       ParseAlertKey (alert +:+ "{" +:+ tagList +:+ "}") = Ok ak ->
       let id := ID {| Start := start; End_ := end_; Alert := ak |} in
       Silence_ s !! id = None ->
       Silence_ s !! edit = None ->
       (ClearSilence s1 id).1 = Save s.
Proof.
  intros Hok s1.
  destruct (AddSilence_cases now s start end_ alert tagList true edit)
    as [(Herr & _)|(_ & Ht & Hne & ak & Hp & Hr)]; [done|].
  destruct (AddSilence_cases now s1 start end_ alert tagList true edit)
    as [(_ & _ & _ & Hwhy)|(_ & _ & _ & ak' & Hp' & Hr')].
  { exfalso.
    destruct Hwhy as [?|[?|[?|[?|[[-> ->]|[err Hf]]]]]]; try lia.
    - by destruct Hne.
    - by rewrite Hp in Hf. }
  rewrite Hp in Hp'. injection Hp' as <-.
  simpl in Hr, Hr'.
  assert (Hs1 : s1 = Save {| Silence_ :=
                               <[ID {| Start := start; End_ := end_; Alert := ak |}
                                 := {| Start := start; End_ := end_; Alert := ak |}]>
                                 (delete edit (Silence_ s));
                             status := status s; persisted := persisted s |}).
  { unfold s1. by rewrite Hr. }
  split.
  - rewrite Hr', Hr. rewrite Hs1. unfold Save.
    cbn [Silence_ status persisted].
    set (si := {| Start := start; End_ := end_; Alert := ak |}).
    assert (Hm : <[ID si := si]> (delete edit (<[ID si := si]> (delete edit (Silence_ s))))
                 = <[ID si := si]> (delete edit (Silence_ s))).
    { apply map_eq. intros i.
      destruct (decide (i = ID si)) as [->|Hi].
      - by rewrite !lookup_insert_eq.
      - rewrite !lookup_insert_ne by done.
        destruct (decide (i = edit)) as [->|He].
        + by rewrite !lookup_delete_eq.
        + rewrite !lookup_delete_ne by done. rewrite lookup_insert_ne by done.
          by rewrite lookup_delete_ne. }
    by rewrite Hm.
  - intros ak0 Hp0 id Hid Hedit. rewrite Hp in Hp0. injection Hp0 as <-.
    set (si := {| Start := start; End_ := end_; Alert := ak |}) in *.
    subst id. unfold ClearSilence. rewrite Hs1. unfold Save.
    cbn [Silence_ status persisted fst].
    assert (Hm : delete (ID si) (<[ID si := si]> (delete edit (Silence_ s)))
                 = Silence_ s).
    { rewrite delete_insert_eq, (delete_id _ edit) by done.
      by apply delete_id. }
    by rewrite Hm.
Qed.

(** X23: a preview (AddSilence without confirm) never changes the
    schedule, and when it returns a nil error the map it gives back
    holds exactly the tracked alerts the rule matches, each with
    whether it is active. *)
Theorem AddSilence_preview now s start end_ alert tagList edit :
  let r := AddSilence now s start end_ alert tagList false edit in
  r.1 = s
  /\ (r.2.2 = None ->
      exists ak aks,
        ParseAlertKey (alert +:+ "{" +:+ tagList +:+ "}") = Ok ak
        /\ r.2.1 = Some aks
        /\ forall a b,
             aks !! a = Some b <->
             exists st, status s !! a = Some st
                        /\ Matches {| Start := start; End_ := end_; Alert := ak |} a = true
                        /\ b = IsActive st).
Proof.
  intros r.
  destruct (AddSilence_cases now s start end_ alert tagList false edit)
    as [(Herr & Hs & _)|(_ & _ & _ & ak & Hp & Hr)].
  - split; [done|]. intros Hok. done.
  - fold r in Hr. simpl in Hr. rewrite Hr. simpl. split; [done|]. intros _.
    eexists ak, _. split; [done|]. split; [done|].
    intros a b. unfold range_map.
    rewrite preview_lookup by apply NoDup_fst_map_to_list.
    rewrite list_to_map_to_list, lookup_empty.
    destruct (status s !! a) as [st|].
    + destruct (Matches _ a).
      * split; [intros [= <-]; by exists st|].
        intros (st' & [= <-] & _ & ->). done.
      * split; [done|]. intros (? & _ & ? & _). done.
    + split; [done|]. intros (? & ? & _). done.
Qed.
End AddSilenceFurther.

Lemma AddSilence_confirm_witness :
  let r := sched.AddSilence (fun x => x) (fun _ => "t") 50 no_rules 100 200 "a" "" true "" in
  exists ak,
    ParseAlertKey ("a" +:+ "{" +:+ "" +:+ "}") = Ok ak
    /\ let si := {| Start := 100; End_ := 200; Alert := ak |} in
       r.2.1 = None
       /\ Silence_ r.1 !! sched.ID (fun x => x) (fun _ => "t") si = Some si
       /\ ("" <> sched.ID (fun x => x) (fun _ => "t") si -> Silence_ r.1 !! "" = None)
       /\ (forall id, id <> sched.ID (fun x => x) (fun _ => "t") si -> id <> "" ->
                      Silence_ r.1 !! id = Silence_ no_rules !! id)
       /\ status r.1 = status no_rules
       /\ persisted r.1 = Silence_ r.1.
Proof.
  apply (AddSilence_confirm (fun x => x) (fun _ => "t") 50 no_rules 100 200 "a" "" "").
  vm_compute. reflexivity.
Defined.

Lemma AddSilence_confirm_again_and_clear_witness :
  let s1 := (sched.AddSilence (fun x => x) (fun _ => "t") 50 no_rules 100 200 "a" "" true "").1 in
  sched.AddSilence (fun x => x) (fun _ => "t") 50 s1 100 200 "a" "" true ""
  = sched.AddSilence (fun x => x) (fun _ => "t") 50 no_rules 100 200 "a" "" true ""
  /\ forall ak,
       ParseAlertKey ("a" +:+ "{" +:+ "" +:+ "}") = Ok ak ->
       let id := sched.ID (fun x => x) (fun _ => "t")
                   {| Start := 100; End_ := 200; Alert := ak |} in
       Silence_ no_rules !! id = None ->
       Silence_ no_rules !! "" = None ->
       (ClearSilence s1 id).1 = Save no_rules.
Proof.
  apply (AddSilence_confirm_again_and_clear
           (fun x => x) (fun _ => "t") 50 no_rules 100 200 "a" "" "").
  vm_compute. reflexivity.
Defined.

(** X24: ClearSilence never returns an error, removes the named rule
    and no other, saves what is left, and clearing is idempotent and
    independent of the order of two calls. *)
Theorem ClearSilence_spec s id id' :
  (ClearSilence s id).2 = None
  /\ Silence_ (ClearSilence s id).1 !! id = None
  /\ (forall i, i <> id ->
                Silence_ (ClearSilence s id).1 !! i = Silence_ s !! i)
  /\ persisted (ClearSilence s id).1 = Silence_ (ClearSilence s id).1
  /\ ClearSilence (ClearSilence s id).1 id = ClearSilence s id
  /\ ClearSilence (ClearSilence s id).1 id'
     = ClearSilence (ClearSilence s id').1 id.
Proof.
  unfold ClearSilence, Save. simpl. split_and!; try done.
  - apply lookup_delete_eq.
  - intros i Hi. by apply lookup_delete_ne.
  - by rewrite delete_delete_eq.
  - by rewrite delete_delete.
Qed.

(** ** The pattern matcher, further *)

(** The matcher of the claims is the matcher over the libraries, at
    the instance [GoRegexp]. *)
Lemma Match_with_model pattern values :
  Match_with GoRegexp.Compile GoRegexp.MatchString pattern values
  = search.Match pattern values.
Proof. reflexivity. Qed.

Section Matcher.
Context {Regexp : Type}.
Variable Compile : string -> result Regexp.
Variable MatchString : Regexp -> string -> bool.

(** X25: whatever the regexp library computes, whether Match fails
    depends on the pattern alone, and when it does not fail each
    candidate is kept or dropped on its own: the result is the
    candidates that Match keeps when given alone, in their order and
    with their repetitions. *)
Theorem Match_pointwise pattern :
  (exists err, forall values,
      Match_with Compile MatchString pattern values = Fail err)
  \/ (forall values,
        Match_with Compile MatchString pattern values
        = Ok (filter (fun v => keeps Compile MatchString pattern v = true) values)).
Proof.
  unfold keeps, Match_with.
  destruct (Compile _) as [re|err]; [right|left; by exists err].
  intros values. f_equal.
  apply (append_loop_filter _ (fun v => _ = true) values []).
  intros v. simpl. by destruct (MatchString re v).
Qed.
End Matcher.

Lemma globb_literal any p s :
  lacks "*" p = true -> globb any p s = String.eqb p s.
Proof.
  revert s. induction p as [|c p IH]; intros s Hp.
  - by destruct s.
  - rewrite lacks_cons in Hp. apply andb_true_iff in Hp as [Hc Hp].
    apply negb_true_iff in Hc. cbn [globb]. rewrite Hc.
    destruct s as [|d s]; [done|]. cbn [String.eqb]. by rewrite IH.
Qed.

(** X26: a pattern without [*], made of [.] and ASCII characters that
    are not regexp metacharacters, keeps exactly the candidates equal to
    it; a [.] in it stands for itself. *)
Theorem Match_literal pattern values :
  plain_pattern pattern = true ->
  lacks "*" pattern = true ->
  search.Match pattern values = Ok (filter (fun v => v = pattern) values).
Proof.
  intros Hp Hstar. unfold search.Match.
  rewrite Match_translation, (Match_compiles _ Hp).
  f_equal. apply (append_loop_filter _ (fun v => v = pattern) values []).
  intros v. rewrite MatchString_begin, match_here_glob.
  rewrite (globb_literal _ _ _ Hstar), String.eqb_eq. split; congruence.
Qed.

Lemma Match_literal_witness :
  plain_pattern "a.b" = true
  /\ search.Match "a.b" ["a.b"; "axb"; "a.bc"]
     = Ok (filter (fun v => v = "a.b") ["a.b"; "axb"; "a.bc"]).
Proof.
  split; [reflexivity|].
  apply (Match_literal "a.b" ["a.b"; "axb"; "a.bc"]); reflexivity.
Defined.

Lemma tr_app p q : tr (p +:+ q) = tr p +:+ tr q.
Proof.
  induction p as [|c p IH].
  - by rewrite !app_nil.
  - rewrite app_cons. cbn [tr]. by rewrite IH, string_app_assoc.
Qed.

Lemma parse_nested_repeat p rest :
  plain_pattern p = true ->
  forall stack l,
    GoRegexp.parse (tr p +:+ ".*+" +:+ rest) stack l
    = inl ErrInvalidRepeatOp.
Proof.
  induction p as [|c p IH]; intros Hp stack l.
  - cbn [tr]. rewrite app_nil. reflexivity.
  - simpl in Hp. apply andb_true_iff in Hp as [Hc Hp].
    specialize (IH Hp). cbn [tr]. unfold tr_char.
    destruct (Ascii.eqb_spec c ".") as [->|Hdot].
    + rewrite string_app_assoc, !app_cons, app_nil. simpl. apply IH.
    + destruct (Ascii.eqb_spec c "*") as [->|Hstar].
      * rewrite string_app_assoc, !app_cons, app_nil. simpl. apply IH.
      * destruct (plain_literal c Hc Hdot Hstar) as (Hr & H1 & H2 & H3 & H4).
        rewrite string_app_assoc, !app_cons, app_nil. simpl.
        rewrite Hr, H1. apply Ascii.eqb_neq in Hdot.
        rewrite Hdot, H2, H3, H4. apply IH.
Qed.

(** X27: a [+] right after a [*] of the pattern makes Match fail with
    the regexp error for a nested repetition operator, whatever follows
    in the pattern and whatever the candidates; the pattern before the
    [*] is one of plain characters. *)
Theorem Match_nested_repeat p rest values :
  plain_pattern p = true ->
  search.Match (p +:+ "*+" +:+ rest) values
  = Fail (syntaxError ErrInvalidRepeatOp).
Proof.
  intros Hp. unfold search.Match.
  rewrite Match_translation, !tr_app.
  change (tr "*+") with ".*+".
  unfold GoRegexp.Compile. rewrite app_cons, app_nil. simpl.
  rewrite !string_app_assoc.
  by rewrite (parse_nested_repeat p _ Hp).
Qed.

Lemma Match_nested_repeat_witness :
  plain_pattern "web" = true
  /\ search.Match ("web" +:+ "*+" +:+ "-01") ["web-01"]
     = Fail (syntaxError ErrInvalidRepeatOp).
Proof.
  split; [reflexivity|].
  apply (Match_nested_repeat "web" "-01" ["web-01"]). reflexivity.
Defined.

(** ** Query expansion, further

    As before, the regexp library and [strings.TrimSpace] are any
    functions. *)

Section ExpandFurther.
Context {Regexp : Type}.
Variable Compile : string -> result Regexp.
Variable MatchString : Regexp -> string -> bool.
Variable TrimSpace : string -> string.

Local Abbreviation expand_tag := (search.expand_tag Compile MatchString TrimSpace).
Local Abbreviation Expand := (search.Expand Compile MatchString TrimSpace).
Local Abbreviation alt_values := (alt_values Compile MatchString TrimSpace).
Local Abbreviation tag_values := (tag_values Compile MatchString TrimSpace).
Local Abbreviation expanded := (expanded Compile MatchString TrimSpace).

Lemma Expand_loop_outcome s (q : Query) (l : list (string * string)) :
  (forall kv, kv ∈ l -> qTags q !! kv.1 = Some kv.2) ->
  forall st : Query * option error,
    let step := fun (st : Query * option error) (kv : string * string) =>
      match st with
      | (q, Some err) => (q, Some err)
      | (q, None) =>
          match expand_tag s (qMetric q) kv.1 kv.2 with
          | Fail err => (q, Some err)
          | Ok nv => ({| qMetric := qMetric q;
                         qTags := <[kv.1 := nv]> (qTags q) |}, None)
          end
      end in
    let ok := fun q' : Query =>
      qMetric q' = qMetric q
      /\ dom (qTags q') = dom (qTags q)
      /\ forall k v', qTags q' !! k = Some v' ->
           exists ov, qTags q !! k = Some ov
                      /\ (v' = ov \/ expand_tag s (qMetric q) k ov = Ok v') in
    ok st.1 -> ok (foldl step st l).1.
Proof.
  intros Hl st step ok. revert st. subst step ok. cbn beta.
  induction l as [|kv l IH]; intros st Hst; [done|].
  cbn [foldl]. apply IH.
  { intros kv' Hin. apply Hl, elem_of_cons. by right. }
  destruct st as [q1 [e|]]; [done|]. simpl in Hst |- *.
  destruct Hst as (Hm & Hd & Hv).
  assert (Hkv : qTags q !! kv.1 = Some kv.2).
  { apply Hl, elem_of_cons. by left. }
  destruct (expand_tag s (qMetric q1) kv.1 kv.2) as [nv|e] eqn:He; simpl.
  - split; [done|]. split.
    + rewrite dom_insert_L, Hd. apply subseteq_union_1_L.
      apply singleton_subseteq_l, elem_of_dom. by eexists.
    + intros k v'. destruct (decide (kv.1 = k)) as [<-|Hne].
      * rewrite lookup_insert_eq. intros [= <-]. exists kv.2.
        split; [done|]. right. by rewrite <- Hm.
      * rewrite lookup_insert_ne by done. apply Hv.
  - done.
Qed.

(** X28: whatever the libraries compute and whatever Expand returns, it
    leaves the metric and the set of tag keys of the query as they were,
    and every tag value is the one the query had or the expansion of it;
    this also holds for the query an error leaves half rewritten. *)
Theorem Expand_outcome s q :
  qMetric (Expand s q).1 = qMetric q
  /\ dom (qTags (Expand s q).1) = dom (qTags q)
  /\ forall k v', qTags (Expand s q).1 !! k = Some v' ->
       exists ov, qTags q !! k = Some ov
                  /\ (v' = ov \/ expand_tag s (qMetric q) k ov = Ok v').
Proof.
  unfold Expand.
  apply (Expand_loop_outcome s q (map_to_list (qTags q))).
  - intros [k v] Hin. by apply elem_of_map_to_list in Hin.
  - simpl. split; [done|]. split; [done|]. intros k v' Hk. exists v'. auto.
Qed.

Lemma split_from_nonempty sep s : forall skip, GoStr.split_from sep s skip <> [].
Proof.
  induction s as [|c s IH]; intros skip; [done|]. cbn [GoStr.split_from].
  destruct skip as [|k]; [|apply IH].
  destruct (String.prefix sep (String c s)); [done|].
  by destruct (GoStr.split_from sep s 0).
Qed.

Lemma collect_values_literal s metric k (alts : list string) :
  (forall alt, alt ∈ alts -> is_wildcard (TrimSpace alt) = false) ->
  collect_values (alt_values s metric k) alts = Ok (TrimSpace <$> alts).
Proof.
  induction alts as [|a alts IH]; intros Hall; [done|].
  cbn [collect_values]. unfold alt_values at 1.
  rewrite (Hall a) by (apply elem_of_cons; by left).
  rewrite IH; [done|]. intros alt Hin. apply Hall, elem_of_cons. by right.
Qed.

(** X29: a query none of whose alternatives is a wildcard (each is,
    once [strings.TrimSpace] has trimmed it, the bare [*] or free of
    [*]) is expanded without an error and without a look at the index,
    whatever the regexp library computes: every tag value becomes the
    [|]-join of its trimmed alternatives.  [strings.TrimSpace] is any
    function. *)
Theorem Expand_no_wildcard s q :
  (forall k ov alt, qTags q !! k = Some ov -> alt ∈ GoStr.Split ov "|" ->
                    is_wildcard (TrimSpace alt) = false) ->
  Expand s q
  = ({| qMetric := qMetric q;
        qTags := (fun ov => GoStr.Join (TrimSpace <$> GoStr.Split ov "|") "|")
                 <$> qTags q |}, None).
Proof.
  intros Hlit.
  assert (Htv : forall k ov, qTags q !! k = Some ov ->
            tag_values s (qMetric q) k ov
            = Ok (TrimSpace <$> GoStr.Split ov "|")).
  { intros k ov Hk. apply collect_values_literal. intros alt. by apply (Hlit k). }
  assert (Hne : forall ov, TrimSpace <$> GoStr.Split ov "|" <> []).
  { intros ov Hnil. apply fmap_nil_inv in Hnil.
    by apply (split_from_nonempty "|" ov 0). }
  destruct (Expand_loop Compile MatchString TrimSpace s (map_to_list (qTags q)) q)
    as (Hm & Hok & Htags & _).
  fold (Expand s q) in Hm, Hok, Htags.
  assert (Hnone : (Expand s q).2 = None).
  { apply Hok, Forall_forall. intros [k ov] Hin.
    apply elem_of_map_to_list in Hin. simpl.
    rewrite expand_tag_spec, (Htv k ov Hin).
    destruct (TrimSpace <$> GoStr.Split ov "|") as [|v vs] eqn:Hs;
      [by destruct (Hne ov)|by eexists]. }
  specialize (Htags Hnone).
  destruct (Expand s q) as [q' e]. simpl in *. subst e. f_equal.
  destruct q' as [m t]. simpl in *. subst m. f_equal. rewrite Htags.
  apply map_eq. intros k.
  rewrite (foldl_insert_lookup (expanded s (qMetric q)))
    by apply NoDup_fst_map_to_list.
  rewrite list_to_map_to_list, lookup_fmap.
  destruct (qTags q !! k) as [ov|] eqn:Hk; [|done]. simpl.
  unfold expanded. by rewrite (Htv k ov Hk).
Qed.

End ExpandFurther.

Lemma Expand_no_wildcard_witness :
  search.Expand GoRegexp.Compile GoRegexp.MatchString GoStr.TrimSpace
    NewSearch query_trimmed
  = ({| qMetric := qMetric query_trimmed;
        qTags := (fun ov => GoStr.Join (GoStr.TrimSpace <$> GoStr.Split ov "|") "|")
                 <$> qTags query_trimmed |}, None).
Proof.
  apply (Expand_no_wildcard GoRegexp.Compile GoRegexp.MatchString GoStr.TrimSpace
           NewSearch query_trimmed).
  intros k ov alt Hk Hin. unfold query_trimmed in Hk. simpl in Hk.
  apply lookup_singleton_Some in Hk as [_ <-].
  change (alt ∈ [" a "; " * "]) in Hin.
  apply elem_of_cons in Hin as [->|Hin]; [reflexivity|].
  apply elem_of_cons in Hin as [->|Hin]; [reflexivity|].
  by apply elem_of_nil in Hin.
Defined.

(** ** Batches *)

Lemma Index_loop_copy (mdp : list DataPoint) :
  forall s0 s',
    foldl (fun os dp => s ← os; Index_point s dp) (Some s0) mdp = Some s' ->
    copy s' = copy s0.
Proof.
  induction mdp as [|dp mdp IH]; intros s0 s'; cbn [foldl].
  - by intros [= <-].
  - simpl. destruct (Index_point s0 dp) as [s1|] eqn:H1.
    + intros Hs'. rewrite (IH s1 s' Hs').
      unfold Index_point in H1.
      destruct (index_last (Last s0) dp); simpl in H1; [|done].
      by injection H1 as <-.
    + by rewrite foldl_None.
Qed.

(** X30: with no publish in between, ingesting a batch in two calls
    gives what one call on the whole batch gives: the same tables, the
    same pairs, the same pending publish, and a panic in the one exactly
    when in the other. *)
Theorem Index_app s mdp1 mdp2 :
  Index s (mdp1 ++ mdp2) = s' ← Index s mdp1; Index s' mdp2.
Proof.
  unfold Index.
  set (s0 := if negb (copy s) then set_copy s true else s).
  assert (H0 : copy s0 = true) by (unfold s0; by destruct (copy s) eqn:Hc).
  rewrite foldl_app.
  destruct (foldl _ (Some s0) mdp1) as [s1|] eqn:H1; simpl.
  - apply Index_loop_copy in H1. by rewrite H1, H0.
  - by rewrite foldl_None.
Qed.

(** ** The tables as references *)

























(** What the copies are for: once the snapshot holds the references of
    the live tables, or copies of the tables that still hold the live
    [present] maps, the next batch shows in the answers of the queries
    before any publish. *)
Lemma sharing_changes_snapshot :
  (exists s', heap.Index (share heap.NewSearch) [pt 1 1] = Some s'
     /\ TagKeysByMetric (heap.contents (share heap.NewSearch)) "cpu" = []
     /\ TagKeysByMetric (heap.contents s') "cpu" = ["host"])
  /\ (exists s', heap.Index shared_presents_one [mem_on_a] = Some s'
        /\ MetricsByTagPair (heap.contents shared_presents_one) "host" "a" = ["cpu"]
        /\ MetricsByTagPair (heap.contents s') "host" "a" = ["cpu"; "mem"]).
Proof.
  split.
  - exists (default heap.NewSearch (heap.Index (share heap.NewSearch) [pt 1 1])).
    split_and!; vm_compute; reflexivity.
  - exists (default heap.NewSearch (heap.Index shared_presents_one [mem_on_a])).
    split_and!; vm_compute; reflexivity.
Qed.
